(** * Farm CBA decision aid: evaluation and simulation engine

    A shallow embedding of the cost-benefit engine of [src/app.js]:
    the cash-flow builder, the discounted indicators, the IRR and MIRR
    calculators, the seeded generator and the Monte Carlo loop of the
    decision-aid application, and the control selection of the trial
    comparison application found in the same file.

    Numbers.  A JavaScript number is modelled by [num]: an exact rational,
    one of the two infinities, or NaN.  Arithmetic on finite values is exact
    (no binary64 rounding, no overflow) and zero carries no sign; the special
    values follow IEEE 754 as JavaScript does.  [Math.sqrt] and [Math.pow]
    at a non-integer exponent have no rational value in general: they are
    section variables, and every statement holds for any choice of them. *)

From Stdlib Require Import ZArith QArith Qcanon Qcabs Qround Lqa.
From Stdlib Require Import List String Ascii Bool Lia Sorted.
Import ListNotations.

(* ================================================================= *)
(** ** JavaScript numbers *)

Module Num.

Inductive num : Type :=
| Fin (q : Qc)
| PInf
| NInf
| NaN.

Definition ofQ (q : Q) : num := Fin (Q2Qc q).
Definition ofZ (z : Z) : num := ofQ (inject_Z z).

Definition zero : num := ofZ 0.
Definition one : num := ofZ 1.

(** Sign of a finite value, as a comparison with zero. *)
Definition sgn (q : Qc) : comparison := (q ?= Q2Qc 0)%Qc.

Definition qeqb (a b : Qc) : bool :=
  match (a ?= b)%Qc with Eq => true | _ => false end.
Definition qltb (a b : Qc) : bool :=
  match (a ?= b)%Qc with Lt => true | _ => false end.
Definition qleb (a b : Qc) : bool :=
  match (a ?= b)%Qc with Gt => false | _ => true end.

Definition neg (x : num) : num :=
  match x with
  | Fin a => Fin (- a)%Qc
  | PInf => NInf
  | NInf => PInf
  | NaN => NaN
  end.

Definition add (x y : num) : num :=
  match x, y with
  | NaN, _ | _, NaN => NaN
  | Fin a, Fin b => Fin (a + b)%Qc
  | PInf, NInf | NInf, PInf => NaN
  | PInf, _ | _, PInf => PInf
  | NInf, _ | _, NInf => NInf
  end.

Definition sub (x y : num) : num := add x (neg y).

(** An infinity of the sign of [c] ([Gt] positive); [0 * Infinity] is NaN. *)
Definition inf_of_sign (c : comparison) : num :=
  match c with Gt => PInf | Lt => NInf | Eq => NaN end.

Definition mul (x y : num) : num :=
  match x, y with
  | NaN, _ | _, NaN => NaN
  | Fin a, Fin b => Fin (a * b)%Qc
  | Fin a, PInf | PInf, Fin a => inf_of_sign (sgn a)
  | Fin a, NInf | NInf, Fin a => inf_of_sign (CompOpp (sgn a))
  | PInf, PInf | NInf, NInf => PInf
  | PInf, NInf | NInf, PInf => NInf
  end.

(** Division; a zero divisor counts as [+0]. *)
Definition div (x y : num) : num :=
  match x, y with
  | NaN, _ | _, NaN => NaN
  | Fin a, Fin b =>
      if qeqb b (Q2Qc 0) then inf_of_sign (sgn a) else Fin (a / b)%Qc
  | Fin _, PInf | Fin _, NInf => Fin (Q2Qc 0)
  | PInf, Fin b => match sgn b with Lt => NInf | _ => PInf end
  | NInf, Fin b => match sgn b with Lt => PInf | _ => NInf end
  | PInf, PInf | PInf, NInf | NInf, PInf | NInf, NInf => NaN
  end.

(** [x < y]; false as soon as one side is NaN. *)
Definition ltb (x y : num) : bool :=
  match x, y with
  | Fin a, Fin b => qltb a b
  | NInf, Fin _ | NInf, PInf | Fin _, PInf => true
  | _, _ => false
  end.

(** [x <= y]. *)
Definition leb (x y : num) : bool :=
  match x, y with
  | NaN, _ | _, NaN => false
  | Fin a, Fin b => qleb a b
  | NInf, _ | _, PInf => true
  | _, _ => false
  end.

Definition gtb (x y : num) : bool := ltb y x.
Definition geb (x y : num) : bool := leb y x.

(** [x === y] on numbers. *)
Definition eqb (x y : num) : bool :=
  match x, y with
  | Fin a, Fin b => qeqb a b
  | PInf, PInf | NInf, NInf => true
  | _, _ => false
  end.

Definition isFinite (x : num) : bool :=
  match x with Fin _ => true | _ => false end.

Definition isNaN (x : num) : bool :=
  match x with NaN => true | _ => false end.

(** Truthiness of a number: everything but [0] and [NaN]. *)
Definition truthy (x : num) : bool :=
  match x with
  | NaN => false
  | Fin a => negb (qeqb a (Q2Qc 0))
  | _ => true
  end.

(** [x || d]. *)
Definition por (x d : num) : num := if truthy x then x else d.

(** [Number(x) || 0] on a value that is already a number. *)
Definition or0 (x : num) : num := por x zero.

Definition Math_abs (x : num) : num :=
  match x with
  | Fin a => Fin (Qcabs a)
  | PInf | NInf => PInf
  | NaN => NaN
  end.

Definition Math_max (x y : num) : num :=
  match x, y with
  | NaN, _ | _, NaN => NaN
  | _, _ => if ltb x y then y else x
  end.

Definition Math_min (x y : num) : num :=
  match x, y with
  | NaN, _ | _, NaN => NaN
  | _, _ => if ltb y x then y else x
  end.

(** [Math.pow(x, n)] at a non-negative integer exponent. *)
Fixpoint npow (x : num) (n : nat) : num :=
  match n with
  | O => one
  | S k => mul x (npow x k)
  end.

(** Structural equality test, used to decide closed equations. *)
Definition num_eqb (x y : num) : bool :=
  match x, y with
  | Fin a, Fin b => qeqb a b
  | PInf, PInf | NInf, NInf | NaN, NaN => true
  | _, _ => false
  end.

End Num.

Export Num.

Declare Scope num_scope.
Delimit Scope num_scope with num.
Bind Scope num_scope with num.
Infix "+" := add : num_scope.
Infix "-" := sub : num_scope.
Infix "*" := mul : num_scope.
Infix "/" := div : num_scope.
Infix "<?" := ltb : num_scope.
Infix "<=?" := leb : num_scope.
Infix ">?" := gtb : num_scope.
Infix ">=?" := geb : num_scope.
Infix "=?" := eqb : num_scope.

(* ================================================================= *)
(** ** Arrays and strings as the engine uses them *)

(** [new Array(n).fill(0)]. *)
Definition zeros (n : nat) : list num := repeat zero n.

(** [a[i] += v] at an index inside the array.  Every such write of the
    engine sits under a guard that keeps the index in range. *)
Fixpoint arr_add (i : nat) (v : num) (a : list num) : list num :=
  match a, i with
  | [], _ => []
  | x :: r, O => (x + v)%num :: r
  | x :: r, S k => x :: arr_add k v r
  end.

(** [a[i]] read as a number ([undefined], hence NaN, past the end). *)
Definition arr_get (i : nat) (a : list num) : num := nth i a NaN.

(** The calendar years [sy, sy+1, ..., ey] of a [for (y = sy; y <= ey; y++)]. *)
Definition year_range (sy ey : Z) : list Z :=
  map (fun k => (sy + Z.of_nat k)%Z) (seq 0 (Z.to_nat (ey - sy + 1))).

Definition upper_ascii (c : ascii) : ascii :=
  let n := nat_of_ascii c in
  if (97 <=? n)%nat && (n <=? 122)%nat then ascii_of_nat (n - 32) else c.

Definition lower_ascii (c : ascii) : ascii :=
  let n := nat_of_ascii c in
  if (65 <=? n)%nat && (n <=? 90)%nat then ascii_of_nat (n + 32) else c.

Fixpoint map_string (f : ascii -> ascii) (s : string) : string :=
  match s with
  | EmptyString => EmptyString
  | String c r => String (f c) (map_string f r)
  end.

Definition toUpperCase : string -> string := map_string upper_ascii.
Definition toLowerCase : string -> string := map_string lower_ascii.

(** [s.includes(p)]. *)
Fixpoint includes (p s : string) : bool :=
  prefix p s ||
  match s with
  | EmptyString => false
  | String _ r => includes p r
  end.

Definition is_space (c : ascii) : bool :=
  let n := nat_of_ascii c in
  (n =? 32)%nat || ((9 <=? n)%nat && (n <=? 13)%nat).

Fixpoint trim_start (s : string) : string :=
  match s with
  | EmptyString => EmptyString
  | String c r => if is_space c then trim_start r else s
  end.

Fixpoint rev_append_string (s acc : string) : string :=
  match s with
  | EmptyString => acc
  | String c r => rev_append_string r (String c acc)
  end.

Definition rev_string (s : string) : string := rev_append_string s EmptyString.

(** [s.trim()] on ASCII text. *)
Definition trim (s : string) : string :=
  rev_string (trim_start (rev_string (trim_start s))).

(* ================================================================= *)
(** ** The trial comparison: aggregation and control selection *)

Module Plot.

Local Open Scope string_scope.
Local Open Scope num_scope.

(** [parseNumber] on a value that is already a number. *)
Definition parseNumber (v : num) : num := if isFinite v then v else NaN.

(** [parseBoolean]; [None] is a cell that is [null] or [undefined]. *)
Definition parseBoolean (value : option string) : bool :=
  match value with
  | None => false
  | Some v =>
      let s := toLowerCase (trim v) in
      String.eqb s "true" || String.eqb s "1" || String.eqb s "yes"
      || String.eqb s "y"
  end.

(** [l.indexOf(x)]; [None] stands for [-1]. *)
Fixpoint indexOf (x : string) (l : list string) : option nat :=
  match l with
  | [] => None
  | y :: r => if String.eqb y x then Some O else option_map S (indexOf x r)
  end.

(** The closure [findCol] of [detectColumnMap]: the header, as the
    dataset spells it, of the first alias that names a column; [None]
    stands for [null]. *)
Fixpoint findCol (headers aliases : list string) : option string :=
  match aliases with
  | [] => None
  | alias :: rest =>
      match indexOf (toLowerCase alias) (map toLowerCase headers) with
      | Some idx => nth_error headers idx
      | None => findCol headers rest
      end
  end.

Record ColumnMap := {
  col_plotId : option string;
  col_replicate : option string;
  col_treatmentName : option string;
  col_isControl : option string;
  col_yield : option string;
  col_variableCost : option string;
  col_capitalCost : option string
}.

Definition detectColumnMap (headers : list string) : ColumnMap :=
  {| col_plotId := findCol headers ["plot_id"];
     col_replicate :=
       findCol headers ["replicate_id"; "replicate"; "rep"; "rep_no"];
     col_treatmentName :=
       findCol headers ["treatment_name"; "amendment_name"; "treatment"];
     col_isControl :=
       findCol headers ["is_control"; "control_flag"; "control"];
     col_yield := findCol headers ["yield_t_ha"; "yield"; "yield_t/ha"];
     col_variableCost :=
       findCol headers ["total_cost_per_ha"; "variable_cost_per_ha";
                        "total_cost_per_ha_raw"];
     col_capitalCost :=
       findCol headers ["capital_cost_per_ha";
                        "cost_amendment_input_per_ha"] |}.

(** A data row after column detection.  [treatment_cell] is the text
    under the treatment column (empty when there is none),
    [control_cell] the text under the control column ([None] when the
    column or the cell is missing); a numeric cell holds the number its
    text denotes, NaN when it denotes none or the column is missing. *)
Record Row := {
  treatment_cell : string;
  control_cell : option string;
  yield_cell : num;
  variableCost_cell : num;
  capitalCost_cell : num
}.

Record Summary := {
  s_name : string;
  yields : list num;
  variableCosts : list num;
  capitalCosts : list num;
  isControlFlagged : bool
}.

Record Treat := {
  name : string;
  isControl : bool;
  avgYield : num;
  avgVarCost : num;
  avgCapCost : num
}.

Record Params := {
  pricePerTonne : num;
  years : Z;
  persistenceYears : Z;
  discountRate : num
}.

Record Result := {
  r_name : string;
  r_isControl : bool;
  r_avgYield : num;
  r_avgVarCost : num;
  r_avgCapCost : num;
  pvBenefits : num;
  pvTotalCosts : num;
  npv : num;
  bcr : num;
  roi : num;
  deltaPvBenefits : num;
  deltaPvCosts : num;
  deltaNpv : num;
  rank : nat
}.

Record Results := {
  res_treatments : list Result;
  res_control : option Result
}.

Record State := {
  headers : list string;
  rows : list Row;
  treatments : list Treat;
  controlName : option string;
  params : Params;
  results : Results
}.

Definition discountFactorSum (discountRatePct : num) (years : Z) : num :=
  let r := discountRatePct / ofZ 100 in
  if (years <=? 0)%Z then zero
  else if r =? zero then ofZ years
  else
    fold_left (fun sum t => sum + one / npow (one + r) t)
              (seq 1 (Z.to_nat years)) zero.

Definition meanIgnoringNaN (values : list num) : num :=
  match values with
  | [] => NaN
  | _ =>
      let '(sum, n) :=
        fold_left
          (fun '(sum, n) v =>
             let x := parseNumber v in
             if isNaN x then (sum, n) else (sum + x, S n))
          values (zero, O) in
      match n with
      | O => NaN
      | _ => sum / ofZ (Z.of_nat n)
      end
  end.

Definition new_summary (treatmentName : string) : Summary :=
  {| s_name := treatmentName; yields := []; variableCosts := [];
     capitalCosts := []; isControlFlagged := false |}.

(** What one row adds to its treatment's summary. *)
Definition add_row (row : Row) (isCtrl : bool) (t : Summary) : Summary :=
  let push (x : num) (l : list num) :=
    if isNaN (parseNumber x) then l else (l ++ [parseNumber x])%list in
  {| s_name := s_name t;
     yields := push (yield_cell row) (yields t);
     variableCosts := push (variableCost_cell row) (variableCosts t);
     capitalCosts := push (capitalCost_cell row) (capitalCosts t);
     isControlFlagged := if isCtrl then true else isControlFlagged t |}.

(** [summaryByName], a [Map], is a list of summaries in insertion order
    with one entry per name. *)
Definition upsert (treatmentName : string) (f : Summary -> Summary)
    (m : list Summary) : list Summary :=
  if existsb (fun t => String.eqb (s_name t) treatmentName) m
  then map (fun t => if String.eqb (s_name t) treatmentName then f t else t) m
  else (m ++ [f (new_summary treatmentName)])%list.

(** The body of [for (const row of rows)] in [aggregateTreatments]:
    the map and [controlNameFromFlag]. *)
Definition aggregate_row (acc : list Summary * option string) (row : Row)
    : list Summary * option string :=
  let '(summaryByName, controlNameFromFlag) := acc in
  let treatmentName := trim (treatment_cell row) in
  if String.eqb treatmentName "" then acc else
  let isCtrl := parseBoolean (control_cell row) in
  (upsert treatmentName (add_row row isCtrl) summaryByName,
   if isCtrl then Some treatmentName else controlNameFromFlag).

(** The "Decide control treatment" block. *)
Definition decide_control (summaryByName : list Summary)
    (controlNameFromFlag : option string) : option string :=
  let controlName := controlNameFromFlag in
  let controlName :=
    match controlName with
    | Some c => Some c
    | None =>
        match find (fun t => includes "control" (toLowerCase (s_name t)))
                   summaryByName with
        | Some t => Some (s_name t)
        | None => None
        end
    end in
  match controlName, summaryByName with
  | None, t :: _ => Some (s_name t)
  | _, _ => controlName
  end.

Definition aggregateTreatments (state : State) : State :=
  match headers state, rows state with
  | [], _ | _, [] => state
  | _, _ =>
      let '(summaryByName, controlNameFromFlag) :=
        fold_left aggregate_row (rows state) ([], None) in
      let controlName := decide_control summaryByName controlNameFromFlag in
      let treatments :=
        map (fun t =>
               let avgCapCost :=
                 if isNaN (meanIgnoringNaN (capitalCosts t)) then zero
                 else meanIgnoringNaN (capitalCosts t) in
               {| name := s_name t;
                  isControl :=
                    match controlName with
                    | Some c => String.eqb (s_name t) c
                    | None => false
                    end;
                  avgYield := meanIgnoringNaN (yields t);
                  avgVarCost := meanIgnoringNaN (variableCosts t);
                  avgCapCost := avgCapCost |})
            summaryByName in
      {| headers := headers state; rows := rows state;
         treatments := treatments; controlName := controlName;
         params := params state; results := results state |}
  end.

(** The metrics of one treatment, before the comparison with the
    control. *)
Definition treatment_result (controlName : string)
    (price factorBenefits factorCosts : num) (t : Treat) : Result :=
  let avgYield := parseNumber (avgYield t) in
  let avgVarCost := parseNumber (avgVarCost t) in
  let avgCapCost := parseNumber (avgCapCost t) in
  let pvBenefits :=
    if isNaN avgYield then NaN else avgYield * price * factorBenefits in
  let pvVarCosts := if isNaN avgVarCost then NaN else avgVarCost * factorCosts in
  let pvCapCosts := if isNaN avgCapCost then zero else avgCapCost in
  let pvTotalCosts :=
    if isNaN pvVarCosts && isNaN pvCapCosts then NaN
    else (if isNaN pvVarCosts then zero else pvVarCosts) + pvCapCosts in
  let npv :=
    if isNaN pvBenefits || isNaN pvTotalCosts then NaN
    else pvBenefits - pvTotalCosts in
  let bcr :=
    if negb (isNaN pvBenefits) && (pvTotalCosts >? zero)
    then pvBenefits / pvTotalCosts else NaN in
  let roi :=
    if negb (isNaN npv) && (pvTotalCosts >? zero)
    then (npv / pvTotalCosts) * ofZ 100 else NaN in
  {| r_name := name t;
     r_isControl := String.eqb (name t) controlName;
     r_avgYield := avgYield; r_avgVarCost := avgVarCost;
     r_avgCapCost := avgCapCost;
     pvBenefits := pvBenefits; pvTotalCosts := pvTotalCosts;
     npv := npv; bcr := bcr; roi := roi;
     deltaPvBenefits := NaN; deltaPvCosts := NaN; deltaNpv := NaN;
     rank := O |}.

Definition with_deltas (c r : Result) : Result :=
  {| r_name := r_name r; r_isControl := r_isControl r;
     r_avgYield := r_avgYield r; r_avgVarCost := r_avgVarCost r;
     r_avgCapCost := r_avgCapCost r;
     pvBenefits := pvBenefits r; pvTotalCosts := pvTotalCosts r;
     npv := npv r; bcr := bcr r; roi := roi r;
     deltaPvBenefits := pvBenefits r - pvBenefits c;
     deltaPvCosts := pvTotalCosts r - pvTotalCosts c;
     deltaNpv := npv r - npv c;
     rank := rank r |}.

Definition with_rank (idx : nat) (r : Result) : Result :=
  {| r_name := r_name r; r_isControl := r_isControl r;
     r_avgYield := r_avgYield r; r_avgVarCost := r_avgVarCost r;
     r_avgCapCost := r_avgCapCost r;
     pvBenefits := pvBenefits r; pvTotalCosts := pvTotalCosts r;
     npv := npv r; bcr := bcr r; roi := roi r;
     deltaPvBenefits := deltaPvBenefits r;
     deltaPvCosts := deltaPvCosts r;
     deltaNpv := deltaNpv r;
     rank := idx + 1 |}.

(** The comparator of [results.sort]: negative when [a] goes first. *)
Definition by_npv_desc (a b : Result) : num :=
  let aVal := if isNaN (npv a) then NInf else npv a in
  let bVal := if isNaN (npv b) then NInf else npv b in
  bVal - aVal.

(** [Array.prototype.sort] is stable: an element is placed before the
    first one the comparator puts strictly after it. *)
Fixpoint insert_by (cmp : Result -> Result -> num) (x : Result)
    (l : list Result) : list Result :=
  match l with
  | [] => [x]
  | y :: r => if cmp y x >? zero then x :: l else y :: insert_by cmp x r
  end.

Definition sort_by (cmp : Result -> Result -> num) (l : list Result)
    : list Result :=
  fold_left (fun sorted x => insert_by cmp x sorted) l [].

Fixpoint rank_from (idx : nat) (l : list Result) : list Result :=
  match l with
  | [] => []
  | r :: rest => with_rank idx r :: rank_from (S idx) rest
  end.

(** [computeCBA].  [years] and [persistenceYears] are integers, 0
    standing for a value [parseInt] cannot read.  The [control] entry of
    the results is the very object [controlRes] of the ranked array, with
    its deltas and rank: it is looked up there by its name, names being
    the keys of [summaryByName].  The parameters copied into the results
    are left out. *)
Definition computeCBA (state : State) : State :=
  match treatments state, controlName state with
  | [], _ | _, None => state
  | first :: _, Some controlName =>
      let p := params state in
      let price := por (parseNumber (pricePerTonne p)) zero in
      let years := Z.max 1 (if (years p =? 0)%Z then 1 else years p) in
      let persistenceYears :=
        Z.max 1 (Z.min years (if (persistenceYears p =? 0)%Z then years
                              else persistenceYears p)) in
      let discountRate := parseNumber (discountRate p) in
      let factorBenefits := discountFactorSum discountRate persistenceYears in
      let factorCosts := discountFactorSum discountRate years in
      let results :=
        map (treatment_result controlName price factorBenefits factorCosts)
            (treatments state) in
      let controlRes :=
        match find r_isControl results with
        | Some r => r
        | None =>
            treatment_result controlName price factorBenefits factorCosts
                             first
        end in
      let results := map (with_deltas controlRes) results in
      let results := rank_from 0 (sort_by by_npv_desc results) in
      {| headers := headers state; rows := rows state;
         treatments := treatments state; controlName := Some controlName;
         params := params state;
         results :=
           {| res_treatments := results;
              res_control :=
                find (fun r => String.eqb (r_name r) (r_name controlRes))
                     results |} |}
  end.

(** The state before any data is loaded. *)
Definition initial (hs : list string) (rs : list Row) : State :=
  {| headers := hs; rows := rs; treatments := []; controlName := None;
     params := {| pricePerTonne := ofZ 500; years := 10;
                  persistenceYears := 10; discountRate := ofZ 5 |};
     results := {| res_treatments := []; res_control := None |} |}.

(** *** Vocabulary of the statements *)

(** Loading a dataset and evaluating it. *)
Definition evaluate (hs : list string) (rs : list Row) : State :=
  computeCBA (aggregateTreatments (initial hs rs)).

(** A row that names a treatment, and one that also flags it as the
    control. *)
Definition named (r : Row) : bool :=
  negb (String.eqb (trim (treatment_cell r)) "").

Definition flagged (r : Row) : bool :=
  named r && parseBoolean (control_cell r).

(** The treatment of the last flagged row. *)
Definition last_flagged (rs : list Row) : option string :=
  fold_left
    (fun acc r => if flagged r then Some (trim (treatment_cell r)) else acc)
    rs None.

(** The control picked when no row is flagged: the first treatment whose
    name contains "control", else the first treatment. *)
Definition fallback_control (ts : list Treat) : option string :=
  match find (fun t => includes "control" (toLowerCase (name t))) ts with
  | Some t => Some (name t)
  | None => match ts with t :: _ => Some (name t) | [] => None end
  end.

(** Two treatments, neither flagged nor named as a control. *)
Definition unflagged_rows : list Row :=
  [ {| treatment_cell := "Deep ripping"; control_cell := None;
       yield_cell := ofZ 2; variableCost_cell := ofZ 100;
       capitalCost_cell := NaN |};
    {| treatment_cell := "Gypsum"; control_cell := Some "false";
       yield_cell := ofZ 3; variableCost_cell := ofZ 100;
       capitalCost_cell := NaN |} ].

(** An alias names a header when they agree up to letter case. *)
Definition names_column (alias header : string) : bool :=
  String.eqb (toLowerCase header) (toLowerCase alias).

(** The key the ranking sorts on: the NPV, or minus infinity when the
    treatment has none. *)
Definition npv_key (r : Result) : num :=
  if isNaN (npv r) then NInf else npv r.

(** [a] may stand before [b] in the ranking: the NPV of [b] is not the
    larger one. *)
Definition ranked_before (a b : Result) : Prop :=
  (npv_key b >? npv_key a) = false.

End Plot.

(* ================================================================= *)
(** ** The decision-aid engine *)

Module Engine.

Local Open Scope string_scope.
Local Open Scope num_scope.

(** *** The model (the [model] object of the application)

    Only the fields the engine reads are kept.  A numeric field holds the
    number [Number] reads from it, so that NaN also stands for a property
    that is missing or not numeric.  Calendar years are integers and the
    horizon [years] is a natural number; a year field that is missing
    reads as 0, which [Number(y) || fallback] treats like a missing one.
    Flags hold their truth value. *)

Record Time := {
  startYear : Z;
  years : nat;
  discBase : num;
  discLow : num;
  discHigh : num;
  mirrFinance : num;
  mirrReinvest : num
}.

Record Output := {
  out_id : string;
  out_value : num
}.

Record Treatment := {
  area : num;
  deltas : list (string * num);
  materialsCost : num;
  servicesCost : num;
  labourCost : num;
  capitalCost : num;
  constrained : bool
}.

Record Benefit := {
  category : string;
  frequency : string;
  b_startYear : Z;
  b_endYear : Z;
  b_year : Z;
  unitValue : num;
  quantity : num;
  abatement : num;
  annualAmount : num;
  growthPct : num;
  linkAdoption : bool;
  linkRisk : bool;
  p0 : num;
  p1 : num;
  consequence : num
}.

Record OtherCost := {
  c_type : string;
  annual : num;
  c_startYear : Z;
  c_endYear : Z;
  capital : num;
  c_year : Z;
  c_constrained : bool
}.

Record Range := {
  base : num;
  low : num;
  high : num
}.

Record Sim := {
  n : num;
  targetBCR : num;
  bcrMode : string;
  seed : option num;
  variationPct : num;
  varyOutputs : bool;
  varyTreatCosts : bool;
  varyInputCosts : bool
}.

Record Model := {
  time : Time;
  outputs : list Output;
  treatments : list Treatment;
  benefits : list Benefit;
  otherCosts : list OtherCost;
  adoption : Range;
  risk : Range;
  sim : Sim
}.

(** A year field read as [Number(y) || fallback]: zero is falsy. *)
Definition year_or (y fallback : Z) : Z :=
  if (y =? 0)%Z then fallback else y.

(** [t.deltas[o.id]]: a missing key reads [undefined], which
    [Number] turns into NaN. *)
Definition delta_of (t : Treatment) (id : string) : num :=
  match find (fun p => String.eqb (fst p) id) (deltas t) with
  | Some p => snd p
  | None => NaN
  end.

Definition clamp (v a b : num) : num := Math_max a (Math_min b v).

(** *** Cash flows *)

Section Cashflows.

Variable model : Model.

(** One pass of the [model.benefits.forEach] body of
    [additionalBenefitsSeries]. *)
Definition benefit_item (N : nat) (baseYear : Z) (adoptMul risk : num)
    (series : list num) (b : Benefit) : list num :=
  let cat := toUpperCase (category b) in
  let A := if linkAdoption b then clamp adoptMul zero one else one in
  let R := if linkRisk b then one - clamp risk zero one else one in
  let g := or0 (growthPct b) in
  let addAnnual (series : list num) (yearIndex : Z) (baseAmount : num)
        (tFromStart : Z) : list num :=
    let grown := baseAmount * npow (one + g / ofZ 100) (Z.to_nat tFromStart) in
    if (1 <=? yearIndex)%Z && (yearIndex <=? Z.of_nat N)%Z
    then arr_add (Z.to_nat yearIndex) (grown * A * R) series
    else series in
  let addOnce (series : list num) (absYear : Z) (amount : num) : list num :=
    let idx := (absYear - baseYear + 1)%Z in
    if (0 <=? idx)%Z && (idx <=? Z.of_nat N)%Z
    then arr_add (Z.to_nat idx) (amount * A * R) series
    else series in
  let sy := year_or (b_startYear b) baseYear in
  let ey := year_or (b_endYear b) sy in
  let yr := year_or (b_year b) sy in
  if String.eqb (frequency b) "Once" || String.eqb cat "C6" then
    addOnce series yr (or0 (annualAmount b))
  else
    fold_left
      (fun series y =>
         let idx := (y - baseYear + 1)%Z in
         let tFromStart := (y - sy)%Z in
         let amt :=
           if String.eqb cat "C1" || String.eqb cat "C2" || String.eqb cat "C3"
           then
             let v := or0 (unitValue b) in
             let q := or0 (if String.eqb cat "C3" then abatement b
                           else quantity b) in
             v * q
           else if String.eqb cat "C4" || String.eqb cat "C5"
                   || String.eqb cat "C8"
           then or0 (annualAmount b)
           else if String.eqb cat "C7"
           then
             let p0 := or0 (p0 b) in
             let p1 := or0 (p1 b) in
             let c := or0 (consequence b) in
             Math_max (p0 - p1) zero * c
           else zero in
         addAnnual series idx amt tFromStart)
      (year_range sy ey) series.

Definition additionalBenefitsSeries (N : nat) (baseYear : Z)
    (adoptMul risk : num) : list num :=
  fold_left (benefit_item N baseYear adoptMul risk) (benefits model)
            (zeros (N + 1)).

(** [for (let t = 1; t <= N; t++) a[t] += v]. *)
Definition add_each_year (N : nat) (v : num) (a : list num) : list num :=
  fold_left (fun a t => arr_add t v a) (seq 1 N) a.

(** [for (let t = lo; t < hi; t++) a[t] += b[t]]. *)
Definition add_arrays (lo len : nat) (b a : list num) : list num :=
  fold_left (fun a t => arr_add t (arr_get t b) a) (seq lo len) a.

Record TreatTotals := {
  annualBenefit : num;
  treatAnnualCost : num;
  treatConstrAnnualCost : num;
  treatCapitalY0 : num;
  treatConstrCapitalY0 : num
}.

(** [valuePerHa] after the inner [model.outputs.forEach]. *)
Definition valuePerHa (t : Treatment) : num :=
  fold_left
    (fun valuePerHa o =>
       let delta := or0 (delta_of t (out_id o)) in
       let v := or0 (out_value o) in
       valuePerHa + delta * v)
    (outputs model) zero.

Definition annualCostPerHa (t : Treatment) : num :=
  or0 (materialsCost t) + or0 (servicesCost t) + or0 (labourCost t).

(** The body of [model.treatments.forEach] in [buildCashflows]. *)
Definition treatment_item (adoptMul risk : num) (acc : TreatTotals)
    (t : Treatment) : TreatTotals :=
  let adopt := clamp adoptMul zero one in
  let area := or0 (area t) in
  let benefit :=
    valuePerHa t * area * (one - clamp risk zero one) * adopt in
  let opCost := annualCostPerHa t * area in
  let cap := or0 (capitalCost t) in
  {| annualBenefit := annualBenefit acc + benefit;
     treatAnnualCost := treatAnnualCost acc + opCost;
     treatCapitalY0 := treatCapitalY0 acc + cap;
     treatConstrAnnualCost :=
       if constrained t then treatConstrAnnualCost acc + opCost
       else treatConstrAnnualCost acc;
     treatConstrCapitalY0 :=
       if constrained t then treatConstrCapitalY0 acc + cap
       else treatConstrCapitalY0 acc |}.

Record OtherTotals := {
  costByYear_ : list num;
  constrainedCostByYear_ : list num;
  otherAnnualByYear : list num;
  otherConstrAnnualByYear : list num;
  otherCapitalY0 : num;
  otherConstrCapitalY0 : num
}.

(** The body of [model.otherCosts.forEach] in [buildCashflows]. *)
Definition other_cost_item (N : nat) (baseYear : Z) (acc : OtherTotals)
    (c : OtherCost) : OtherTotals :=
  if String.eqb (c_type c) "annual" then
    let a := or0 (annual c) in
    let sy := year_or (c_startYear c) baseYear in
    let ey := year_or (c_endYear c) sy in
    fold_left
      (fun acc y =>
         let idx := (y - baseYear + 1)%Z in
         if (1 <=? idx)%Z && (idx <=? Z.of_nat N)%Z then
           {| costByYear_ := costByYear_ acc;
              constrainedCostByYear_ := constrainedCostByYear_ acc;
              otherAnnualByYear :=
                arr_add (Z.to_nat idx) a (otherAnnualByYear acc);
              otherConstrAnnualByYear :=
                if c_constrained c
                then arr_add (Z.to_nat idx) a (otherConstrAnnualByYear acc)
                else otherConstrAnnualByYear acc;
              otherCapitalY0 := otherCapitalY0 acc;
              otherConstrCapitalY0 := otherConstrCapitalY0 acc |}
         else acc)
      (year_range sy ey) acc
  else if String.eqb (c_type c) "capital" then
    let cap := or0 (capital c) in
    let cy := year_or (c_year c) baseYear in
    let idx := (cy - baseYear)%Z in
    if (idx =? 0)%Z then
      {| costByYear_ := costByYear_ acc;
         constrainedCostByYear_ := constrainedCostByYear_ acc;
         otherAnnualByYear := otherAnnualByYear acc;
         otherConstrAnnualByYear := otherConstrAnnualByYear acc;
         otherCapitalY0 := otherCapitalY0 acc + cap;
         otherConstrCapitalY0 :=
           if c_constrained c then otherConstrCapitalY0 acc + cap
           else otherConstrCapitalY0 acc |}
    else if (0 <? idx)%Z && (idx <=? Z.of_nat N)%Z then
      {| costByYear_ := arr_add (Z.to_nat idx) cap (costByYear_ acc);
         constrainedCostByYear_ :=
           if c_constrained c
           then arr_add (Z.to_nat idx) cap (constrainedCostByYear_ acc)
           else constrainedCostByYear_ acc;
         otherAnnualByYear := otherAnnualByYear acc;
         otherConstrAnnualByYear := otherConstrAnnualByYear acc;
         otherCapitalY0 := otherCapitalY0 acc;
         otherConstrCapitalY0 := otherConstrCapitalY0 acc |}
    else acc
  else acc.

Record Cashflows := {
  benefitByYear : list num;
  costByYear : list num;
  constrainedCostByYear : list num;
  cf : list num;
  annualGM : num
}.

(** [buildCashflows({ forRate, adoptMul, risk })]; [forRate] is not read. *)
Definition buildCashflows (adoptMul risk : num) : Cashflows :=
  let N := years (time model) in
  let baseYear := startYear (time model) in
  let benefitByYear := zeros (N + 1) in
  let costByYear := zeros (N + 1) in
  let constrainedCostByYear := zeros (N + 1) in
  let tt :=
    fold_left (treatment_item adoptMul risk) (treatments model)
      {| annualBenefit := zero; treatAnnualCost := zero;
         treatConstrAnnualCost := zero; treatCapitalY0 := zero;
         treatConstrCapitalY0 := zero |} in
  let costByYear := arr_add 0 (treatCapitalY0 tt) costByYear in
  let constrainedCostByYear :=
    arr_add 0 (treatConstrCapitalY0 tt) constrainedCostByYear in
  let benefitByYear := add_each_year N (annualBenefit tt) benefitByYear in
  let costByYear := add_each_year N (treatAnnualCost tt) costByYear in
  let constrainedCostByYear :=
    add_each_year N (treatConstrAnnualCost tt) constrainedCostByYear in
  let oc :=
    fold_left (other_cost_item N baseYear) (otherCosts model)
      {| costByYear_ := costByYear;
         constrainedCostByYear_ := constrainedCostByYear;
         otherAnnualByYear := zeros (N + 1);
         otherConstrAnnualByYear := zeros (N + 1);
         otherCapitalY0 := zero;
         otherConstrCapitalY0 := zero |} in
  let costByYear := arr_add 0 (otherCapitalY0 oc) (costByYear_ oc) in
  let constrainedCostByYear :=
    arr_add 0 (otherConstrCapitalY0 oc) (constrainedCostByYear_ oc) in
  let costByYear := add_arrays 1 N (otherAnnualByYear oc) costByYear in
  let constrainedCostByYear :=
    add_arrays 1 N (otherConstrAnnualByYear oc) constrainedCostByYear in
  let extra := additionalBenefitsSeries N baseYear adoptMul risk in
  let benefitByYear := add_arrays 0 (List.length extra) extra benefitByYear in
  let cf :=
    map (fun i => arr_get i benefitByYear - arr_get i costByYear)
        (seq 0 (N + 1)) in
  let annualGM := annualBenefit tt - treatAnnualCost tt in
  {| benefitByYear := benefitByYear;
     costByYear := costByYear;
     constrainedCostByYear := constrainedCostByYear;
     cf := cf;
     annualGM := annualGM |}.

End Cashflows.

(** *** Discounting, IRR, payback *)

(** [sum over t of series[t] / Math.pow(b, t)], from index [t] on, added
    to [acc] from left to right. *)
Fixpoint discounted_sum (b : num) (t : nat) (series : list num) (acc : num)
    : num :=
  match series with
  | [] => acc
  | v :: rest => discounted_sum b (S t) rest (acc + v / npow b t)
  end.

Definition presentValue (series : list num) (ratePct : num) : num :=
  discounted_sum (one + ratePct / ofZ 100) 0 series zero.

(** The closure [npvAt] of [irr]. *)
Definition npvAt (cf : list num) (r : num) : num :=
  discounted_sum (one + r) 0 cf zero.

Definition irr_lo : num := ofQ (-99 # 100).
Definition irr_hi : num := ofZ 5.
Definition irr_tol : num := ofQ (1 # 100000000).

(** [for (let k = 0; k < 20 && nLo * nHi > 0; k++) { hi *= 1.5; ... }],
    with [fuel] iterations left. *)
Fixpoint irr_expand (fuel : nat) (cf : list num) (nLo hi nHi : num)
    : num * num :=
  match fuel with
  | O => (hi, nHi)
  | S k =>
      if nLo * nHi >? zero then
        let hi' := hi * ofQ (3 # 2) in
        irr_expand k cf nLo hi' (npvAt cf hi')
      else (hi, nHi)
  end.

(** The bisection loop of [irr] and the return that follows it, with
    [fuel] iterations left. *)
Fixpoint irr_bisect (fuel : nat) (cf : list num) (lo hi nLo nHi : num) : num :=
  match fuel with
  | O => ((lo + hi) / ofZ 2) * ofZ 100
  | S k =>
      let mid := (lo + hi) / ofZ 2 in
      let nMid := npvAt cf mid in
      if Math_abs nMid <? irr_tol then mid * ofZ 100
      else if nLo * nMid <=? zero then irr_bisect k cf lo mid nLo nMid
      else irr_bisect k cf mid hi nMid nHi
  end.

Definition irr (cf : list num) : num :=
  let hasPos := existsb (fun v => v >? zero) cf in
  let hasNeg := existsb (fun v => v <? zero) cf in
  if negb hasPos || negb hasNeg then NaN else
  let lo := irr_lo in
  let hi := irr_hi in
  let nLo := npvAt cf lo in
  let nHi := npvAt cf hi in
  if nLo * nHi >? zero then
    let '(hi, nHi) := irr_expand 20 cf nLo hi nHi in
    if nLo * nHi >? zero then NaN
    else irr_bisect 80 cf lo hi nLo nHi
  else irr_bisect 80 cf lo hi nLo nHi.

(** [payback]: [None] stands for [null]. *)
Fixpoint payback_from (t : nat) (ratePct : num) (cf : list num) (cum : num)
    : option nat :=
  match cf with
  | [] => None
  | v :: rest =>
      let cum := cum + v / npow (one + ratePct / ofZ 100) t in
      if cum >=? zero then Some t else payback_from (S t) ratePct rest cum
  end.

Definition payback (cf : list num) (ratePct : num) : option nat :=
  payback_from 0 ratePct cf zero.

(** *** MIRR and the full evaluation *)

Section MathLib.

(** [Math.sqrt], and [Math.pow] where the exponent is not a non-negative
    integer. *)
Variable Math_sqrt : num -> num.
Variable pow_frac : num -> num -> num.

Definition Math_pow (x y : num) : num :=
  match y with
  | Fin q =>
      if (Qden q =? 1)%positive && (0 <=? Qnum q)%Z
      then npow x (Z.to_nat (Qnum q))
      else pow_frac x y
  | _ => pow_frac x y
  end.

(** The loop of [mirr]: [t] is the current index, [n] is
    [cf.length - 1]. *)
Fixpoint mirr_loop (t n : nat) (fr rr : num) (cf : list num)
    (pvNeg fvPos : num) : num * num :=
  match cf with
  | [] => (pvNeg, fvPos)
  | v :: rest =>
      let pvNeg := if v <? zero then pvNeg + v / npow (one + fr) t
                   else pvNeg in
      let fvPos := if v >? zero then fvPos + v * npow (one + rr) (n - t)
                   else fvPos in
      mirr_loop (S t) n fr rr rest pvNeg fvPos
  end.

Definition mirr (cf : list num) (financeRatePct reinvestRatePct : num) : num :=
  let n := (Z.of_nat (List.length cf) - 1)%Z in
  let fr := financeRatePct / ofZ 100 in
  let rr := reinvestRatePct / ofZ 100 in
  let '(pvNeg, fvPos) := mirr_loop 0 (Z.to_nat n) fr rr cf zero zero in
  if pvNeg =? zero then NaN else
  let mirrVal := Math_pow (neg fvPos / pvNeg) (one / ofZ n) - one in
  mirrVal * ofZ 100.

Record Evaluation := {
  pvBenefits : num;
  pvCosts : num;
  pvCostsConstrained : num;
  npv : num;
  bcr : num;
  irrVal : num;
  mirrVal : num;
  roi : num;
  r_annualGM : num;
  profitMargin : num;
  paybackYears : option nat;
  r_cf : list num;
  r_benefitByYear : list num;
  r_costByYear : list num
}.

Definition computeAll (model : Model) (rate adoptMul risk : num)
    (bcrMode : string) : Evaluation :=
  let flows := buildCashflows model adoptMul risk in
  let pvBenefits := presentValue (benefitByYear flows) rate in
  let pvCosts := presentValue (costByYear flows) rate in
  let pvCostsConstrained := presentValue (constrainedCostByYear flows) rate in
  let npv := pvBenefits - pvCosts in
  let denom := if String.eqb bcrMode "constrained" then pvCostsConstrained
               else pvCosts in
  let bcr := if denom >? zero then pvBenefits / denom else NaN in
  let irrVal := irr (cf flows) in
  let mirrVal :=
    mirr (cf flows) (mirrFinance (time model)) (mirrReinvest (time model)) in
  let roi := if pvCosts >? zero
             then ((pvBenefits - pvCosts) / pvCosts) * ofZ 100 else NaN in
  let profitMargin :=
    if arr_get 1 (benefitByYear flows) >? zero
    then (annualGM flows / arr_get 1 (benefitByYear flows)) * ofZ 100
    else NaN in
  let pb := payback (cf flows) rate in
  {| pvBenefits := pvBenefits;
     pvCosts := pvCosts;
     pvCostsConstrained := pvCostsConstrained;
     npv := npv;
     bcr := bcr;
     irrVal := irrVal;
     mirrVal := mirrVal;
     roi := roi;
     r_annualGM := annualGM flows;
     profitMargin := profitMargin;
     paybackYears := pb;
     r_cf := cf flows;
     r_benefitByYear := benefitByYear flows;
     r_costByYear := costByYear flows |}.

(** *** The seeded generator *)

Definition two32 : Z := 4294967296.

(** The integer part of a number, towards zero; the non-finite values
    convert to [0] as [ToInt32] and [ToUint32] have it. *)
Definition truncZ (x : num) : Z :=
  match x with
  | Fin q => Z.quot (Qnum q) (Zpos (Qden q))
  | _ => 0%Z
  end.

Definition ToUint32 (z : Z) : Z := (z mod two32)%Z.
Definition ToInt32 (z : Z) : Z := ((z + 2147483648) mod two32 - 2147483648)%Z.

(** [a ^ b], [a | b], [a >>> k] and [Math.imul(a, b)] on integer-valued
    numbers. *)
Definition xor32 (a b : Z) : Z := ToInt32 (Z.lxor (ToInt32 a) (ToInt32 b)).
Definition or32 (a b : Z) : Z := ToInt32 (Z.lor (ToInt32 a) (ToInt32 b)).
Definition shru32 (a k : Z) : Z := Z.shiftr (ToUint32 a) k.
Definition imul (a b : Z) : Z := ToInt32 (ToInt32 a * ToInt32 b).

(** A non-negative integer as binary64 stores it: exact below [2^53],
    rounded to nearest, ties to even, above. *)
Definition round53 (z : Z) : Z :=
  if (z <? 9007199254740992)%Z then z else
  let e := (Z.log2 z - 52)%Z in
  let q := (z / 2 ^ e)%Z in
  let r := (z mod 2 ^ e)%Z in
  let half := (2 ^ (e - 1))%Z in
  if (r <? half)%Z then (q * 2 ^ e)%Z
  else if (half <? r)%Z then ((q + 1) * 2 ^ e)%Z
  else if Z.even q then (q * 2 ^ e)%Z
  else ((q + 1) * 2 ^ e)%Z.

Definition Math_floor (x : num) : num :=
  match x with
  | Fin q => ofZ (Qfloor q)
  | _ => x
  end.

(** The initial state [t] of [rng(seed)].  [None] is a seed that is
    [null] or [undefined]; [random] is what [Math.random()] returns when
    it is consulted. *)
Definition rng (seed : option num) (random : num) : Z :=
  let fallback := Math_floor (random * ofZ 2147483648) in
  let s := match seed with
           | Some s => if truthy s then s else fallback
           | None => fallback
           end in
  ToUint32 (truncZ s).

(** One call of the closure returned by [rng]: the new [t] and the
    number returned. *)
Definition rand (t : Z) : Z * num :=
  let t := round53 (t + 1831565813) in
  let x := t in
  let x := imul (xor32 x (shru32 x 15)) (or32 1 x) in
  let x := xor32 x (x + imul (xor32 x (shru32 x 7)) (or32 61 x)) in
  (t, ofZ (ToUint32 (xor32 x (shru32 x 14))) / ofZ two32).

Definition triangular (r a c b : num) : num :=
  let F := (c - a) / (b - a) in
  if r <? F then a + Math_sqrt (r * (b - a) * (c - a))
  else b - Math_sqrt ((one - r) * (b - a) * (b - c)).

(** *** Monte Carlo simulation *)

Fixpoint mapi_from {A B : Type} (i : nat) (f : nat -> A -> B) (l : list A)
    : list B :=
  match l with
  | [] => []
  | x :: r => f i x :: mapi_from (S i) f r
  end.

(** [l.forEach((x, idx) => ...)] where the body rewrites fields of [x]. *)
Definition mapi {A B : Type} (f : nat -> A -> B) (l : list A) : list B :=
  mapi_from 0 f l.

Definition set_value (o : Output) (v : num) : Output :=
  {| out_id := out_id o; out_value := v |}.

Definition set_costs (t : Treatment) (materials services labour : num)
    : Treatment :=
  {| area := area t; deltas := deltas t;
     materialsCost := materials; servicesCost := services;
     labourCost := labour; capitalCost := capitalCost t;
     constrained := constrained t |}.

Definition set_amounts (c : OtherCost) (a cap : num) : OtherCost :=
  {| c_type := c_type c; annual := a; c_startYear := c_startYear c;
     c_endYear := c_endYear c; capital := cap; c_year := c_year c;
     c_constrained := c_constrained c |}.

Definition with_outputs (m : Model) (os : list Output) : Model :=
  {| time := time m; outputs := os; treatments := treatments m;
     benefits := benefits m; otherCosts := otherCosts m;
     adoption := adoption m; risk := risk m; sim := sim m |}.

Definition with_treatments (m : Model) (ts : list Treatment) : Model :=
  {| time := time m; outputs := outputs m; treatments := ts;
     benefits := benefits m; otherCosts := otherCosts m;
     adoption := adoption m; risk := risk m; sim := sim m |}.

Definition with_otherCosts (m : Model) (cs : list OtherCost) : Model :=
  {| time := time m; outputs := outputs m; treatments := treatments m;
     benefits := benefits m; otherCosts := cs;
     adoption := adoption m; risk := risk m; sim := sim m |}.

Record TreatCosts := {
  base_materials : num;
  base_services : num;
  base_labour : num
}.

Record OtherAmounts := {
  base_annual : num;
  base_capital : num
}.

Definition no_costs : TreatCosts :=
  {| base_materials := NaN; base_services := NaN; base_labour := NaN |}.
Definition no_amounts : OtherAmounts :=
  {| base_annual := NaN; base_capital := NaN |}.

Record SimRecord := {
  discountRatePct : num;
  adoptionMultiplier : num;
  riskMultiplier : num;
  rec_npv : num;
  rec_bcr : num
}.

(** What the loop of [runSimulation] carries from one iteration to the
    next: the model as mutated so far, the generator state, and the three
    result arrays. *)
Record SimState := {
  st_model : Model;
  st_rng : Z;
  st_npvs : list num;
  st_bcrs : list num;
  st_details : list SimRecord
}.

(** [flag ? 1 + (rand() * 2 * varPct - varPct) : 1]; the generator is
    called only when the flag is set. *)
Definition shock (flag : bool) (varPct : num) (t : Z) : Z * num :=
  if flag then
    let '(t, r) := rand t in
    (t, one + (r * ofZ 2 * varPct - varPct))
  else (t, one).

Section Simulation.

Variable baseOutValues : list num.
Variable baseTreatCosts : list TreatCosts.
Variable baseOtherCosts : list OtherAmounts.
Variable varPct : num.

(** The body of the [for (let i = 0; i < N; i++)] loop. *)
Definition sim_iteration (s : SimState) : SimState :=
  let model := st_model s in
  let t := st_rng s in
  let '(t, r1) := rand t in
  let '(t, r2) := rand t in
  let '(t, r3) := rand t in
  let disc :=
    triangular r1 (discLow (time model)) (discBase (time model))
               (discHigh (time model)) in
  let adoptMul :=
    clamp (triangular r2 (low (adoption model)) (base (adoption model))
                      (high (adoption model))) zero one in
  let risk_ :=
    clamp (triangular r3 (low (risk model)) (base (risk model))
                      (high (risk model))) zero one in
  let '(t, shockOutputs) := shock (varyOutputs (sim model)) varPct t in
  let '(t, shockTreatCosts) := shock (varyTreatCosts (sim model)) varPct t in
  let '(t, shockInputCosts) := shock (varyInputCosts (sim model)) varPct t in
  let model :=
    if varyOutputs (sim model) then
      with_outputs model
        (mapi (fun idx o =>
                 set_value o (arr_get idx baseOutValues * shockOutputs))
              (outputs model))
    else model in
  let model :=
    if varyTreatCosts (sim model) then
      with_treatments model
        (mapi (fun idx t =>
                 let b := nth idx baseTreatCosts no_costs in
                 set_costs t (base_materials b * shockTreatCosts)
                             (base_services b * shockTreatCosts)
                             (base_labour b * shockTreatCosts))
              (treatments model))
    else model in
  let model :=
    if varyInputCosts (sim model) then
      with_otherCosts model
        (mapi (fun idx c =>
                 let b := nth idx baseOtherCosts no_amounts in
                 set_amounts c (base_annual b * shockInputCosts)
                               (base_capital b * shockInputCosts))
              (otherCosts model))
    else model in
  let all := computeAll model disc adoptMul risk_ (bcrMode (sim model)) in
  {| st_model := model;
     st_rng := t;
     st_npvs := st_npvs s ++ [npv all];
     st_bcrs := st_bcrs s ++ [bcr all];
     st_details :=
       st_details s ++
       [ {| discountRatePct := disc; adoptionMultiplier := adoptMul;
            riskMultiplier := risk_; rec_npv := npv all;
            rec_bcr := bcr all |} ] |}.

(** The three [forEach] loops that follow the main loop. *)
Definition restore (model : Model) : Model :=
  let model :=
    with_outputs model
      (mapi (fun idx o => set_value o (arr_get idx baseOutValues))
            (outputs model)) in
  let model :=
    with_treatments model
      (mapi (fun idx t =>
               let b := nth idx baseTreatCosts no_costs in
               set_costs t (base_materials b) (base_services b)
                           (base_labour b))
            (treatments model)) in
  with_otherCosts model
    (mapi (fun idx c =>
             let b := nth idx baseOtherCosts no_amounts in
             set_amounts c (base_annual b) (base_capital b))
          (otherCosts model)).

End Simulation.

(** *** Summaries *)

Definition ofNat (k : nat) : num := ofZ (Z.of_nat k).

(** [clean.sort((a, b) => a - b)] on finite numbers. *)
Fixpoint insert_sorted (x : num) (l : list num) : list num :=
  match l with
  | [] => [x]
  | y :: r => if x <? y then x :: l else y :: insert_sorted x r
  end.

Definition sort_numeric (l : list num) : list num :=
  fold_right insert_sorted [] l.

Record Stats := {
  s_min : num;
  s_max : num;
  s_mean : num;
  s_median : num;
  s_probPos : num
}.

Definition summaryStats (arr : list num) : Stats :=
  let clean := filter isFinite arr in
  match clean with
  | [] => {| s_min := NaN; s_max := NaN; s_mean := NaN; s_median := NaN;
             s_probPos := NaN |}
  | _ =>
      let clean := sort_numeric clean in
      let len := List.length clean in
      let mid := Nat.div len 2 in
      {| s_min := arr_get 0 clean;
         s_max := arr_get (len - 1) clean;
         s_mean := fold_left add clean zero / ofNat len;
         s_median :=
           if Nat.even len
           then (arr_get (mid - 1) clean + arr_get mid clean) / ofZ 2
           else arr_get mid clean;
         s_probPos :=
           ofNat (List.length (filter (fun v => v >? zero) clean))
           / ofNat len |}
  end.

(** [bcrs.filter(v => isFinite(v) && v > x).length / bcrs.length || 0]. *)
Definition probBcrGt (x : num) (bcrs : list num) : num :=
  por (ofNat (List.length
                (filter (fun v => isFinite v && (v >? x)) bcrs))
       / ofNat (List.length bcrs))
      zero.

Record SimOutput := {
  out_npvs : list num;
  out_bcrs : list num;
  out_details : list SimRecord;
  npvStats : Stats;
  bcrStats : Stats;
  probBcrGt1 : num;
  probBcrGtTarget : num
}.

Inductive outcome : Type :=
| Thrown_RangeError
| Returned (o : SimOutput).

(** [new Array(x)] accepts a number that is an integer in
    [0, 2^32 - 1] and throws a [RangeError] on any other. *)
Definition array_length (x : num) : option nat :=
  match x with
  | Fin q =>
      if (Qden q =? 1)%positive && (0 <=? Qnum q)%Z && (Qnum q <? two32)%Z
      then Some (Z.to_nat (Qnum q))
      else None
  | _ => None
  end.

(** [runSimulation]: the model it leaves behind and how it ends.
    [random] is the value [Math.random()] yields if [rng] asks for it.
    The result arrays, which the source stores under [model.sim], and the
    summaries, which it writes to the page, are returned; the status
    line, the toast and the histograms are left out. *)
Definition runSimulation (model : Model) (random : num) : Model * outcome :=
  let N := Math_max (ofZ 100) (por (n (sim model)) (ofZ 1000)) in
  let t := rng (seed (sim model)) random in
  match array_length N with
  | None => (model, Thrown_RangeError)
  | Some iterations =>
      let varPct := or0 (variationPct (sim model)) / ofZ 100 in
      let baseOutValues := map (fun o => or0 (out_value o)) (outputs model) in
      let baseTreatCosts :=
        map (fun t => {| base_materials := or0 (materialsCost t);
                         base_services := or0 (servicesCost t);
                         base_labour := or0 (labourCost t) |})
            (treatments model) in
      let baseOtherCosts :=
        map (fun c => {| base_annual := or0 (annual c);
                         base_capital := or0 (capital c) |})
            (otherCosts model) in
      let final :=
        Nat.iter iterations
          (sim_iteration baseOutValues baseTreatCosts baseOtherCosts varPct)
          {| st_model := model; st_rng := t; st_npvs := []; st_bcrs := [];
             st_details := [] |} in
      let model :=
        restore baseOutValues baseTreatCosts baseOtherCosts
                (st_model final) in
      let npvs := st_npvs final in
      let bcrs := st_bcrs final in
      let target := or0 (targetBCR (sim model)) in
      (model,
       Returned
         {| out_npvs := npvs;
            out_bcrs := bcrs;
            out_details := st_details final;
            npvStats := summaryStats npvs;
            bcrStats := summaryStats bcrs;
            probBcrGt1 := probBcrGt one bcrs;
            probBcrGtTarget := probBcrGt target bcrs |})
  end.

End MathLib.

(** *** Per-treatment metrics *)

(** [Math.pow(x, -n)] for a natural number [n]: the reciprocal of the
    [n]-th power, [Infinity] at zero. *)
Definition pow_neg (x : num) (n : nat) : num := one / npow x n.

Definition annuityFactor (N : nat) (rPct : num) : num :=
  let r := rPct / ofZ 100 in
  if r =? zero then ofNat N else (one - pow_neg (one + r) N) / r.

Record TreatmentMetrics := {
  t_pvBen : num;
  t_pvCost : num;
  t_bcr : num;
  t_npv : num;
  t_irrVal : num;
  t_mirrVal : num;
  t_roi : num;
  t_gm : num;
  t_gpm : num;
  t_pb : option nat
}.

Section PerTreatment.

Variable pow_frac : num -> num -> num.
Variable model : Model.

(** [annualBen], [annualCost] and [cf] of [computeSingleTreatmentMetrics];
    [cf] is [-cap] followed by [years] copies of the annual margin. *)
Definition treatment_annualBen (t : Treatment) (adoptMul risk : num) : num :=
  let adopt := clamp adoptMul zero one in
  let area := or0 (area t) in
  valuePerHa model t * area * (one - clamp risk zero one) * adopt.

Definition treatment_annualCost (t : Treatment) : num :=
  let area := or0 (area t) in
  annualCostPerHa t * area.

Definition treatment_cf (t : Treatment) (years : nat) (adoptMul risk : num)
    : list num :=
  neg (or0 (capitalCost t))
  :: repeat (treatment_annualBen t adoptMul risk - treatment_annualCost t)
            years.

Definition computeSingleTreatmentMetrics (t : Treatment) (rate : num)
    (years : nat) (adoptMul risk : num) : TreatmentMetrics :=
  let annualBen := treatment_annualBen t adoptMul risk in
  let annualCost := treatment_annualCost t in
  let cap := or0 (capitalCost t) in
  let pvBen := annualBen * annuityFactor years rate in
  let pvCost := cap + annualCost * annuityFactor years rate in
  let bcr := if pvCost >? zero then pvBen / pvCost else NaN in
  let npv := pvBen - pvCost in
  let cf := treatment_cf t years adoptMul risk in
  let irrVal := irr cf in
  let mirrVal :=
    mirr pow_frac cf (mirrFinance (time model)) (mirrReinvest (time model)) in
  let roi := if pvCost >? zero then (npv / pvCost) * ofZ 100 else NaN in
  let gm := annualBen - annualCost in
  let gpm := if annualBen >? zero then (gm / annualBen) * ofZ 100 else NaN in
  let pb := payback cf rate in
  {| t_pvBen := pvBen; t_pvCost := pvCost; t_bcr := bcr; t_npv := npv;
     t_irrVal := irrVal; t_mirrVal := mirrVal; t_roi := roi; t_gm := gm;
     t_gpm := gpm; t_pb := pb |}.

End PerTreatment.

(** *** Time projections *)

Definition horizons : list nat := [5; 10; 15; 20; 25]%nat.

Record Projection := {
  p_h : nat;
  p_pvB : num;
  p_pvC : num;
  p_npv : num;
  p_bcr : num
}.

(** The table rows of [renderTimeProjections], one per horizon that is
    used; [slice(0, h + 1)] keeps the first [h + 1] entries.  The chart
    drawn from the rows is left out. *)
Definition renderTimeProjections (model : Model)
    (benefitByYear costByYear : list num) (rate : num) : list Projection :=
  let maxYears := years (time model) in
  flat_map
    (fun H =>
       let h := Nat.min H maxYears in
       if (h <=? 0)%nat then [] else
       let b := firstn (h + 1) benefitByYear in
       let c := firstn (h + 1) costByYear in
       let pvB := presentValue b rate in
       let pvC := presentValue c rate in
       let npv := pvB - pvC in
       let bcr := if pvC >? zero then pvB / pvC else NaN in
       [ {| p_h := h; p_pvB := pvB; p_pvC := pvC; p_npv := npv;
            p_bcr := bcr |} ])
    horizons.

(** *** Histogram bins *)

Fixpoint incr_nth (i : nat) (counts : list nat) : list nat :=
  match counts, i with
  | [], _ => []
  | c :: r, O => S c :: r
  | c :: r, S k => c :: incr_nth k r
  end.

(** [counts[idx]++]: an element is incremented when [idx] is an index of
    the array; any other number names a property that is no element. *)
Definition incr_at (idx : num) (counts : list nat) : list nat :=
  match idx with
  | Fin q =>
      if (Qden q =? 1)%positive && (0 <=? Qnum q)%Z
      then incr_nth (Z.to_nat (Qnum q)) counts
      else counts
  | _ => counts
  end.

(** The bin of one value. *)
Definition bin_index (bins : nat) (min binWidth v : num) : num :=
  let idx := Math_floor ((v - min) / binWidth) in
  let idx := if idx <? zero then zero else idx in
  if idx >=? ofNat bins then ofNat bins - one else idx.

(** The counting part of [drawHistogram]: [None] when it returns before
    the bins are filled (no finite value, or a single distinct value).
    The drawing on the canvas is left out. *)
Definition drawHistogram (data : list num) (bins : nat) : option (list nat) :=
  let clean := filter isFinite data in
  match clean with
  | [] => None
  | _ =>
      let min := fold_left Math_min clean PInf in
      let max := fold_left Math_max clean NInf in
      if min =? max then None else
      let counts := repeat O bins in
      let binWidth := (max - min) / ofNat bins in
      Some (fold_left (fun counts v => incr_at (bin_index bins min binWidth v)
                                               counts)
                      clean counts)
  end.

(** *** Text helpers *)

Definition dquote : ascii := ascii_of_nat 34.

(** The replacement [esc] makes for one character. *)
Definition esc_char (c : ascii) : string :=
  if Ascii.eqb c "&" then "&amp;"
  else if Ascii.eqb c "<" then "&lt;"
  else if Ascii.eqb c ">" then "&gt;"
  else if Ascii.eqb c dquote then "&quot;"
  else if Ascii.eqb c "'" then "&#39;"
  else String c "".

Fixpoint esc_string (s : string) : string :=
  match s with
  | EmptyString => EmptyString
  | String c r => esc_char c ++ esc_string r
  end.

(** [esc]; [None] is an argument that is [null] or [undefined]. *)
Definition esc (s : option string) : string :=
  match s with
  | None => ""
  | Some s => esc_string s
  end.

Definition is_slug_char (c : ascii) : bool :=
  let n := nat_of_ascii c in
  ((97 <=? n)%nat && (n <=? 122)%nat) || ((48 <=? n)%nat && (n <=? 57)%nat).

(** [s.replace(/[^a-z0-9]+/g, "_")]: every maximal run of other
    characters becomes one underscore; [run] tells that the character
    before belongs to such a run. *)
Fixpoint replace_runs (run : bool) (s : string) : string :=
  match s with
  | EmptyString => EmptyString
  | String c r =>
      if is_slug_char c then String c (replace_runs false r)
      else if run then replace_runs true r
      else String "_" (replace_runs true r)
  end.

(** [s.replace(/^_+|_+$/g, "")]: the underscores at the start, then
    those at the end. *)
Fixpoint strip_leading (s : string) : string :=
  match s with
  | EmptyString => EmptyString
  | String c r => if Ascii.eqb c "_" then strip_leading r else s
  end.

Fixpoint strip_trailing (s : string) : string :=
  match s with
  | EmptyString => EmptyString
  | String c r =>
      match strip_trailing r with
      | EmptyString => if Ascii.eqb c "_" then EmptyString else String c ""
      | r' => String c r'
      end
  end.

(** [s.replace(/^_|_$/g, "")]: at most one underscore at each end. *)
Definition drop_first (s : string) : string :=
  match s with
  | String c r => if Ascii.eqb c "_" then r else s
  | EmptyString => EmptyString
  end.

Fixpoint drop_last (s : string) : string :=
  match s with
  | EmptyString => EmptyString
  | String c EmptyString => if Ascii.eqb c "_" then EmptyString else s
  | String c r => String c (drop_last r)
  end.

(** [slugifyTreatmentName] and [slug] on ASCII text; for [slug] an empty
    name reads as "project". *)
Definition slugifyTreatmentName (name : string) : string :=
  strip_trailing (strip_leading (replace_runs false (toLowerCase name))).

Definition slug (s : string) : string :=
  let s := if String.eqb s "" then "project" else s in
  drop_last (drop_first (replace_runs false (toLowerCase s))).

(** A project for experiments: one treatment on one hectare, one output
    worth 100 per hectare, 40 of materials, a one-year horizon. *)
Definition unit_model : Model :=
  {| time := {| startYear := 2025; years := 1; discBase := ofZ 7;
                discLow := ofZ 4; discHigh := ofZ 10;
                mirrFinance := ofZ 6; mirrReinvest := ofZ 4 |};
     outputs := [ {| out_id := "yield"; out_value := ofZ 100 |} ];
     treatments := [ {| area := ofZ 1; deltas := [("yield", ofZ 1)];
                        materialsCost := ofZ 40; servicesCost := ofZ 0;
                        labourCost := ofZ 0; capitalCost := ofZ 0;
                        constrained := true |} ];
     benefits := [];
     otherCosts := [];
     adoption := {| base := ofQ (9 # 10); low := ofQ (6 # 10); high := one |};
     risk := {| base := ofQ (15 # 100); low := ofQ (5 # 100);
                high := ofQ (3 # 10) |};
     sim := {| n := ofZ 1000; targetBCR := ofZ 2; bcrMode := "all";
               seed := None; variationPct := ofZ 20; varyOutputs := true;
               varyTreatCosts := true; varyInputCosts := false |} |}.

(** *** Vocabulary of the statements *)

(** **** One-off benefit items *)

Definition is_once (b : Benefit) : bool :=
  String.eqb (frequency b) "Once" || String.eqb (toUpperCase (category b)) "C6".

(** The index at which the lump of a one-off item is posted. *)
Definition once_index (baseYear : Z) (b : Benefit) : Z :=
  (year_or (b_year b) (year_or (b_startYear b) baseYear) - baseYear + 1)%Z.

(** The lump: the amount scaled by the adoption and risk factors of a
    linked item. *)
Definition once_lump (adoptMul risk : num) (b : Benefit) : num :=
  or0 (annualAmount b)
  * (if linkAdoption b then clamp adoptMul zero one else one)
  * (if linkRisk b then one - clamp risk zero one else one).

(** A lump of 100 due in the base year 2025, linked to nothing. *)
Definition lump_2025 : Benefit :=
  {| category := "C6"; frequency := "Once"; b_startYear := 2025;
     b_endYear := 2025; b_year := 2025; unitValue := zero; quantity := zero;
     abatement := zero; annualAmount := ofZ 100; growthPct := zero;
     linkAdoption := false; linkRisk := false; p0 := zero; p1 := zero;
     consequence := zero |}.

Definition with_benefits (m : Model) (bs : list Benefit) : Model :=
  {| time := time m; outputs := outputs m; treatments := treatments m;
     benefits := bs; otherCosts := otherCosts m;
     adoption := adoption m; risk := risk m; sim := sim m |}.

(** **** The IRR search as the specification words it *)

Definition same_sign (a b : num) : bool :=
  ((a >? zero) && (b >? zero)) || ((a <? zero) && (b <? zero)).

(** The first index in [from, from + count) at which [p] holds. *)
Fixpoint first_index (p : nat -> bool) (from count : nat) : option nat :=
  match count with
  | O => None
  | S c => if p from then Some from else first_index p (S from) c
  end.

(** The upper bound after [k] multiplications by 1.5. *)
Definition irr_hi_after (k : nat) : num := irr_hi * npow (ofQ (3 # 2)) k.

Definition midpoint (b : num * num) : num := (fst b + snd b) / ofZ 2.

(** One bisection step: keep the half on which the NPV changes sign. *)
Definition halve (cf : list num) (b : num * num) : num * num :=
  if npvAt cf (fst b) * npvAt cf (midpoint b) <=? zero
  then (fst b, midpoint b) else (midpoint b, snd b).

Fixpoint bracket_after (cf : list num) (b : num * num) (j : nat)
    : num * num :=
  match j with
  | O => b
  | S j' => bracket_after cf (halve cf b) j'
  end.

(** The midpoint reached after [j] steps is within the tolerance. *)
Definition converged (cf : list num) (b : num * num) (j : nat) : bool :=
  Math_abs (npvAt cf (midpoint (bracket_after cf b j))) <? irr_tol.

Definition irr_spec (cf : list num) : num :=
  if forallb (fun v => v >=? zero) cf || forallb (fun v => v <=? zero) cf
  then NaN
  else
    match first_index
            (fun k => negb (same_sign (npvAt cf irr_lo)
                                      (npvAt cf (irr_hi_after k)))) 0 21 with
    | None => NaN
    | Some k =>
        let b := (irr_lo, irr_hi_after k) in
        let j := match first_index (converged cf b) 0 80 with
                 | Some j => j
                 | None => 80%nat
                 end in
        midpoint (bracket_after cf b j) * ofZ 100
    end.

(** **** What a simulation run may change *)

Definition clean_output (o : Output) : Output :=
  set_value o (or0 (out_value o)).

Definition clean_treatment (t : Treatment) : Treatment :=
  set_costs t (or0 (materialsCost t)) (or0 (servicesCost t))
            (or0 (labourCost t)).

Definition clean_cost (c : OtherCost) : OtherCost :=
  set_amounts c (or0 (annual c)) (or0 (capital c)).

(** The model with every perturbable amount [x] replaced by
    [Number(x) || 0]. *)
Definition snapshot_reading (m : Model) : Model :=
  {| time := time m;
     outputs := map clean_output (outputs m);
     treatments := map clean_treatment (treatments m);
     benefits := benefits m;
     otherCosts := map clean_cost (otherCosts m);
     adoption := adoption m; risk := risk m; sim := sim m |}.

Definition amounts_are_numbers (m : Model) : Prop :=
  Forall (fun o => out_value o <> NaN) (outputs m) /\
  Forall (fun t => materialsCost t <> NaN /\ servicesCost t <> NaN
                   /\ labourCost t <> NaN) (treatments m) /\
  Forall (fun c => annual c <> NaN /\ capital c <> NaN) (otherCosts m).

(** The fields of a treatment and of a cost item that the simulation
    never writes. *)
Definition frame_t (t : Treatment) :=
  (area t, deltas t, capitalCost t, constrained t).

Definition frame_c (c : OtherCost) :=
  (c_type c, c_startYear c, c_endYear c, c_year c, c_constrained c).

Record same_frame (m m' : Model) : Prop := {
  sf_time : time m' = time m;
  sf_benefits : benefits m' = benefits m;
  sf_adoption : adoption m' = adoption m;
  sf_risk : risk m' = risk m;
  sf_sim : sim m' = sim m;
  sf_outputs : map out_id (outputs m') = map out_id (outputs m);
  sf_treatments : map frame_t (treatments m') = map frame_t (treatments m);
  sf_costs : map frame_c (otherCosts m') = map frame_c (otherCosts m)
}.

(** [N] of [runSimulation]. *)
Definition run_count (x : num) : num :=
  Math_max (ofZ 100) (por x (ofZ 1000)).

(** The settings handlers [model.sim.n = +t.value] and
    [model.sim.seed = t.value ? +t.value : null]. *)
Definition with_run_count (m : Model) (x : num) : Model :=
  {| time := time m; outputs := outputs m; treatments := treatments m;
     benefits := benefits m; otherCosts := otherCosts m;
     adoption := adoption m; risk := risk m;
     sim := {| n := x; targetBCR := targetBCR (sim m);
               bcrMode := bcrMode (sim m); seed := seed (sim m);
               variationPct := variationPct (sim m);
               varyOutputs := varyOutputs (sim m);
               varyTreatCosts := varyTreatCosts (sim m);
               varyInputCosts := varyInputCosts (sim m) |} |}.

Definition with_seed (m : Model) (s : option num) : Model :=
  {| time := time m; outputs := outputs m; treatments := treatments m;
     benefits := benefits m; otherCosts := otherCosts m;
     adoption := adoption m; risk := risk m;
     sim := {| n := n (sim m); targetBCR := targetBCR (sim m);
               bcrMode := bcrMode (sim m); seed := s;
               variationPct := variationPct (sim m);
               varyOutputs := varyOutputs (sim m);
               varyTreatCosts := varyTreatCosts (sim m);
               varyInputCosts := varyInputCosts (sim m) |} |}.

(** **** Projects used as examples *)

(** Two treatments on a one-year horizon: a constrained one earning 50
    for 10, and an unconstrained one costing 100. *)
Definition two_cost_model : Model :=
  {| time := time unit_model;
     outputs := [ {| out_id := "yield"; out_value := ofZ 50 |} ];
     treatments :=
       [ {| area := ofZ 1; deltas := [("yield", ofZ 1)];
            materialsCost := ofZ 10; servicesCost := ofZ 0;
            labourCost := ofZ 0; capitalCost := ofZ 0;
            constrained := true |};
         {| area := ofZ 1; deltas := [];
            materialsCost := ofZ 100; servicesCost := ofZ 0;
            labourCost := ofZ 0; capitalCost := ofZ 0;
            constrained := false |} ];
     benefits := []; otherCosts := [];
     adoption := adoption unit_model; risk := risk unit_model;
     sim := sim unit_model |}.

(** The unit project with an output whose value is not a number. *)
Definition nan_model : Model :=
  with_outputs unit_model [ {| out_id := "yield"; out_value := NaN |} ].

(** The treatment of the unit project, and the unit project with that
    treatment left out of the constrained costs. *)
Definition unit_treatment : Treatment :=
  {| area := ofZ 1; deltas := [("yield", ofZ 1)];
     materialsCost := ofZ 40; servicesCost := ofZ 0;
     labourCost := ofZ 0; capitalCost := ofZ 0;
     constrained := true |}.

Definition open_model : Model :=
  with_treatments unit_model
    [ {| area := ofZ 1; deltas := [("yield", ofZ 1)];
         materialsCost := ofZ 40; servicesCost := ofZ 0;
         labourCost := ofZ 0; capitalCost := ofZ 0;
         constrained := false |} ].

(** **** Series and discounting *)

(** A series whose entries are all [0]. *)
Definition all_zero (l : list num) : Prop := Forall (fun x => x = zero) l.

(** The four arrays the other-cost loop carries have [k] entries. *)
Definition other_lengths (k : nat) (o : OtherTotals) : Prop :=
  List.length (costByYear_ o) = k /\
  List.length (constrainedCostByYear_ o) = k /\
  List.length (otherAnnualByYear o) = k /\
  List.length (otherConstrAnnualByYear o) = k.

(** The constrained totals of the other-cost loop equal the totals. *)
Definition other_agree (o : OtherTotals) : Prop :=
  constrainedCostByYear_ o = costByYear_ o /\
  otherConstrAnnualByYear o = otherAnnualByYear o /\
  otherConstrCapitalY0 o = otherCapitalY0 o.

(** The constrained totals of the other-cost loop. *)
Definition other_constr (o : OtherTotals) :=
  (constrainedCostByYear_ o, otherConstrAnnualByYear o, otherConstrCapitalY0 o).

(** The present value of the flows of years 0 to [t]. *)
Definition discounted_so_far (cf : list num) (ratePct : num) (t : nat) : num :=
  presentValue (firstn (S t) cf) ratePct.

(** The sum of [1 / b^t] for [t] from [t0] to [t0 + n - 1]. *)
Fixpoint gsum (b : Qc) (t0 n : nat) : Qc :=
  match n with
  | O => 0
  | S k => 1 / b ^ t0 + gsum b (S t0) k
  end.

(** **** Ranges *)

Definition num_le (a b : num) : Prop := (a <=? b) = true.

Definition in_unit (x : num) : bool := (zero <=? x) && (x <=? one).

Definition in_unit_or_NaN (x : num) : bool := isNaN x || in_unit x.

(** The multipliers a simulation record reports are NaN or lie in
    [0, 1]. *)
Definition record_ok (d : SimRecord) : Prop :=
  in_unit_or_NaN (adoptionMultiplier d) = true /\
  in_unit_or_NaN (riskMultiplier d) = true.

(** The result arrays of a run are the columns of its records. *)
Definition log_ok (s : SimState) : Prop :=
  st_npvs s = map rec_npv (st_details s) /\
  st_bcrs s = map rec_bcr (st_details s) /\
  Forall record_ok (st_details s).

(** **** Text *)

Definition all_chars (p : ascii -> bool) (s : string) : bool :=
  forallb p (list_ascii_of_string s).

(** The characters that open or close markup or an attribute value. *)
Definition is_markup (c : ascii) : bool :=
  Ascii.eqb c "<" || Ascii.eqb c ">" || Ascii.eqb c dquote || Ascii.eqb c "'".

Definition is_special (c : ascii) : bool :=
  Ascii.eqb c "&" || is_markup c.

Definition inert (s : string) : bool :=
  all_chars (fun c => negb (is_markup c)) s.

Definition is_id_char (c : ascii) : bool :=
  is_slug_char c || Ascii.eqb c "_".

Definition first_char (s : string) : option ascii :=
  match s with String c _ => Some c | EmptyString => None end.

Fixpoint last_char (s : string) : option ascii :=
  match s with
  | EmptyString => None
  | String c EmptyString => Some c
  | String _ r => last_char r
  end.

(** No two underscores in a row. *)
Fixpoint no_double (s : string) : bool :=
  match s with
  | String c1 r =>
      match r with
      | String c2 _ => negb (Ascii.eqb c1 "_" && Ascii.eqb c2 "_")
      | EmptyString => true
      end && no_double r
  | EmptyString => true
  end.

End Engine.

(* ================================================================= *)
(** ** Facts about numbers *)

Local Open Scope string_scope.
Local Open Scope num_scope.

Lemma qeqb_eq (a b : Qc) : qeqb a b = true <-> a = b.
Proof.
  unfold qeqb. rewrite Qceq_alt. destruct (a ?= b)%Qc; split; congruence.
Qed.

Lemma qltb_lt (a b : Qc) : qltb a b = true <-> (a < b)%Qc.
Proof.
  unfold qltb. rewrite Qclt_alt. destruct (a ?= b)%Qc; split; congruence.
Qed.

Lemma qleb_le (a b : Qc) : qleb a b = true <-> (a <= b)%Qc.
Proof.
  unfold qleb. rewrite Qcle_alt. destruct (a ?= b)%Qc; split; congruence.
Qed.

Lemma num_eqb_eq (x y : num) : num_eqb x y = true -> x = y.
Proof.
  destruct x, y; simpl; try congruence.
  intros H. apply qeqb_eq in H. now subst.
Qed.

Lemma num_eqb_neq (x y : num) : num_eqb x y = false -> x <> y.
Proof.
  intros H E. subst y. destruct x; simpl in H; try discriminate.
  assert (qeqb q q = true) by now apply qeqb_eq. congruence.
Qed.

(** Closed equations and disequations between numbers, by evaluation. *)
Ltac num_decide :=
  first [ apply num_eqb_eq; vm_compute; reflexivity
        | apply num_eqb_neq; vm_compute; reflexivity ].

Lemma sgn_cases (a : Qc) :
  (sgn a = Lt /\ (a < Q2Qc 0)%Qc) \/ (sgn a = Eq /\ a = Q2Qc 0)
  \/ (sgn a = Gt /\ (Q2Qc 0 < a)%Qc).
Proof.
  unfold sgn. destruct (a ?= Q2Qc 0)%Qc eqn:E.
  - right; left. split; [reflexivity|]. now apply Qceq_alt.
  - left. split; [reflexivity|]. now apply Qclt_alt.
  - right; right. split; [reflexivity|]. now apply Qcgt_alt in E.
Qed.

Lemma sgn_lt (a : Qc) : (a < Q2Qc 0)%Qc -> sgn a = Lt.
Proof. intros H. unfold sgn. now apply Qclt_alt. Qed.

Lemma sgn_gt (a : Qc) : (Q2Qc 0 < a)%Qc -> sgn a = Gt.
Proof. intros H. unfold sgn. now apply Qcgt_alt. Qed.

Lemma sgn_eq (a : Qc) : a = Q2Qc 0 -> sgn a = Eq.
Proof. intros H. unfold sgn. now apply Qceq_alt. Qed.

Lemma qeqb0_sgn (a : Qc) :
  qeqb a (Q2Qc 0) = match sgn a with Eq => true | _ => false end.
Proof. reflexivity. Qed.

Lemma qltb0_sgn (a : Qc) :
  qltb a (Q2Qc 0) = match sgn a with Lt => true | _ => false end.
Proof. reflexivity. Qed.

Lemma qleb0_sgn (a : Qc) :
  qleb a (Q2Qc 0) = match sgn a with Gt => false | _ => true end.
Proof. reflexivity. Qed.

Lemma qgtb0_sgn (a : Qc) :
  qltb (Q2Qc 0) a = match sgn a with Gt => true | _ => false end.
Proof.
  unfold qltb, sgn, Qccompare. rewrite <- (Qcompare_antisym a (Q2Qc 0)).
  destruct (a ?= Q2Qc 0)%Q; reflexivity.
Qed.

Lemma qgeb0_sgn (a : Qc) :
  qleb (Q2Qc 0) a = match sgn a with Lt => false | _ => true end.
Proof.
  unfold qleb, sgn, Qccompare. rewrite <- (Qcompare_antisym a (Q2Qc 0)).
  destruct (a ?= Q2Qc 0)%Q; reflexivity.
Qed.

Lemma Qc_pos_mul (x y : Qc) :
  (Q2Qc 0 < x)%Qc -> (Q2Qc 0 < y)%Qc -> (Q2Qc 0 < x * y)%Qc.
Proof.
  intros Hx Hy. replace (Q2Qc 0) with (Q2Qc 0 * y)%Qc by ring.
  now apply Qcmult_lt_compat_r.
Qed.

Lemma Qc_neg_opp (x : Qc) : (x < Q2Qc 0)%Qc <-> (Q2Qc 0 < - x)%Qc.
Proof.
  rewrite Qclt_minus_iff.
  now replace (Q2Qc 0 + - x)%Qc with (- x)%Qc by ring.
Qed.

Lemma sgn_mul (a b : Qc) :
  sgn (a * b) =
  match sgn a, sgn b with
  | Eq, _ | _, Eq => Eq
  | Lt, Lt | Gt, Gt => Gt
  | _, _ => Lt
  end.
Proof.
  destruct (sgn_cases a) as [[Ea Ha]|[[Ea Ha]|[Ea Ha]]]; rewrite Ea;
  destruct (sgn_cases b) as [[Eb Hb]|[[Eb Hb]|[Eb Hb]]]; rewrite ?Eb;
    try (apply sgn_eq; subst; ring).
  - apply sgn_gt. replace (a * b)%Qc with ((- a) * (- b))%Qc by ring.
    apply Qc_pos_mul; now apply Qc_neg_opp.
  - apply sgn_lt. apply Qc_neg_opp.
    replace (- (a * b))%Qc with ((- a) * b)%Qc by ring.
    apply Qc_pos_mul; [now apply Qc_neg_opp | assumption].
  - apply sgn_lt. apply Qc_neg_opp.
    replace (- (a * b))%Qc with (a * (- b))%Qc by ring.
    apply Qc_pos_mul; [assumption | now apply Qc_neg_opp].
  - apply sgn_gt. now apply Qc_pos_mul.
Qed.

Lemma sgn_opp (a : Qc) : sgn (- a) = CompOpp (sgn a).
Proof.
  destruct (sgn_cases a) as [[E H]|[[E H]|[E H]]]; rewrite E; simpl.
  - apply sgn_gt. now apply Qc_neg_opp.
  - apply sgn_eq. subst. ring.
  - apply sgn_lt. apply Qc_neg_opp. now replace (- - a)%Qc with a by ring.
Qed.

(** Case analysis on the signs that occur in the goal. *)
Ltac by_signs :=
  repeat match goal with |- context [sgn ?x] => destruct (sgn x) end;
  reflexivity.

Lemma or0_number (x : num) : x <> NaN -> or0 x = x.
Proof.
  unfold or0, por. destruct x as [q| | |]; simpl; auto; try congruence.
  intros _. destruct (qeqb q (Q2Qc 0)) eqn:E; simpl; auto.
  apply qeqb_eq in E. subst. reflexivity.
Qed.

(** ** Facts about arrays *)

Lemma arr_add_length (i : nat) (v : num) (a : list num) :
  List.length (arr_add i v a) = List.length a.
Proof.
  revert i. induction a as [|x a IH]; intros [|i]; simpl; auto.
Qed.

Lemma arr_get_arr_add (i : nat) (v : num) (a : list num) (j : nat) :
  (i < List.length a)%nat ->
  arr_get j (arr_add i v a) =
  if (j =? i)%nat then arr_get j a + v else arr_get j a.
Proof.
  unfold arr_get. revert i j.
  induction a as [|x a IH]; intros i j H; simpl in H; [lia|].
  destruct i as [|i], j as [|j]; simpl; auto.
  apply IH. lia.
Qed.

Lemma map_id_on {A : Type} (f : A -> A) (l : list A) :
  Forall (fun x => f x = x) l -> map f l = l.
Proof. induction 1; simpl; congruence. Qed.

(* ================================================================= *)
(** ** The trial comparison: which treatment is the control *)

Module PlotFacts.

Import Plot.

Lemma upsert_names (treatmentName : string) (f : Summary -> Summary)
    (m : list Summary) :
  (forall t, s_name (f t) = s_name t) ->
  map s_name (upsert treatmentName f m) =
  if existsb (fun t => String.eqb (s_name t) treatmentName) m
  then map s_name m
  else (map s_name m ++ [treatmentName])%list.
Proof.
  intros Hf. unfold upsert. destruct (existsb _ m).
  - rewrite map_map. apply map_ext. intros t.
    destruct (String.eqb _ _); auto.
  - rewrite map_app. simpl. rewrite Hf. reflexivity.
Qed.

Lemma upsert_In (treatmentName : string) (f : Summary -> Summary)
    (m : list Summary) :
  (forall t, s_name (f t) = s_name t) ->
  In treatmentName (map s_name (upsert treatmentName f m)).
Proof.
  intros Hf. rewrite upsert_names by auto.
  destruct (existsb _ m) eqn:E.
  - apply existsb_exists in E. destruct E as [t [Ht E]].
    apply String.eqb_eq in E. subst. now apply in_map.
  - apply in_or_app. right. now left.
Qed.

Lemma upsert_incl (treatmentName : string) (f : Summary -> Summary)
    (m : list Summary) (x : string) :
  (forall t, s_name (f t) = s_name t) ->
  In x (map s_name m) -> In x (map s_name (upsert treatmentName f m)).
Proof.
  intros Hf H. rewrite upsert_names by auto.
  destruct (existsb _ m); auto. apply in_or_app. now left.
Qed.

(** The flag recorded by the loop always names a treatment of the map. *)
Lemma aggregate_row_inv (acc : list Summary * option string) (row : Row) :
  (forall c, snd acc = Some c -> In c (map s_name (fst acc))) ->
  forall c, snd (aggregate_row acc row) = Some c ->
            In c (map s_name (fst (aggregate_row acc row))).
Proof.
  destruct acc as [m fl]. unfold aggregate_row. simpl.
  intros H. destruct (String.eqb _ ""); simpl; auto.
  intros c. destruct (parseBoolean _).
  - intros E. inversion E. subst. now apply upsert_In.
  - intros E. apply upsert_incl; auto.
Qed.

Lemma aggregate_rows_inv (rs : list Row) :
  forall acc,
  (forall c, snd acc = Some c -> In c (map s_name (fst acc))) ->
  forall c, snd (fold_left aggregate_row rs acc) = Some c ->
            In c (map s_name (fst (fold_left aggregate_row rs acc))).
Proof.
  induction rs as [|r rs IH]; simpl; intros acc H; auto.
  apply IH. now apply aggregate_row_inv.
Qed.

Lemma aggregate_row_nonempty (acc : list Summary * option string)
    (row : Row) :
  fst acc <> [] \/ named row = true -> fst (aggregate_row acc row) <> [].
Proof.
  destruct acc as [m fl]. unfold aggregate_row, named. simpl.
  destruct (String.eqb _ ""); simpl.
  - intros [H|H]; auto. discriminate.
  - intros _ E.
    assert (H : In (trim (treatment_cell row))
                   (map s_name
                      (upsert (trim (treatment_cell row))
                         (add_row row (parseBoolean (control_cell row))) m)))
      by now apply upsert_In.
    rewrite E in H. contradiction.
Qed.

Lemma aggregate_rows_nonempty (rs : list Row) :
  forall acc,
  fst acc <> [] \/ existsb named rs = true ->
  fst (fold_left aggregate_row rs acc) <> [].
Proof.
  induction rs as [|r rs IH]; simpl; intros acc H.
  - destruct H; auto. discriminate.
  - apply IH. destruct (named r) eqn:E.
    + left. apply aggregate_row_nonempty. now right.
    + simpl in H. destruct H as [H|H]; auto.
      left. apply aggregate_row_nonempty. now left.
Qed.

(** [controlNameFromFlag] is the treatment of the last flagged row. *)
Lemma aggregate_rows_flag (rs : list Row) :
  forall acc,
  snd (fold_left aggregate_row rs acc) =
  fold_left
    (fun a r => if flagged r then Some (trim (treatment_cell r)) else a)
    rs (snd acc).
Proof.
  induction rs as [|r rs IH]; simpl; intros acc; auto.
  rewrite IH. f_equal. destruct acc as [m fl].
  unfold aggregate_row, flagged, named.
  destruct (String.eqb _ ""); reflexivity.
Qed.

Lemma insert_by_length (cmp : Result -> Result -> num) (x : Result)
    (l : list Result) :
  List.length (insert_by cmp x l) = S (List.length l).
Proof.
  induction l as [|y r IH]; [reflexivity|]. cbn [insert_by].
  destruct (cmp y x >? zero); cbn [List.length]; rewrite ?IH; reflexivity.
Qed.

Lemma insert_by_In (cmp : Result -> Result -> num) (x : Result)
    (l : list Result) (y : Result) :
  In y (insert_by cmp x l) <-> y = x \/ In y l.
Proof.
  induction l as [|z r IH]; cbn [insert_by].
  - simpl. intuition.
  - destruct (cmp z x >? zero); cbn [In]; rewrite ?IH; intuition.
Qed.

Lemma sort_by_fold (cmp : Result -> Result -> num) (l : list Result) :
  forall acc,
  let sorted := fold_left (fun sorted x => insert_by cmp x sorted) l acc in
  List.length sorted = (List.length l + List.length acc)%nat /\
  forall y, In y sorted <-> In y l \/ In y acc.
Proof.
  induction l as [|x l IH]; intros acc; cbn [fold_left List.length].
  - split; [reflexivity|]. simpl. intuition.
  - destruct (IH (insert_by cmp x acc)) as [I1 I2]. cbn zeta in *. split.
    + rewrite I1, insert_by_length. lia.
    + intros y. rewrite I2, insert_by_In. simpl. intuition.
Qed.

Lemma sort_by_length (cmp : Result -> Result -> num) (l : list Result) :
  List.length (sort_by cmp l) = List.length l.
Proof.
  unfold sort_by. destruct (sort_by_fold cmp l []) as [H _].
  cbn zeta in H. rewrite H. simpl. lia.
Qed.

Lemma sort_by_In (cmp : Result -> Result -> num) (l : list Result)
    (y : Result) :
  In y (sort_by cmp l) <-> In y l.
Proof.
  unfold sort_by. destruct (sort_by_fold cmp l []) as [_ H].
  cbn zeta in H. rewrite H. simpl. intuition.
Qed.

Lemma rank_from_length (l : list Result) :
  forall i, List.length (rank_from i l) = List.length l.
Proof. induction l; simpl; intros; auto. Qed.

Lemma rank_from_In (l : list Result) :
  forall i y, In y l -> exists k, In (with_rank k y) (rank_from i l).
Proof.
  induction l as [|x l IH]; simpl; intros i y H; [contradiction|].
  destruct H as [H|H].
  - subst. exists i. now left.
  - destruct (IH (S i) y H) as [k Hk]. exists k. now right.
Qed.

(** What [computeCBA] stores once a control name is set. *)
Lemma computeCBA_results (st : State) (c : string) :
  treatments st <> [] -> controlName st = Some c ->
  exists ctrl mk,
    (forall t, r_name (mk t) = name t
               /\ r_isControl (mk t) = String.eqb (name t) c) /\
    res_treatments (results (computeCBA st)) =
      rank_from 0
        (sort_by by_npv_desc
           (map (with_deltas ctrl) (map mk (treatments st)))).
Proof.
  intros Ht Hc. unfold computeCBA. rewrite Hc.
  destruct (treatments st) as [|t l] eqn:E; [congruence|].
  cbn [results res_treatments].
  eexists. eexists. split; [|reflexivity].
  intros t'. split; reflexivity.
Qed.

Lemma computeCBA_controlName (st : State) (c : string) :
  controlName st = Some c -> controlName (computeCBA st) = Some c.
Proof.
  intros Hc. unfold computeCBA. rewrite Hc.
  destruct (treatments st); auto.
Qed.

Lemma computeCBA_treatments (st : State) :
  treatments (computeCBA st) = treatments st.
Proof.
  unfold computeCBA. destruct (treatments st) eqn:E; auto.
  destruct (controlName st); auto.
Qed.

Lemma aggregate_state (h : string) (hs : list string) (r : Row)
    (rs : list Row) :
  let acc := fold_left aggregate_row (r :: rs) ([], None) in
  let st := aggregateTreatments (initial (h :: hs) (r :: rs)) in
  controlName st = decide_control (fst acc) (snd acc) /\
  map name (treatments st) = map s_name (fst acc).
Proof.
  intros acc st. subst st. unfold aggregateTreatments.
  cbn [headers rows initial].
  fold acc. destruct acc as [m fl]. cbn [controlName treatments fst snd].
  split; [reflexivity|]. rewrite map_map. reflexivity.
Qed.

Lemma find_by_name (f : string -> bool) (ts : list Treat)
    (m : list Summary) :
  map name ts = map s_name m ->
  match find (fun t => f (name t)) ts with
  | Some t => Some (name t) | None => None end =
  match find (fun t => f (s_name t)) m with
  | Some t => Some (s_name t) | None => None end.
Proof.
  revert m. induction ts as [|t ts IH]; intros [|s m] E; simpl in *;
    try discriminate; auto.
  injection E as E1 E2. rewrite <- E1.
  destruct (f (name t)); simpl; [congruence | now apply IH].
Qed.

Lemma decide_control_fallback (ts : list Treat) (m : list Summary)
    (fl : option string) :
  map name ts = map s_name m ->
  decide_control m fl =
  match fl with Some c => Some c | None => fallback_control ts end.
Proof.
  intros Hn. unfold decide_control, fallback_control.
  destruct fl as [c|]; [now destruct m|].
  pose proof (find_by_name (fun s => includes "control" (toLowerCase s))
                           ts m Hn) as E.
  destruct (find _ ts) as [t|] eqn:E1; destruct (find _ m) as [s|] eqn:E2;
    try discriminate; [now destruct m|].
  destruct m as [|s m], ts as [|t ts]; try discriminate; auto.
  simpl in Hn. injection Hn as Hn _. now rewrite Hn.
Qed.

(** C2, as the code has it: a dataset with at least one named treatment
    is always evaluated.  The control is the treatment of the last flagged
    row; when no row is flagged it is the first treatment whose name
    contains "control", else the first treatment.  The ranking has one
    entry per treatment and one of them is marked as the control. *)
Theorem control_defaults (hs : list string) (rs : list Row) :
  hs <> [] ->
  existsb named rs = true ->
  let st := evaluate hs rs in
  controlName st =
    match last_flagged rs with
    | Some c => Some c
    | None => fallback_control (treatments st)
    end /\
  (exists c r, controlName st = Some c /\
               In r (res_treatments (results st)) /\
               r_name r = c /\ r_isControl r = true) /\
  List.length (res_treatments (results st)) = List.length (treatments st) /\
  treatments st <> [].
Proof.
  intros Hh Hn st. subst st. unfold evaluate.
  destruct hs as [|h hs]; [congruence|].
  destruct rs as [|r0 rs0]; [discriminate|].
  destruct (aggregate_state h hs r0 rs0) as [Hc Hnames].
  set (rs := r0 :: rs0) in *.
  set (st := aggregateTreatments (initial (h :: hs) rs)) in *.
  pose proof (aggregate_rows_nonempty rs ([], None) (or_intror Hn)) as Hm.
  pose proof (aggregate_rows_inv rs ([], None)) as Hfl.
  pose proof (aggregate_rows_flag rs ([], None)) as Hlast.
  destruct (fold_left aggregate_row rs ([], None)) as [m fl].
  cbn [fst snd] in *. fold (last_flagged rs) in Hlast.
  rewrite (decide_control_fallback (treatments st) m fl Hnames) in Hc.
  assert (Hts : treatments st <> []).
  { intros E. rewrite E in Hnames. destruct m; [congruence|discriminate]. }
  assert (Hdec : exists c, controlName st = Some c /\ In c (map s_name m)).
  { rewrite Hc. destruct fl as [c|].
    - exists c. split; auto. apply Hfl; [discriminate|reflexivity].
    - rewrite <- Hnames. unfold fallback_control.
      destruct (find _ (treatments st)) as [t|] eqn:Ef.
      + exists (name t). split; auto. apply in_map.
        now apply find_some in Ef.
      + destruct (treatments st) as [|t ts]; [congruence|].
        exists (name t). split; auto. now left. }
  destruct Hdec as [c [Hdc Hin]].
  destruct (computeCBA_results st c Hts Hdc) as [ctrl [mk [Hmk Hres]]].
  rewrite Hres, computeCBA_treatments, (computeCBA_controlName st c Hdc).
  repeat split; auto.
  - rewrite <- Hdc, Hc, Hlast. reflexivity.
  - exists c.
    rewrite <- Hnames in Hin. apply in_map_iff in Hin.
    destruct Hin as [t [Ht Hin]].
    assert (H0 : In (with_deltas ctrl (mk t))
                    (sort_by by_npv_desc
                       (map (with_deltas ctrl) (map mk (treatments st))))).
    { apply sort_by_In. apply in_map. now apply in_map. }
    destruct (rank_from_In _ 0 _ H0) as [k Hk].
    eexists. split; [reflexivity|]. split; [exact Hk|].
    cbn [with_rank with_deltas r_name r_isControl].
    destruct (Hmk t) as [E1 E2]. rewrite E1, E2, Ht.
    split; auto. apply String.eqb_refl.
  - rewrite rank_from_length, sort_by_length, !length_map. reflexivity.
Qed.

Lemma control_defaults_witness :
  ["treatment_name"] <> [] /\
  existsb named unflagged_rows = true /\
  controlName (evaluate ["treatment_name"] unflagged_rows)
  = Some "Deep ripping".
Proof.
  split; [discriminate|]. split; [reflexivity|].
  destruct (control_defaults ["treatment_name"] unflagged_rows)
    as [H _]; [discriminate | reflexivity |].
  rewrite H. reflexivity.
Defined.

(** C2, as stated, fails: no row of [unflagged_rows] designates a control,
    yet the evaluation takes the first treatment as the control and ranks
    both treatments. *)
Lemma unflagged_dataset_is_ranked :
  existsb flagged unflagged_rows = false /\
  let st := evaluate ["treatment_name"] unflagged_rows in
  controlName st = Some "Deep ripping" /\
  map (fun r => (r_name r, r_isControl r, rank r))
      (res_treatments (results st))
  = [("Gypsum", false, 1%nat); ("Deep ripping", true, 2%nat)].
Proof.
  split; [reflexivity|]. split; vm_compute; reflexivity.
Qed.

End PlotFacts.

(* ================================================================= *)
(** ** The engine: evaluation of a scenario *)

Module EngineFacts.

Import Engine.

(** *** The worked scenario *)



(** *** BCR against NPV *)

Lemma qc_div_gt1 (b c : Qc) :
  (Q2Qc 0 < c)%Qc -> ((Q2Qc 1 < b / c)%Qc <-> (Q2Qc 0 < b - c)%Qc).
Proof.
  intros Hc. unfold Qclt in *.
  unfold Qcdiv, Qcminus, Qcmult, Qcinv, Qcplus, Qcopp.
  unfold Q2Qc in *. cbn [this] in *. rewrite !Qred_correct in *.
  split; intros H.
  - assert (1 * c < b)%Q.
    { setoid_replace (b : Q) with ((b * / c) * c)%Q.
      - apply Qmult_lt_compat_r; auto.
      - field. intro E. rewrite E in Hc. now apply Qlt_irrefl in Hc. }
    lra.
  - apply Qlt_shift_div_l; auto. lra.
Qed.

(** A ratio over a positive denominator exceeds 1 exactly when the
    difference is positive; the infinities and NaN included. *)
Lemma ratio_gt1_iff_diff_pos (B C : num) :
  (C >? zero) = true ->
  (B / C >? one) = (B - C >? zero).
Proof.
  unfold gtb. destruct C as [c| | |]; simpl; try discriminate; intros Hc.
  - apply qltb_lt in Hc. change (Q2Qc (inject_Z 0)) with (Q2Qc 0) in Hc.
    assert (Hn : qeqb c (Q2Qc 0) = false)
      by (rewrite qeqb0_sgn, (sgn_gt c Hc); reflexivity).
    destruct B as [b| | |]; simpl; rewrite ?Hn, ?(sgn_gt c Hc); simpl; auto.
    apply eq_true_iff_eq. rewrite !qltb_lt. apply (qc_div_gt1 b c Hc).
  - destruct B; simpl; auto.
Qed.

(** C5, as the code has it: when the BCR is taken over all costs (any mode
    but "constrained", or a project whose costs are all constrained) and
    the discounted costs are positive, the BCR exceeds 1 exactly when the
    NPV is positive. *)
Theorem bcr_npv_agree (pow_frac : num -> num -> num) (m : Model)
    (rate adoptMul risk_ : num) (mode : string) :
  let r := computeAll pow_frac m rate adoptMul risk_ mode in
  (mode <> "constrained" \/ pvCostsConstrained r = pvCosts r) ->
  (pvCosts r >? zero) = true ->
  ((bcr r >? one) = true <-> (npv r >? zero) = true).
Proof.
  intros r Hmode Hpos.
  assert (Hb : bcr r = pvBenefits r / pvCosts r).
  { subst r. unfold computeAll in *.
    cbn [bcr pvBenefits pvCosts pvCostsConstrained] in *.
    destruct (String.eqb_spec mode "constrained") as [E|E].
    - destruct Hmode as [Hm|Hm]; [contradiction|].
      rewrite Hm, Hpos. reflexivity.
    - rewrite Hpos. reflexivity. }
  rewrite Hb, (ratio_gt1_iff_diff_pos _ _ Hpos).
  subst r. unfold computeAll. cbn [npv pvBenefits pvCosts]. tauto.
Qed.

Lemma bcr_npv_agree_witness :
  let r := computeAll (fun _ _ => NaN) unit_model zero one zero "all" in
  ("all" <> "constrained" \/ pvCostsConstrained r = pvCosts r) /\
  (pvCosts r >? zero) = true /\
  ((bcr r >? one) = true <-> (npv r >? zero) = true).
Proof.
  split; [left; discriminate|]. split; [vm_compute; reflexivity|].
  apply (bcr_npv_agree (fun _ _ => NaN) unit_model zero one zero "all").
  - left. discriminate.
  - vm_compute. reflexivity.
Defined.

(** C5, as stated, fails in the constrained mode: [two_cost_model] has
    positive discounted costs (110) and a negative NPV (-60), and its BCR,
    taken over the constrained costs only (10), is 5. *)
Lemma constrained_bcr_disagrees :
  let r := computeAll (fun _ _ => NaN) two_cost_model zero one zero
                      "constrained" in
  (pvCosts r >? zero) = true /\
  (bcr r >? one) = true /\
  (npv r >? zero) = false /\
  bcr r = ofZ 5 /\ npv r = ofZ (-60).
Proof.
  cbv zeta. repeat split; try (vm_compute; reflexivity); num_decide.
Qed.

(** *** One-off benefit items *)




(** *** MIRR under rescaling *)

Section Scale.

Variable k : Qc.
Hypothesis k_pos : (Q2Qc 0 < k)%Qc.

Let K : num := Fin k.

Lemma sgn_mul_pos (a : Qc) : sgn (a * k) = sgn a.
Proof. rewrite sgn_mul, (sgn_gt k k_pos). destruct (sgn a); reflexivity. Qed.

Lemma k_neq0 : k <> Q2Qc 0.
Proof. intros E. rewrite E in k_pos. revert k_pos. apply Qlt_irrefl. Qed.

Lemma scale_inf (c : comparison) : inf_of_sign c * K = inf_of_sign c.
Proof. destruct c; simpl; auto; rewrite (sgn_gt k k_pos); reflexivity. Qed.

Lemma scale_zero : zero * K = zero.
Proof. change (Fin (Q2Qc 0 * k) = Fin (Q2Qc 0)). f_equal. ring. Qed.

Lemma scale_add (a b : num) : (a + b) * K = a * K + b * K.
Proof.
  destruct a as [a| | |], b as [b| | |]; simpl; auto;
    try (rewrite (sgn_gt k k_pos); reflexivity).
  f_equal. ring.
Qed.

Lemma scale_mul (a p : num) : (a * p) * K = (a * K) * p.
Proof.
  destruct a as [a| | |], p as [p| | |]; simpl; auto;
    rewrite ?sgn_mul_pos, ?scale_inf;
    try (rewrite (sgn_gt k k_pos); simpl); auto.
  f_equal. ring.
Qed.

Lemma scale_div (a d : num) : (a / d) * K = (a * K) / d.
Proof.
  destruct a as [a| | |], d as [d| | |]; simpl; auto;
    rewrite ?sgn_mul_pos, ?(sgn_gt k k_pos); simpl; auto.
  - destruct (qeqb d (Q2Qc 0)) eqn:E.
    + apply scale_inf.
    + simpl. f_equal. field. intros H. apply qeqb_eq in H. congruence.
  - f_equal. ring.
  - f_equal. ring.
  - destruct (sgn d); simpl; rewrite (sgn_gt k k_pos); reflexivity.
  - destruct (sgn d); simpl; rewrite (sgn_gt k k_pos); reflexivity.
Qed.

Lemma scale_ltb0 (a : num) : (a * K <? zero) = (a <? zero).
Proof.
  destruct a as [a| | |]; simpl; auto; rewrite ?(sgn_gt k k_pos); auto.
  change (Q2Qc (inject_Z 0)) with (Q2Qc 0).
  rewrite !qltb0_sgn, sgn_mul_pos; auto.
Qed.

Lemma scale_gtb0 (a : num) : (a * K >? zero) = (a >? zero).
Proof.
  unfold gtb.
  destruct a as [a| | |]; simpl; auto; rewrite ?(sgn_gt k k_pos); auto.
  change (Q2Qc (inject_Z 0)) with (Q2Qc 0).
  rewrite !qgtb0_sgn, sgn_mul_pos; auto.
Qed.

Lemma scale_eqb0 (a : num) : (a * K =? zero) = (a =? zero).
Proof.
  destruct a as [a| | |]; simpl; auto; rewrite ?(sgn_gt k k_pos); auto.
  change (Q2Qc (inject_Z 0)) with (Q2Qc 0).
  rewrite !qeqb0_sgn, sgn_mul_pos; auto.
Qed.

Lemma scale_ratio (f p : num) : neg (f * K) / (p * K) = neg f / p.
Proof.
  destruct f as [f| | |], p as [p| | |]; simpl; auto;
    rewrite ?sgn_mul_pos, ?(sgn_gt k k_pos); simpl; auto.
  - rewrite !qeqb0_sgn, sgn_mul_pos.
    destruct (sgn_cases p) as [[E H]|[[E H]|[E H]]]; rewrite E.
    + f_equal. field.
      split; first [apply k_neq0 | intros E'; apply sgn_eq in E'; congruence].
    + rewrite !sgn_opp, sgn_mul_pos. reflexivity.
    + f_equal. field.
      split; first [apply k_neq0 | intros E'; apply sgn_eq in E'; congruence].
  - rewrite sgn_mul_pos. reflexivity.
  - rewrite sgn_mul_pos. reflexivity.
Qed.

(** The two accumulators of [mirr] scale with the flows. *)
Lemma mirr_loop_scale (fr rr : num) (n : nat) (cf : list num) :
  forall t pn fp,
  mirr_loop t n fr rr (map (fun v => v * K) cf) (pn * K) (fp * K) =
  let '(a, b) := mirr_loop t n fr rr cf pn fp in (a * K, b * K).
Proof.
  induction cf as [|v cf IH]; intros t pn fp; cbn [mirr_loop map]; auto.
  rewrite scale_ltb0, scale_gtb0.
  rewrite <- scale_div, <- scale_mul, <- !scale_add.
  destruct (v <? zero), (v >? zero); apply IH.
Qed.

End Scale.



(** *** The IRR search *)

Lemma same_sign_mul (a b : num) : same_sign a b = (a * b >? zero).
Proof.
  unfold same_sign, gtb.
  destruct a as [a| | |], b as [b| | |]; simpl; auto;
    change (Q2Qc (inject_Z 0)) with (Q2Qc 0);
    rewrite ?qgtb0_sgn, ?qltb0_sgn, ?sgn_mul; by_signs.
Qed.

Lemma first_index_shift (p : nat -> bool) :
  forall count from,
  first_index p (S from) count =
  option_map S (first_index (fun j => p (S j)) from count).
Proof.
  induction count as [|c IH]; intros from; simpl; auto.
  destruct (p (S from)); auto.
Qed.

Lemma first_index_true (p : nat -> bool) :
  forall count from j, first_index p from count = Some j -> p j = true.
Proof.
  induction count as [|c IH]; intros from j; cbn [first_index];
    [discriminate|].
  destruct (p from) eqn:E.
  - intros H. inversion H. now subst.
  - apply IH.
Qed.

Lemma first_index_snoc (p : nat -> bool) :
  forall count from,
  first_index p from (S count) =
  match first_index p from count with
  | Some j => Some j
  | None => if p (from + count)%nat then Some (from + count)%nat else None
  end.
Proof.
  induction count as [|c IH]; intros from.
  - cbn [first_index]. rewrite Nat.add_0_r. reflexivity.
  - change (first_index p from (S (S c)))
      with (if p from then Some from else first_index p (S from) (S c)).
    rewrite IH. cbn [first_index].
    destruct (p from); [reflexivity|].
    replace (S from + c)%nat with (from + S c)%nat by lia. reflexivity.
Qed.

Lemma irr_hi_after_S (k : nat) :
  irr_hi_after k * ofQ (3 # 2) = irr_hi_after (S k).
Proof.
  unfold irr_hi_after. cbn [npow].
  generalize (npow (ofQ (3 # 2)) k). intros x.
  unfold irr_hi, ofZ, ofQ. destruct x as [x| | |]; simpl; auto.
  f_equal. ring.
Qed.

Section Irr.

Variable cf : list num.

Let nLo : num := npvAt cf irr_lo.
Let P (k : nat) : bool := negb (same_sign nLo (npvAt cf (irr_hi_after k))).

(** The expansion loop stops at the first bound that brackets a sign
    change, or after all its multiplications. *)
Lemma irr_expand_spec :
  forall fuel k,
  irr_expand fuel cf nLo (irr_hi_after k) (npvAt cf (irr_hi_after k)) =
  let k' := match first_index P k fuel with
            | Some j => j
            | None => (k + fuel)%nat
            end in
  (irr_hi_after k', npvAt cf (irr_hi_after k')).
Proof.
  induction fuel as [|f IH]; intros k; cbn [irr_expand first_index].
  - rewrite Nat.add_0_r. reflexivity.
  - assert (HP : P k = negb (nLo * npvAt cf (irr_hi_after k) >? zero))
      by (unfold P; now rewrite same_sign_mul).
    rewrite HP.
    destruct (nLo * npvAt cf (irr_hi_after k) >? zero); cbn [negb].
    + rewrite irr_hi_after_S, IH. cbn zeta.
      replace (S k + f)%nat with (k + S f)%nat by lia. reflexivity.
    + reflexivity.
Qed.

(** The bisection loop, whose [nLo] caches the NPV at [lo], returns the
    midpoint of the first bracket that converges, or of the last one. *)
Lemma irr_bisect_spec :
  forall fuel lo hi nHi,
  irr_bisect fuel cf lo hi (npvAt cf lo) nHi =
  let j := match first_index (converged cf (lo, hi)) 0 fuel with
           | Some j => j
           | None => fuel
           end in
  midpoint (bracket_after cf (lo, hi) j) * ofZ 100.
Proof.
  induction fuel as [|f IH]; intros lo hi nHi;
    cbn [irr_bisect first_index].
  - reflexivity.
  - change ((lo + hi) / ofZ 2) with (midpoint (lo, hi)).
    change (converged cf (lo, hi) 0)
      with (Math_abs (npvAt cf (midpoint (lo, hi))) <? irr_tol).
    destruct (Math_abs (npvAt cf (midpoint (lo, hi))) <? irr_tol).
    + reflexivity.
    + rewrite first_index_shift.
      change (fun j => converged cf (lo, hi) (S j))
        with (converged cf (halve cf (lo, hi))).
      destruct (npvAt cf lo * npvAt cf (midpoint (lo, hi)) <=? zero) eqn:E.
      * assert (Hh : halve cf (lo, hi) = (lo, midpoint (lo, hi)))
          by (unfold halve; cbn [fst snd]; now rewrite E).
        rewrite IH, Hh. cbn zeta.
        destruct (first_index _ 0 f); cbn [option_map bracket_after];
          rewrite Hh; reflexivity.
      * assert (Hh : halve cf (lo, hi) = (midpoint (lo, hi), hi))
          by (unfold halve; cbn [fst snd]; now rewrite E).
        rewrite IH, Hh. cbn zeta.
        destruct (first_index _ 0 f); cbn [option_map bracket_after];
          rewrite Hh; reflexivity.
Qed.

End Irr.

Lemma no_pos_all_le (cf : list num) :
  Forall (fun v => v <> NaN) cf ->
  negb (existsb (fun v => v >? zero) cf) = forallb (fun v => v <=? zero) cf.
Proof.
  induction 1 as [|v l Hv Hl IH]; cbn [existsb forallb]; auto.
  rewrite negb_orb, IH. f_equal.
  unfold gtb. destruct v as [q| | |]; simpl; auto; try congruence.
  change (Q2Qc (inject_Z 0)) with (Q2Qc 0).
  rewrite qgtb0_sgn, qleb0_sgn. by_signs.
Qed.

Lemma no_neg_all_ge (cf : list num) :
  Forall (fun v => v <> NaN) cf ->
  negb (existsb (fun v => v <? zero) cf) = forallb (fun v => v >=? zero) cf.
Proof.
  induction 1 as [|v l Hv Hl IH]; cbn [existsb forallb]; auto.
  rewrite negb_orb, IH. f_equal.
  unfold geb. destruct v as [q| | |]; simpl; auto; try congruence.
  change (Q2Qc (inject_Z 0)) with (Q2Qc 0).
  rewrite qltb0_sgn, qgeb0_sgn. by_signs.
Qed.



End EngineFacts.

(* ================================================================= *)
(** ** The engine: Monte Carlo simulation *)

Module SimulationFacts.

Import Engine.

(** *** Lists rewritten in place *)

Lemma map_mapi_frame {A F : Type} (fr : A -> F) (f : nat -> A -> A)
    (l : list A) :
  (forall idx x, fr (f idx x) = fr x) ->
  forall i, map fr (mapi_from i f l) = map fr l.
Proof. intros H. induction l; intros; simpl; auto. now rewrite H, IHl. Qed.

Lemma mapi_from_frame {A B F : Type} (fr : A -> F) (f : nat -> A -> B) :
  (forall idx x y, fr x = fr y -> f idx x = f idx y) ->
  forall l l' i, map fr l' = map fr l -> mapi_from i f l' = mapi_from i f l.
Proof.
  intros Hf l. induction l as [|x l IH]; intros [|y l'] i E; simpl in *;
    try discriminate; auto.
  injection E as E1 E2. f_equal; auto.
Qed.

Lemma mapi_from_nth {A B V : Type} (F : A -> V -> B) (g : A -> V) (d : V)
    (l : list A) :
  forall pre,
  mapi_from (List.length pre)
            (fun idx x => F x (nth idx (pre ++ map g l) d)) l
  = map (fun x => F x (g x)) l.
Proof.
  induction l as [|x l IH]; intros pre; simpl; auto.
  f_equal.
  - rewrite app_nth2 by lia. rewrite Nat.sub_diag. reflexivity.
  - specialize (IH (pre ++ [g x])%list). rewrite length_app in IH.
    simpl in IH. rewrite Nat.add_1_r in IH.
    rewrite <- app_assoc in IH. simpl in IH. exact IH.
Qed.

Lemma mapi_nth {A B V : Type} (F : A -> V -> B) (g : A -> V) (d : V)
    (l : list A) :
  mapi (fun idx x => F x (nth idx (map g l) d)) l
  = map (fun x => F x (g x)) l.
Proof. apply (mapi_from_nth F g d l []). Qed.

Lemma same_frame_refl (m : Model) : same_frame m m.
Proof. constructor; reflexivity. Qed.

Section Run.

Variable Math_sqrt : num -> num.
Variable pow_frac : num -> num -> num.

(** *** The loop writes amounts only *)

Lemma sim_iteration_frame (bo : list num) (bt : list TreatCosts)
    (bc : list OtherAmounts) (varPct : num) (m : Model) (s : SimState) :
  same_frame m (st_model s) ->
  same_frame m
    (st_model (sim_iteration Math_sqrt pow_frac bo bt bc varPct s)).
Proof.
  intros [H1 H2 H3 H4 H5 H6 H7 H8]. unfold sim_iteration.
  repeat match goal with
         | |- context [let '(_, _) := ?e in _] => destruct e
         end.
  cbn [st_model].
  repeat (match goal with
          | |- context [if ?c then _ else _] => destruct c
          end; cbn [sim with_outputs with_treatments with_otherCosts]).
  all: constructor;
    cbn [time outputs treatments benefits otherCosts adoption risk sim
         with_outputs with_treatments with_otherCosts]; auto.
  all: unfold mapi; rewrite map_mapi_frame by reflexivity; assumption.
Qed.

Lemma iterations_frame (bo : list num) (bt : list TreatCosts)
    (bc : list OtherAmounts) (varPct : num) (m : Model) (s0 : SimState)
    (k : nat) :
  same_frame m (st_model s0) ->
  same_frame m
    (st_model
       (Nat.iter k (sim_iteration Math_sqrt pow_frac bo bt bc varPct) s0)).
Proof.
  intros H. induction k as [|k IH]; cbn [Nat.iter nat_rect]; auto.
  now apply sim_iteration_frame.
Qed.

(** Every iteration records one result. *)
Lemma iterations_count (bo : list num) (bt : list TreatCosts)
    (bc : list OtherAmounts) (varPct : num) (s0 : SimState) (k : nat) :
  let s := Nat.iter k (sim_iteration Math_sqrt pow_frac bo bt bc varPct) s0 in
  List.length (st_details s) = (List.length (st_details s0) + k)%nat /\
  List.length (st_npvs s) = (List.length (st_npvs s0) + k)%nat /\
  List.length (st_bcrs s) = (List.length (st_bcrs s0) + k)%nat.
Proof.
  cbn zeta. induction k as [|k IH].
  - cbn [Nat.iter nat_rect]. rewrite !Nat.add_0_r. auto.
  - destruct IH as [I1 [I2 I3]]. rewrite Nat.iter_succ.
    set (s := Nat.iter k _ s0) in *.
    unfold sim_iteration.
    repeat match goal with
           | |- context [let '(_, _) := ?e in _] => destruct e
           end.
    cbn [st_details st_npvs st_bcrs].
    rewrite !length_app, I1, I2, I3. cbn [List.length]. lia.
Qed.

Lemma restore_frame (bo : list num) (bt : list TreatCosts)
    (bc : list OtherAmounts) (m m' : Model) :
  same_frame m m' -> restore bo bt bc m' = restore bo bt bc m.
Proof.
  intros [H1 H2 H3 H4 H5 H6 H7 H8]. unfold restore.
  unfold with_outputs, with_treatments, with_otherCosts.
  cbn [time outputs treatments benefits otherCosts adoption risk sim].
  rewrite H1, H2, H3, H4, H5. unfold mapi. f_equal.
  - apply (mapi_from_frame out_id); auto.
    intros idx [i v] [i' v'] E. simpl in E. subst. reflexivity.
  - apply (mapi_from_frame frame_t); auto.
    intros idx x y E. unfold frame_t in E. injection E as E1 E2 E3 E4.
    unfold set_costs. now rewrite E1, E2, E3, E4.
  - apply (mapi_from_frame frame_c); auto.
    intros idx x y E. unfold frame_c in E. injection E as E1 E2 E3 E4 E5.
    unfold set_amounts. now rewrite E1, E2, E3, E4, E5.
Qed.

Lemma restore_snapshot (m : Model) :
  restore (map (fun o => or0 (out_value o)) (outputs m))
          (map (fun t => {| base_materials := or0 (materialsCost t);
                            base_services := or0 (servicesCost t);
                            base_labour := or0 (labourCost t) |})
               (treatments m))
          (map (fun c => {| base_annual := or0 (annual c);
                            base_capital := or0 (capital c) |})
               (otherCosts m))
          m
  = snapshot_reading m.
Proof.
  unfold restore, snapshot_reading, with_outputs, with_treatments,
    with_otherCosts.
  cbn [time outputs treatments benefits otherCosts adoption risk sim].
  f_equal.
  - unfold arr_get. apply (mapi_nth (fun o v => set_value o v)).
  - apply (mapi_nth (fun t b => set_costs t (base_materials b)
                                          (base_services b) (base_labour b))).
  - apply (mapi_nth (fun c b => set_amounts c (base_annual b)
                                            (base_capital b))).
Qed.

(** The model a run leaves behind: untouched when [new Array(N)] throws,
    and otherwise the model of before with every perturbable amount read
    as [Number(x) || 0]. *)
Lemma runSimulation_model (m : Model) (random : num) :
  fst (runSimulation Math_sqrt pow_frac m random) =
  match snd (runSimulation Math_sqrt pow_frac m random) with
  | Thrown_RangeError => m
  | Returned _ => snapshot_reading m
  end.
Proof.
  unfold runSimulation.
  destruct (array_length _) as [k|]; [|reflexivity].
  cbn [fst snd].
  rewrite (restore_frame _ _ _ m).
  - apply restore_snapshot.
  - apply iterations_frame. apply same_frame_refl.
Qed.

Lemma snapshot_numbers (m : Model) :
  amounts_are_numbers m -> snapshot_reading m = m.
Proof.
  intros [Ho [Ht Hc]]. destruct m as [tm os ts bs cs ad rk sm].
  unfold snapshot_reading.
  cbn [time outputs treatments benefits otherCosts adoption risk sim] in *.
  f_equal; apply map_id_on.
  - eapply Forall_impl; [|exact Ho]. intros [i v] H.
    unfold clean_output, set_value. simpl in *. now rewrite or0_number.
  - eapply Forall_impl; [|exact Ht]. intros t [H1 [H2 H3]]. destruct t.
    unfold clean_treatment, set_costs. simpl in *. now rewrite !or0_number.
  - eapply Forall_impl; [|exact Hc]. intros c [H1 H2]. destruct c.
    unfold clean_cost, set_amounts. simpl in *. now rewrite !or0_number.
Qed.

(** How a run ends, by the run count: it throws when [N] is no array
    length, and otherwise returns one npv, one bcr and one record per
    iteration, [N] of each. *)
Lemma runs_performed (m : Model) (random : num) :
  match array_length (run_count (n (sim m))) with
  | Some k =>
      exists o,
        snd (runSimulation Math_sqrt pow_frac m random) = Returned o /\
        List.length (out_details o) = k /\
        List.length (out_npvs o) = k /\ List.length (out_bcrs o) = k
  | None => runSimulation Math_sqrt pow_frac m random = (m, Thrown_RangeError)
  end.
Proof.
  unfold runSimulation, run_count.
  destruct (array_length _) as [k|]; [|reflexivity].
  eexists. split; [reflexivity|]. cbn [out_details out_npvs out_bcrs].
  match goal with
  | |- context [Nat.iter k (sim_iteration _ _ ?bo ?bt ?bc ?v) ?s] =>
      destruct (iterations_count bo bt bc v s k) as [I1 [I2 I3]]
  end.
  cbn zeta in *. cbn [st_details st_npvs st_bcrs List.length] in *. auto.
Qed.


(** A run seeded with a number other than 0 and NaN never consults
    [Math.random]: it is a function of the model alone. *)
Lemma seeded_run_deterministic (m : Model) (s r1 r2 : num) :
  seed (sim m) = Some s -> truthy s = true ->
  runSimulation Math_sqrt pow_frac m r1 = runSimulation Math_sqrt pow_frac m r2.
Proof.
  intros Hs Ht. unfold runSimulation, rng. rewrite Hs, Ht. reflexivity.
Qed.

End Run.



(** *** The run count *)

Lemma this_ofZ (z : Z) : this (Q2Qc (inject_Z z)) = inject_Z z.
Proof.
  unfold Q2Qc. cbn [this]. apply Qred_identity. simpl. apply Z.gcd_1_r.
Qed.

Lemma ofZ_ltb (a b : Z) : (ofZ a <? ofZ b) = (a <? b)%Z.
Proof.
  unfold ofZ, ofQ, ltb, qltb, Qccompare. rewrite !this_ofZ.
  unfold Qcompare, inject_Z. cbn [Qnum Qden]. rewrite !Z.mul_1_r.
  unfold Z.ltb. reflexivity.
Qed.

Lemma ofZ_truthy (z : Z) : truthy (ofZ z) = negb (z =? 0)%Z.
Proof.
  unfold ofZ, ofQ, truthy, qeqb, Qccompare. rewrite this_ofZ.
  change (this (Q2Qc 0)) with (inject_Z 0).
  unfold Qcompare, inject_Z. cbn [Qnum Qden]. rewrite !Z.mul_1_r.
  destruct z; reflexivity.
Qed.

Lemma array_length_ofZ (z : Z) :
  (0 <= z < two32)%Z -> array_length (ofZ z) = Some (Z.to_nat z).
Proof.
  intros [H1 H2]. unfold array_length, ofZ, ofQ. rewrite this_ofZ.
  cbn [Qnum Qden inject_Z].
  apply Z.leb_le in H1. apply Z.ltb_lt in H2. rewrite H1, H2. reflexivity.
Qed.

(** A positive integer run count below [2^32] gives [max(100, n)]
    iterations; a count that is zero or not a number gives 1000. *)
Lemma run_count_integer (z : Z) :
  (0 < z < two32)%Z ->
  array_length (run_count (ofZ z)) = Some (Z.to_nat (Z.max 100 z)).
Proof.
  intros [H1 H2]. unfold run_count, por. rewrite ofZ_truthy.
  replace (z =? 0)%Z with false by (symmetry; apply Z.eqb_neq; lia).
  cbn [negb].
  assert (E : Math_max (ofZ 100) (ofZ z) = ofZ (Z.max 100 z)).
  { unfold Math_max.
    change (ofZ 100) with (Fin (Q2Qc (inject_Z 100))) at 1.
    change (ofZ z) with (Fin (Q2Qc (inject_Z z))) at 1.
    cbv iota.
    change (Fin (Q2Qc (inject_Z 100))) with (ofZ 100).
    change (Fin (Q2Qc (inject_Z z))) with (ofZ z).
    rewrite ofZ_ltb. destruct (Z.ltb_spec 100 z).
    - now rewrite Z.max_r by lia.
    - now rewrite Z.max_l by lia. }
  rewrite E. apply array_length_ofZ. unfold two32 in *. lia.
Qed.

Lemma run_count_default :
  array_length (run_count zero) = Some 1000%nat /\
  array_length (run_count NaN) = Some 1000%nat.
Proof. split; vm_compute; reflexivity. Qed.

(** C10 at a fractional count: with 150.5 runs requested, [N] is 150.5,
    [new Array(N)] throws a [RangeError], and the run ends before its
    first iteration, with the model untouched. *)
Theorem fractional_run_count_throws (Math_sqrt : num -> num)
    (pow_frac : num -> num -> num) (m : Model) (random : num) :
  run_count (ofQ (301 # 2)) = ofQ (301 # 2) /\
  runSimulation Math_sqrt pow_frac (with_run_count m (ofQ (301 # 2))) random
  = (with_run_count m (ofQ (301 # 2)), Thrown_RangeError).
Proof.
  split; [num_decide|].
  pose proof (runs_performed Math_sqrt pow_frac
                (with_run_count m (ofQ (301 # 2))) random) as H.
  cbn [with_run_count sim n] in H.
  replace (array_length (run_count (ofQ (301 # 2)))) with (@None nat) in H
    by (vm_compute; reflexivity).
  exact H.
Qed.

(** *** The seed *)

Section FirstRecord.

Variable Math_sqrt : num -> num.
Variable pow_frac : num -> num -> num.

Lemma iter_first {A : Type} (f : A -> A) (k : nat) (x : A) :
  Nat.iter (S k) f x = Nat.iter k f (f x).
Proof.
  induction k as [|k IH]; [reflexivity|].
  rewrite Nat.iter_succ, IH. reflexivity.
Qed.

Lemma sim_iteration_details (bo : list num) (bt : list TreatCosts)
    (bc : list OtherAmounts) (v : num) (s : SimState) :
  exists r,
    st_details (sim_iteration Math_sqrt pow_frac bo bt bc v s)
    = (st_details s ++ [r])%list.
Proof.
  unfold sim_iteration.
  repeat match goal with
         | |- context [let '(_, _) := ?e in _] => destruct e
         end.
  cbn [st_details]. eexists. reflexivity.
Qed.

Lemma iterations_keep_first (bo : list num) (bt : list TreatCosts)
    (bc : list OtherAmounts) (v : num) (k : nat) :
  forall s r,
  hd_error (st_details s) = Some r ->
  hd_error
    (st_details
       (Nat.iter k (sim_iteration Math_sqrt pow_frac bo bt bc v) s))
  = Some r.
Proof.
  induction k as [|k IH]; intros s r H; [exact H|].
  rewrite Nat.iter_succ.
  destruct (sim_iteration_details bo bt bc v
              (Nat.iter k (sim_iteration Math_sqrt pow_frac bo bt bc v) s))
    as [r' E].
  rewrite E. specialize (IH s r H).
  destruct (st_details (Nat.iter k _ s)); [discriminate|]. exact IH.
Qed.

Lemma first_iteration_discount (bo : list num) (bt : list TreatCosts)
    (bc : list OtherAmounts) (v : num) (m : Model) (t : Z) :
  exists r,
    hd_error
      (st_details
         (sim_iteration Math_sqrt pow_frac bo bt bc v
            {| st_model := m; st_rng := t; st_npvs := []; st_bcrs := [];
               st_details := [] |})) = Some r /\
    discountRatePct r =
      triangular Math_sqrt (snd (rand t))
        (discLow (time m)) (discBase (time m)) (discHigh (time m)).
Proof.
  unfold sim_iteration. cbn [st_model st_rng st_details].
  destruct (rand t) as [t1 r1]. cbn [snd].
  repeat match goal with
         | |- context [let '(_, _) := ?e in _] => destruct e
         end.
  cbn [st_details app hd_error]. eexists. split; reflexivity.
Qed.

(** The discount rate of the first record of a run is the triangular
    sample of the first draw of the generator. *)
Lemma first_record (m : Model) (random : num) (k : nat) :
  array_length (run_count (n (sim m))) = Some (S k) ->
  exists o r,
    snd (runSimulation Math_sqrt pow_frac m random) = Returned o /\
    hd_error (out_details o) = Some r /\
    discountRatePct r =
      triangular Math_sqrt (snd (rand (rng (seed (sim m)) random)))
        (discLow (time m)) (discBase (time m)) (discHigh (time m)).
Proof.
  intros HN. unfold runSimulation. fold (run_count (n (sim m))). rewrite HN.
  cbn [snd]. rewrite iter_first.
  match goal with
  | |- context [Nat.iter k (sim_iteration _ _ ?bo ?bt ?bc ?v) _] =>
      destruct (first_iteration_discount bo bt bc v m
                  (rng (seed (sim m)) random)) as [r [H1 H2]];
      pose proof (iterations_keep_first bo bt bc v k _ r H1) as H3
  end.
  eexists. exists r. split; [reflexivity|]. cbn [out_details].
  split; [exact H3 | exact H2].
Qed.

End FirstRecord.

(** C8 at the seed 0: [rng] takes 0 for a missing seed and starts from
    [Math.random()].  Two runs of the unit project seeded with 0, during
    which [Math.random()] yields 0 and 0.5, start the generator at 0 and
    at 2^30; their first draws are 0.2664... and 0.6198..., and the
    discount rates of their first records are [4 + sqrt(4.79...)] and
    [10 - sqrt(6.84...)], about 6.19 and 7.38. *)
Theorem zero_seed_not_reproducible (Math_sqrt : num -> num)
    (pow_frac : num -> num -> num) :
  let m := with_seed unit_model (Some zero) in
  let u1 := ofQ (572152369 # 2147483648) in
  let u2 := ofQ (1331060871 # 2147483648) in
  rng (Some zero) zero = 0%Z /\
  rng (Some zero) (ofQ (1 # 2)) = 1073741824%Z /\
  snd (rand 0) = u1 /\
  snd (rand 1073741824) = u2 /\
  u1 <> u2 /\
  exists o1 o2 r1 r2,
    snd (runSimulation Math_sqrt pow_frac m zero) = Returned o1 /\
    snd (runSimulation Math_sqrt pow_frac m (ofQ (1 # 2))) = Returned o2 /\
    hd_error (out_details o1) = Some r1 /\
    hd_error (out_details o2) = Some r2 /\
    discountRatePct r1 = ofZ 4 + Math_sqrt (u1 * ofZ 6 * ofZ 3) /\
    discountRatePct r2 = ofZ 10 - Math_sqrt ((one - u2) * ofZ 6 * ofZ 3).
Proof.
  intros m u1 u2.
  assert (HN : array_length (run_count (n (sim m))) = Some 1000%nat)
    by (vm_compute; reflexivity).
  destruct (first_record Math_sqrt pow_frac m zero 999 HN)
    as [o1 [r1 [A1 [B1 C1]]]].
  destruct (first_record Math_sqrt pow_frac m (ofQ (1 # 2)) 999 HN)
    as [o2 [r2 [A2 [B2 C2]]]].
  split; [vm_compute; reflexivity|]. split; [vm_compute; reflexivity|].
  split; [num_decide|]. split; [num_decide|]. split; [num_decide|].
  exists o1, o2, r1, r2. repeat split; assumption.
Qed.

(** *** Summaries *)

Lemma filter_idem {A : Type} (f : A -> bool) (l : list A) :
  filter f (filter f l) = filter f l.
Proof.
  induction l as [|x l IH]; simpl; auto.
  destruct (f x) eqn:E; simpl; rewrite ?E, IH; reflexivity.
Qed.

Lemma filter_both {A : Type} (f g : A -> bool) (l : list A) :
  filter (fun x => f x && g x) l = filter g (filter f l).
Proof.
  induction l as [|x l IH]; simpl; auto.
  destruct (f x); simpl; rewrite IH; reflexivity.
Qed.

(** What the summaries range over: min, max, mean, median and the
    probability of a positive value are those of the finite results alone;
    the probability that the BCR exceeds a threshold counts the finite
    results above it and divides by the number of all results, finite or
    not. *)
Lemma summaries_over_finite (arr : list num) (x : num) :
  summaryStats arr = summaryStats (filter isFinite arr) /\
  probBcrGt x arr =
  por (ofNat (List.length (filter (fun v => v >? x) (filter isFinite arr)))
       / ofNat (List.length arr))
      zero.
Proof.
  split.
  - unfold summaryStats. rewrite filter_idem. reflexivity.
  - unfold probBcrGt. rewrite filter_both. reflexivity.
Qed.

(** C7 at the results 2 and NaN: the one finite result exceeds 1 and the
    target 1.5, and both BCR probabilities come out as 1/2, the undefined
    result counting in the denominator; over the finite results alone
    they are 1, as is the probability of a positive value that
    [summaryStats] computes for the same results. *)
Theorem bcr_probability_counts_undefined :
  probBcrGt one [ofZ 2; NaN] = ofQ (1 # 2) /\
  probBcrGt (ofQ (3 # 2)) [ofZ 2; NaN] = ofQ (1 # 2) /\
  probBcrGt one (filter isFinite [ofZ 2; NaN]) = one /\
  probBcrGt (ofQ (3 # 2)) (filter isFinite [ofZ 2; NaN]) = one /\
  s_probPos (summaryStats [ofZ 2; NaN]) = one.
Proof. repeat split; num_decide. Qed.

End SimulationFacts.

(* ================================================================= *)
(** ** Further properties of the trial comparison *)

Module TrialFacts.

Import Plot.
Import PlotFacts.

(** *** Column detection *)

Lemma indexOf_spec (x : string) (l : list string) :
  match indexOf x l with
  | Some i => nth_error l i = Some x /\
              forall j, (j < i)%nat -> nth_error l j <> Some x
  | None => ~ In x l
  end.
Proof.
  induction l as [|y r IH]; cbn [indexOf]; [intros []|].
  destruct (String.eqb y x) eqn:E.
  - apply String.eqb_eq in E. subst. split; [reflexivity|]. intros j Hj. lia.
  - apply String.eqb_neq in E. destruct (indexOf x r) as [i|]; cbn [option_map].
    + destruct IH as [H1 H2]. split; [exact H1|].
      intros [|j] Hj; cbn [nth_error]; [congruence|]. apply H2. lia.
    + intros [H|H]; [congruence|auto].
Qed.

Lemma nth_error_map_lower (headers : list string) (i : nat) (x : string) :
  nth_error (map toLowerCase headers) i = Some x ->
  exists h, nth_error headers i = Some h /\ toLowerCase h = x.
Proof.
  rewrite nth_error_map. destruct (nth_error headers i) as [h|]; cbn;
    [|discriminate]. intros H. injection H as H. exists h. auto.
Qed.

(** X6: [findCol] returns a header of the dataset that agrees, up to
    letter case, with an alias, and no earlier alias names any header;
    it returns [null] only when no alias names a header. *)
Theorem column_detection_honours_alias_order (headers aliases : list string) :
  match findCol headers aliases with
  | Some h =>
      In h headers /\
      exists earlier a later,
        aliases = (earlier ++ a :: later)%list /\
        names_column a h = true /\
        forall a' h', In a' earlier -> In h' headers ->
                      names_column a' h' = false
  | None =>
      forall a h, In a aliases -> In h headers -> names_column a h = false
  end.
Proof.
  induction aliases as [|a rest IH]; cbn [findCol].
  - intros a h [].
  - pose proof (indexOf_spec (toLowerCase a) (map toLowerCase headers)) as Hi.
    destruct (indexOf (toLowerCase a) (map toLowerCase headers)) as [i|].
    + destruct Hi as [Hn _].
      destruct (nth_error_map_lower headers i _ Hn) as [h [Hh El]].
      rewrite Hh. split; [eapply nth_error_In; eauto|].
      exists [], a, rest. split; [reflexivity|]. split.
      * unfold names_column. rewrite El. apply String.eqb_refl.
      * intros a' h' [].
    + assert (Hno : forall h', In h' headers -> names_column a h' = false).
      { intros h' Hh'. unfold names_column. apply String.eqb_neq.
        intros E. apply Hi. rewrite <- E. apply in_map. exact Hh'. }
      destruct (findCol headers rest) as [h|].
      * destruct IH as [Hin [earlier [a0 [later [E [Hm Hn]]]]]].
        split; [exact Hin|]. exists (a :: earlier), a0, later.
        split; [rewrite E; reflexivity|]. split; [exact Hm|].
        intros a' h' [<-|Ha'] Hh'; auto.
      * intros a' h' [<-|Ha'] Hh'; auto.
Qed.

(** *** The treatments of a dataset *)

Lemma existsb_name_In (x : string) (m : list Summary) :
  existsb (fun t => String.eqb (s_name t) x) m = true <-> In x (map s_name m).
Proof.
  rewrite existsb_exists, in_map_iff. split.
  - intros [t [Hin E]]. apply String.eqb_eq in E. exists t. auto.
  - intros [t [E Hin]]. exists t. split; auto. apply String.eqb_eq; auto.
Qed.

Lemma NoDup_snoc {A : Type} (l : list A) (x : A) :
  NoDup l -> ~ In x l -> NoDup (l ++ [x]).
Proof.
  induction l as [|a l IHl]; cbn; intros Hnd Hn.
  - constructor; auto; constructor.
  - inversion Hnd; subst. constructor.
    + rewrite in_app_iff. intros [H|[H|[]]]; auto.
    + apply IHl; auto.
Qed.

Lemma aggregate_row_names (acc : list Summary * option string) (row : Row) :
  map s_name (fst (aggregate_row acc row)) =
  if named row && negb (existsb (fun t => String.eqb (s_name t)
                                           (trim (treatment_cell row)))
                                (fst acc))
  then (map s_name (fst acc) ++ [trim (treatment_cell row)])%list
  else map s_name (fst acc).
Proof.
  destruct acc as [m fl]. unfold aggregate_row, named.
  destruct (String.eqb (trim (treatment_cell row)) "") eqn:E; cbn [negb andb fst].
  - reflexivity.
  - rewrite upsert_names by (intros; reflexivity).
    destruct (existsb _ m); reflexivity.
Qed.

Lemma aggregate_rows_names (rs : list Row) :
  forall acc,
  NoDup (map s_name (fst acc)) ->
  let m := fst (fold_left aggregate_row rs acc) in
  NoDup (map s_name m) /\
  forall x, In x (map s_name m) <->
            In x (map s_name (fst acc)) \/
            exists r, In r rs /\ named r = true /\ trim (treatment_cell r) = x.
Proof.
  induction rs as [|r rs IH]; intros acc Hnd; cbn [fold_left].
  - split; auto. intros x. split; auto. intros [H|[r [[] _]]]; auto.
  - assert (Hnd' : NoDup (map s_name (fst (aggregate_row acc r)))).
    { rewrite aggregate_row_names.
      destruct (named r); cbn [andb]; auto.
      destruct (existsb _ (fst acc)) eqn:E; cbn [negb]; auto.
      apply NoDup_snoc; auto.
      intros Hin. apply existsb_name_In in Hin. congruence. }
    destruct (IH _ Hnd') as [H1 H2]. split; auto.
    intros x. rewrite H2. rewrite aggregate_row_names.
    destruct (named r) eqn:Hn; cbn [andb].
    + destruct (existsb _ (fst acc)) eqn:E; cbn [negb].
      * split.
        -- intros [H|[r' [Hin [Hn' Hx]]]]; auto. right. exists r'. cbn. auto.
        -- intros [H|[r' [[->|Hin] [Hn' Hx]]]]; auto.
           ++ left. apply existsb_name_In in E. congruence.
           ++ right. exists r'. auto.
      * rewrite in_app_iff. cbn [In]. split.
        -- intros [[H|[H|[]]]|[r' [Hin [Hn' Hx]]]]; auto.
           ++ right. exists r. auto.
           ++ right. exists r'. auto.
        -- intros [H|[r' [[->|Hin] [Hn' Hx]]]]; auto.
           right. exists r'. auto.
    + split.
      * intros [H|[r' [Hin [Hn' Hx]]]]; auto. right. exists r'. cbn. auto.
      * intros [H|[r' [[->|Hin] [Hn' Hx]]]]; auto. congruence.
        right. exists r'. auto.
Qed.

Lemma aggregate_names (hs : list string) (rs : list Row) :
  hs <> [] ->
  map name (treatments (aggregateTreatments (initial hs rs))) =
  map s_name (fst (fold_left aggregate_row rs ([], None))).
Proof.
  intros Hh. destruct hs as [|h hs]; [congruence|].
  destruct rs as [|r rs]; [reflexivity|].
  apply (aggregate_state h hs r rs).
Qed.

(** X1: [aggregateTreatments] keeps one treatment per distinct trimmed
    name: the names of the treatments are pairwise different and are
    exactly the trimmed, non-empty names found in the rows. *)
Theorem treatments_are_distinct_names (hs : list string) (rs : list Row) :
  hs <> [] ->
  let ts := treatments (aggregateTreatments (initial hs rs)) in
  NoDup (map name ts) /\
  forall x, In x (map name ts) <->
            exists r, In r rs /\ named r = true /\ trim (treatment_cell r) = x.
Proof.
  intros Hh ts. unfold ts. rewrite aggregate_names by assumption.
  destruct (aggregate_rows_names rs ([], None)) as [H1 H2]; [constructor|].
  split; auto. intros x. rewrite H2. cbn. tauto.
Qed.

Lemma treatments_are_distinct_names_witness :
  ["treatment_name"] <> [] /\
  NoDup (map name (treatments
                     (aggregateTreatments
                        (initial ["treatment_name"] unflagged_rows)))).
Proof.
  split; [discriminate|].
  apply (treatments_are_distinct_names ["treatment_name"] unflagged_rows).
  discriminate.
Defined.

(** *** The control *)

Lemma decide_control_In (m : list Summary) (fl : option string) :
  m <> [] ->
  (forall c, fl = Some c -> In c (map s_name m)) ->
  exists c, decide_control m fl = Some c /\ In c (map s_name m).
Proof.
  intros Hm Hfl. unfold decide_control.
  destruct fl as [c|].
  - exists c. split; auto.
  - destruct (find _ m) as [t|] eqn:E.
    + exists (s_name t). split; [destruct m; reflexivity|].
      apply find_some in E. apply in_map. tauto.
    + destruct m as [|t m]; [congruence|].
      exists (s_name t). split; auto. left; auto.
Qed.

Lemma count_unique {A : Type} (f : A -> string) (c : string) (l : list A) :
  NoDup (map f l) -> In c (map f l) ->
  List.length (filter (fun t => String.eqb (f t) c) l) = 1%nat.
Proof.
  induction l as [|a l IH]; cbn [map filter]; intros Hnd Hin.
  - destruct Hin.
  - inversion Hnd as [|? ? Hna Hnd']; subst.
    destruct (String.eqb (f a) c) eqn:E.
    + apply String.eqb_eq in E. subst c. cbn [List.length]. f_equal.
      clear - Hna. induction l as [|b l IHl]; cbn; auto.
      destruct (String.eqb (f b) (f a)) eqn:E.
      * apply String.eqb_eq in E. exfalso. apply Hna. left; auto.
      * apply IHl. intros H. apply Hna. right; auto.
    + apply IH; auto. destruct Hin as [H|H]; auto.
      subst c. rewrite String.eqb_refl in E. discriminate.
Qed.

Lemma insert_by_filter (p : Result -> bool) (cmp : Result -> Result -> num)
    (x : Result) (l : list Result) :
  List.length (filter p (insert_by cmp x l)) = List.length (filter p (x :: l)).
Proof.
  induction l as [|y l IH]; cbn [insert_by]; auto.
  destruct (cmp y x >? zero); auto.
  cbn [filter] in *. destruct (p y), (p x); cbn [List.length] in *; lia.
Qed.

Lemma sort_by_filter (p : Result -> bool) (cmp : Result -> Result -> num)
    (l : list Result) :
  List.length (filter p (sort_by cmp l)) = List.length (filter p l).
Proof.
  unfold sort_by.
  assert (H : forall acc,
             List.length (filter p (fold_left (fun s x => insert_by cmp x s) l acc))
             = (List.length (filter p l) + List.length (filter p acc))%nat).
  { induction l as [|x l IH]; intros acc; cbn [fold_left]; auto.
    rewrite IH, insert_by_filter. cbn [filter].
    destruct (p x); cbn [List.length]; lia. }
  rewrite H. cbn. lia.
Qed.

Lemma rank_from_filter (p : Result -> bool) (l : list Result) :
  (forall k r, p (with_rank k r) = p r) ->
  forall i, List.length (filter p (rank_from i l)) = List.length (filter p l).
Proof.
  intros Hp. induction l as [|r l IH]; intros i; cbn [rank_from filter]; auto.
  rewrite Hp. destruct (p r); cbn [List.length]; rewrite IH; auto.
Qed.

Lemma filter_map_length {A B : Type} (p : B -> bool) (f : A -> B) (l : list A) :
  List.length (filter p (map f l)) = List.length (filter (fun x => p (f x)) l).
Proof.
  induction l as [|a l IH]; cbn; auto. destruct (p (f a)); cbn; auto.
Qed.

Lemma aggregate_isControl (hs : list string) (rs : list Row) :
  hs <> [] -> rs <> [] ->
  let st := aggregateTreatments (initial hs rs) in
  forall t, In t (treatments st) ->
  isControl t = match controlName st with
                | Some c => String.eqb (name t) c
                | None => false
                end.
Proof.
  intros Hh Hr. destruct hs as [|h hs]; [congruence|].
  destruct rs as [|r rs]; [congruence|].
  unfold aggregateTreatments, initial. cbn [headers rows].
  destruct (fold_left aggregate_row (r :: rs) ([], None)) as [m fl].
  cbn [treatments controlName]. intros t Hin.
  apply in_map_iff in Hin. destruct Hin as [s [<- _]]. reflexivity.
Qed.

Lemma aggregate_control_In (hs : list string) (rs : list Row) :
  hs <> [] ->
  existsb named rs = true ->
  let st := aggregateTreatments (initial hs rs) in
  exists c, controlName st = Some c /\ In c (map name (treatments st)).
Proof.
  intros Hh Hn st.
  assert (Hnames := aggregate_names hs rs Hh). fold st in Hnames.
  destruct hs as [|h hs]; [congruence|]. destruct rs as [|r rs]; [discriminate|].
  destruct (aggregate_state h hs r rs) as [Hc _]. fold st in Hc.
  destruct (decide_control_In
              (fst (fold_left aggregate_row (r :: rs) ([], None)))
              (snd (fold_left aggregate_row (r :: rs) ([], None))))
    as [c [Hdc Hin]].
  { apply aggregate_rows_nonempty. right. assumption. }
  { apply aggregate_rows_inv. cbn. discriminate. }
  exists c. rewrite Hc, Hnames. auto.
Qed.

(** X2: a dataset with a named row is evaluated with exactly one
    control: one treatment carries [isControl], and one entry of the
    ranking does. *)
Theorem exactly_one_control (hs : list string) (rs : list Row) :
  hs <> [] ->
  existsb named rs = true ->
  let st := evaluate hs rs in
  List.length (filter isControl (treatments st)) = 1%nat /\
  List.length (filter r_isControl (res_treatments (results st))) = 1%nat.
Proof.
  intros Hh Hn st.
  assert (Hr : rs <> []) by (intros ->; discriminate).
  set (st0 := aggregateTreatments (initial hs rs)).
  assert (Hnames := aggregate_names hs rs Hh). fold st0 in Hnames.
  destruct (aggregate_rows_names rs ([], None)) as [Hnd _]; [constructor|].
  rewrite <- Hnames in Hnd.
  destruct (aggregate_control_In hs rs Hh Hn) as [c [Hc Hin]].
  fold st0 in Hc, Hin.
  assert (Hone : List.length
                   (filter (fun t => String.eqb (name t) c) (treatments st0))
                 = 1%nat) by (apply count_unique; assumption).
  assert (Hts : treatments st0 <> []).
  { intros E. rewrite E in Hin. destruct Hin. }
  split.
  - unfold st, evaluate. fold st0. rewrite computeCBA_treatments.
    rewrite <- Hone. f_equal. apply filter_ext_in. intros t Ht.
    rewrite (aggregate_isControl hs rs Hh Hr t Ht).
    fold st0. rewrite Hc. reflexivity.
  - unfold st, evaluate. fold st0.
    destruct (computeCBA_results st0 c Hts Hc) as [ctrl [mk [Hmk ->]]].
    rewrite rank_from_filter by reflexivity.
    rewrite sort_by_filter. rewrite map_map, filter_map_length.
    rewrite <- Hone. f_equal. apply filter_ext. intros t. cbn. apply Hmk.
Qed.

Lemma exactly_one_control_witness :
  ["treatment_name"] <> [] /\
  existsb named unflagged_rows = true /\
  List.length
    (filter r_isControl
       (res_treatments
          (results (evaluate ["treatment_name"] unflagged_rows)))) = 1%nat.
Proof.
  split; [discriminate|]. split; [reflexivity|].
  apply (exactly_one_control ["treatment_name"] unflagged_rows);
    [discriminate|reflexivity].
Defined.

Lemma rank_from_inv (l : list Result) :
  forall i y, In y (rank_from i l) -> exists k x, In x l /\ y = with_rank k x.
Proof.
  induction l as [|x l IH]; cbn [rank_from]; intros i y H; [destruct H|].
  destruct H as [H|H].
  - exists i, x. split; [left|]; auto.
  - destruct (IH _ _ H) as [k [x' [Hin E]]]. exists k, x'. split; [right|]; auto.
Qed.

Lemma computeCBA_control (st : State) (c : string) :
  treatments st <> [] -> controlName st = Some c ->
  In c (map name (treatments st)) ->
  exists ctrl mk,
    (forall t, r_name (mk t) = name t) /\
    In ctrl (map mk (treatments st)) /\ r_isControl ctrl = true /\
    r_name ctrl = c /\
    res_treatments (results (computeCBA st)) =
      rank_from 0
        (sort_by by_npv_desc
           (map (with_deltas ctrl) (map mk (treatments st)))).
Proof.
  intros Ht Hc Hin. unfold computeCBA. rewrite Hc.
  destruct (treatments st) as [|t l] eqn:E; [congruence|].
  cbn [results res_treatments].
  match goal with
  | |- context [map (?f) (t :: l)] => set (mk := f)
  end.
  destruct (find r_isControl (map mk (t :: l))) as [r|] eqn:Ef.
  - exists r, mk. apply find_some in Ef. destruct Ef as [Hr Hr'].
    repeat split; auto.
    apply in_map_iff in Hr. destruct Hr as [t' [<- _]].
    cbn in Hr'. apply String.eqb_eq in Hr'. exact Hr'.
  - exfalso. apply in_map_iff in Hin. destruct Hin as [t' [Hn Hin]].
    assert (Hf := find_none _ _ Ef (mk t') (in_map mk _ _ Hin)).
    cbn in Hf. rewrite Hn, String.eqb_refl in Hf. discriminate.
Qed.

(** X4: in the ranking of a dataset with a named row, every delta is
    the difference with one and the same entry, the control's: the entry
    that is marked as the control and bears the control's name. *)
Theorem deltas_against_control (hs : list string) (rs : list Row) :
  hs <> [] ->
  existsb named rs = true ->
  let st := evaluate hs rs in
  exists ctrl,
    In ctrl (res_treatments (results st)) /\
    r_isControl ctrl = true /\
    controlName st = Some (r_name ctrl) /\
    forall r, In r (res_treatments (results st)) ->
      deltaPvBenefits r = pvBenefits r - pvBenefits ctrl /\
      deltaPvCosts r = pvTotalCosts r - pvTotalCosts ctrl /\
      deltaNpv r = npv r - npv ctrl.
Proof.
  intros Hh Hn st. unfold st, evaluate.
  destruct (aggregate_control_In hs rs Hh Hn) as [c [Hc Hin]].
  set (st0 := aggregateTreatments (initial hs rs)) in *.
  assert (Hts : treatments st0 <> []).
  { intros E. rewrite E in Hin. destruct Hin. }
  destruct (computeCBA_control st0 c Hts Hc Hin)
    as [ctrl [mk [Hmk [Hci [Hcc [Hcn ->]]]]]].
  rewrite (computeCBA_controlName st0 c Hc).
  assert (H0 : In (with_deltas ctrl ctrl)
                  (sort_by by_npv_desc
                     (map (with_deltas ctrl) (map mk (treatments st0))))).
  { apply sort_by_In. apply in_map. exact Hci. }
  destruct (rank_from_In _ 0 _ H0) as [k Hk].
  exists (with_rank k (with_deltas ctrl ctrl)).
  split; [exact Hk|]. split; [exact Hcc|]. split; [cbn; congruence|].
  intros r Hr. apply rank_from_inv in Hr. destruct Hr as [k' [x [Hx ->]]].
  apply sort_by_In in Hx. apply in_map_iff in Hx. destruct Hx as [x0 [<- _]].
  cbn. auto.
Qed.

Lemma deltas_against_control_witness :
  ["treatment_name"] <> [] /\
  existsb named unflagged_rows = true /\
  exists ctrl,
    In ctrl (res_treatments
               (results (evaluate ["treatment_name"] unflagged_rows))) /\
    r_isControl ctrl = true.
Proof.
  split; [discriminate|]. split; [reflexivity|].
  destruct (deltas_against_control ["treatment_name"] unflagged_rows)
    as [ctrl [H1 [H2 _]]]; [discriminate|reflexivity|].
  exists ctrl. split; assumption.
Defined.

(** *** The ranking *)

Lemma sub_gtb0 (x y : num) :
  x <> NaN -> y <> NaN -> (x - y >? zero) = (x >? y).
Proof.
  intros Hx Hy. destruct x as [a| | |], y as [b| | |]; try congruence;
    try reflexivity.
  unfold sub, gtb, ltb, neg, add, zero, ofZ, ofQ.
  change (Q2Qc (inject_Z 0)) with (Q2Qc 0).
  apply eq_iff_eq_true. rewrite !qltb_lt. symmetry. apply Qclt_minus_iff.
Qed.

Lemma key_cmp (a b : Result) :
  (by_npv_desc a b >? zero) = (npv_key b >? npv_key a).
Proof.
  unfold by_npv_desc. fold (npv_key a) (npv_key b).
  apply sub_gtb0; unfold npv_key; destruct (npv _); cbn; congruence.
Qed.

Lemma npv_key_number (r : Result) : npv_key r <> NaN.
Proof. unfold npv_key. destruct (npv r); cbn; congruence. Qed.

Lemma gtb_false_trans (x y z : num) :
  x <> NaN -> y <> NaN -> z <> NaN ->
  (y >? x) = false -> (z >? y) = false -> (z >? x) = false.
Proof.
  intros Hx Hy Hz.
  destruct x as [a| | |], y as [b| | |], z as [c| | |]; try congruence;
    cbn; try congruence.
  unfold gtb, ltb. intros H1 H2.
  apply not_true_iff_false. apply not_true_iff_false in H1, H2.
  rewrite qltb_lt in *. intros H. apply Qcnot_lt_le in H1, H2.
  revert H. apply Qcle_not_lt. eapply Qcle_trans; eauto.
Qed.

Lemma gtb_asym (x y : num) : (x >? y) = true -> (y >? x) = false.
Proof.
  destruct x as [a| | |], y as [b| | |]; cbn; try congruence.
  unfold gtb, ltb. intros H. apply not_true_iff_false.
  rewrite qltb_lt in *. apply Qcle_not_lt, Qclt_le_weak, H.
Qed.

Lemma ranked_before_trans (a b c : Result) :
  ranked_before a b -> ranked_before b c -> ranked_before a c.
Proof. apply gtb_false_trans; apply npv_key_number. Qed.

Lemma insert_by_sorted (x : Result) (l : list Result) :
  StronglySorted ranked_before l ->
  StronglySorted ranked_before (insert_by by_npv_desc x l).
Proof.
  induction l as [|y l IH]; cbn [insert_by]; intros Hs.
  - constructor; constructor.
  - inversion Hs as [|? ? Hs' Hall]; subst.
    rewrite key_cmp. destruct (npv_key x >? npv_key y) eqn:E.
    + constructor; auto. constructor.
      * apply gtb_asym. exact E.
      * eapply Forall_impl; [|exact Hall]. intros z Hz.
        eapply ranked_before_trans; [|exact Hz]. apply gtb_asym. exact E.
    + constructor; auto. apply Forall_forall. intros z Hz.
      apply insert_by_In in Hz. destruct Hz as [->|Hz]; [exact E|].
      rewrite Forall_forall in Hall. auto.
Qed.

Lemma sort_by_sorted (l : list Result) :
  StronglySorted ranked_before (sort_by by_npv_desc l).
Proof.
  unfold sort_by.
  assert (H : forall acc, StronglySorted ranked_before acc ->
    StronglySorted ranked_before
      (fold_left (fun s x => insert_by by_npv_desc x s) l acc)).
  { induction l as [|x l IH]; intros acc Ha; cbn [fold_left]; auto.
    apply IH. apply insert_by_sorted; auto. }
  apply H. constructor.
Qed.

Lemma rank_from_sorted (l : list Result) :
  forall i, StronglySorted ranked_before l ->
            StronglySorted ranked_before (rank_from i l).
Proof.
  induction l as [|r l IH]; intros i Hs; cbn [rank_from]; [constructor|].
  inversion Hs as [|? ? Hs' Hall]; subst. constructor; auto.
  apply Forall_forall. intros z Hz.
  assert (Hk : forall j, Forall (ranked_before (with_rank i r)) (rank_from j l)).
  { clear - Hall. induction l as [|y l IHl]; intros j; cbn [rank_from];
      constructor; inversion Hall; subst; auto. }
  specialize (Hk (S i)). rewrite Forall_forall in Hk. auto.
Qed.

Lemma rank_from_ranks (l : list Result) :
  forall i, map rank (rank_from i l) = seq (i + 1) (List.length l).
Proof.
  induction l as [|r l IH]; intros i; cbn [rank_from map List.length seq]; auto.
  f_equal. rewrite IH. f_equal.
Qed.

(** X3: [computeCBA] lists the treatments by decreasing NPV, those
    without an NPV last: no entry has a larger NPV than an entry listed
    before it, and the ranks are 1, 2, ... in the order of the list. *)
Theorem ranking_is_ordered (st : State) (c : string) :
  treatments st <> [] ->
  controlName st = Some c ->
  let rs := res_treatments (results (computeCBA st)) in
  map rank rs = seq 1 (List.length (treatments st)) /\
  StronglySorted ranked_before rs.
Proof.
  intros Ht Hc rs. unfold rs.
  destruct (computeCBA_results st c Ht Hc) as [ctrl [mk [_ ->]]]. split.
  - rewrite rank_from_ranks, sort_by_length, !length_map. reflexivity.
  - apply rank_from_sorted, sort_by_sorted.
Qed.

Lemma ranking_is_ordered_witness :
  let st := aggregateTreatments (initial ["treatment_name"] unflagged_rows) in
  treatments st <> [] /\
  controlName st = Some "Deep ripping" /\
  map rank (res_treatments (results (computeCBA st))) = [1; 2]%nat.
Proof.
  split; [discriminate|]. split; [reflexivity|].
  apply (ranking_is_ordered
           (aggregateTreatments (initial ["treatment_name"] unflagged_rows))
           "Deep ripping"); [discriminate|reflexivity].
Defined.

(** *** Means *)

Lemma mean_fold (values : list num) :
  forall s k,
  fold_left
    (fun '(sum, n) v =>
       let x := parseNumber v in
       if isNaN x then (sum, n) else (sum + x, S n))
    values (s, k)
  = (fold_left add (filter isFinite values) s,
     (k + List.length (filter isFinite values))%nat).
Proof.
  induction values as [|v l IH]; intros s k; cbn [fold_left filter].
  - cbn. f_equal. lia.
  - destruct v; cbn [parseNumber isFinite isNaN fold_left List.length];
      rewrite IH; f_equal; lia.
Qed.

Lemma sum_finite (l : list num) :
  forallb isFinite l = true ->
  forall q, exists q', fold_left add l (Fin q) = Fin q'.
Proof.
  induction l as [|v l IH]; cbn [forallb fold_left]; intros H q.
  - exists q. reflexivity.
  - apply andb_true_iff in H. destruct H as [Hv Hl].
    destruct v; try discriminate. cbn [add]. apply IH. assumption.
Qed.

Lemma ofNat_S_nonzero (k : nat) :
  qeqb (Q2Qc (inject_Z (Z.of_nat (S k)))) (Q2Qc 0) = false.
Proof.
  apply not_true_iff_false. rewrite qeqb_eq. intros H.
  apply (f_equal this) in H. cbn [this Q2Qc] in H.
  assert (H' : Qred (inject_Z (Z.of_nat (S k))) == Qred 0)
    by (rewrite H; reflexivity).
  rewrite !Qred_correct in H'. unfold Qeq in H'. cbn in H'. lia.
Qed.


End TrialFacts.

(* ================================================================= *)
(** ** Further properties of the cash flows and the indicators *)

Module CashflowFacts.

Import Engine.

(** *** The shape of the series *)

Lemma fold_arr_add_length {A : Type} (f : list num -> A -> list num)
    (l : list A) :
  (forall a x, List.length (f a x) = List.length a) ->
  forall a, List.length (fold_left f l a) = List.length a.
Proof.
  intros Hf. induction l as [|x l IH]; intros a; cbn [fold_left]; auto.
  rewrite IH. apply Hf.
Qed.

Lemma add_each_year_length (N : nat) (v : num) (a : list num) :
  List.length (add_each_year N v a) = List.length a.
Proof.
  unfold add_each_year. apply fold_arr_add_length.
  intros. apply arr_add_length.
Qed.

Lemma add_arrays_length (lo len : nat) (b a : list num) :
  List.length (add_arrays lo len b a) = List.length a.
Proof.
  unfold add_arrays. apply fold_arr_add_length.
  intros. apply arr_add_length.
Qed.

Lemma benefit_item_length (N : nat) (baseYear : Z) (adoptMul risk_ : num)
    (series : list num) (b : Benefit) :
  List.length (benefit_item N baseYear adoptMul risk_ series b)
  = List.length series.
Proof.
  unfold benefit_item.
  destruct (String.eqb (frequency b) "Once" || String.eqb _ "C6").
  - destruct (_ && _); auto using arr_add_length.
  - apply fold_arr_add_length. intros a y.
    destruct (_ && _); auto using arr_add_length.
Qed.

Lemma additionalBenefitsSeries_length (m : Model) (N : nat) (baseYear : Z)
    (adoptMul risk_ : num) :
  List.length (additionalBenefitsSeries m N baseYear adoptMul risk_)
  = (N + 1)%nat.
Proof.
  unfold additionalBenefitsSeries.
  rewrite fold_arr_add_length by (intros; apply benefit_item_length).
  apply repeat_length.
Qed.

Lemma other_cost_item_lengths (N : nat) (baseYear : Z) (k : nat)
    (acc : OtherTotals) (c : OtherCost) :
  other_lengths k acc -> other_lengths k (other_cost_item N baseYear acc c).
Proof.
  intros H. unfold other_cost_item.
  destruct (String.eqb (c_type c) "annual").
  - generalize (year_range (year_or (c_startYear c) baseYear)
                  (year_or (c_endYear c) (year_or (c_startYear c) baseYear))).
    intros ys. revert acc H.
    induction ys as [|y ys IH]; intros acc H; cbn [fold_left]; auto.
    apply IH. destruct (_ && _); auto.
    destruct H as (H1 & H2 & H3 & H4).
    unfold other_lengths; cbn [costByYear_ constrainedCostByYear_
      otherAnnualByYear otherConstrAnnualByYear].
    destruct (c_constrained c); rewrite ?arr_add_length; auto.
  - destruct (String.eqb (c_type c) "capital"); auto.
    destruct (_ =? _)%Z.
    + exact H.
    + destruct (_ && _); auto.
      destruct H as (H1 & H2 & H3 & H4).
      unfold other_lengths; cbn [costByYear_ constrainedCostByYear_
        otherAnnualByYear otherConstrAnnualByYear].
      destruct (c_constrained c); rewrite ?arr_add_length; auto.
Qed.

Lemma other_costs_lengths (N : nat) (baseYear : Z) (k : nat)
    (cs : list OtherCost) :
  forall acc, other_lengths k acc ->
              other_lengths k (fold_left (other_cost_item N baseYear) cs acc).
Proof.
  induction cs as [|c cs IH]; intros acc H; cbn [fold_left]; auto.
  apply IH. apply other_cost_item_lengths. exact H.
Qed.

Lemma nth_map_seq (g : nat -> num) (n i : nat) (d : num) :
  (i < n)%nat -> nth i (map g (seq 0 n)) d = g i.
Proof.
  intros Hi. rewrite nth_indep with (d' := g 0%nat)
    by (rewrite length_map, length_seq; lia).
  rewrite map_nth. rewrite seq_nth by lia. reflexivity.
Qed.


(** The lengths of the two series the indicators discount. *)
Lemma cashflow_lengths (m : Model) (adoptMul risk_ : num) :
  List.length (benefitByYear (buildCashflows m adoptMul risk_))
  = (years (time m) + 1)%nat /\
  List.length (costByYear (buildCashflows m adoptMul risk_))
  = (years (time m) + 1)%nat.
Proof.
  unfold buildCashflows. cbn [benefitByYear costByYear].
  match goal with
  | |- context [fold_left (other_cost_item ?N ?by_) ?cs ?acc] =>
      pose proof (other_costs_lengths N by_ (N + 1) cs acc) as Ho;
      set (oc := fold_left (other_cost_item N by_) cs acc) in *
  end.
  destruct Ho as (H1 & H2 & H3 & H4).
  { unfold other_lengths; cbn [costByYear_ constrainedCostByYear_
      otherAnnualByYear otherConstrAnnualByYear].
    rewrite !add_each_year_length, !arr_add_length. unfold zeros.
    rewrite !repeat_length. auto. }
  rewrite !add_arrays_length, !arr_add_length, !add_each_year_length.
  unfold zeros at 1. rewrite repeat_length. auto.
Qed.

(** *** Constrained costs *)

Lemma treatments_all_constrained (m : Model) (adoptMul risk_ : num)
    (ts : list Treatment) :
  Forall (fun t => constrained t = true) ts ->
  forall acc,
  treatConstrAnnualCost acc = treatAnnualCost acc ->
  treatConstrCapitalY0 acc = treatCapitalY0 acc ->
  let tt := fold_left (treatment_item m adoptMul risk_) ts acc in
  treatConstrAnnualCost tt = treatAnnualCost tt /\
  treatConstrCapitalY0 tt = treatCapitalY0 tt.
Proof.
  induction 1 as [|t ts Ht _ IH]; intros acc H1 H2; cbn [fold_left]; auto.
  apply IH; unfold treatment_item;
    cbn [treatConstrAnnualCost treatAnnualCost treatConstrCapitalY0
         treatCapitalY0]; rewrite Ht; congruence.
Qed.

Lemma other_cost_item_agree (N : nat) (baseYear : Z) (acc : OtherTotals)
    (c : OtherCost) :
  c_constrained c = true ->
  other_agree acc -> other_agree (other_cost_item N baseYear acc c).
Proof.
  intros Hc H. unfold other_cost_item. rewrite Hc.
  destruct (String.eqb (c_type c) "annual").
  - generalize (year_range (year_or (c_startYear c) baseYear)
                  (year_or (c_endYear c) (year_or (c_startYear c) baseYear))).
    intros ys. revert acc H.
    induction ys as [|y ys IH]; intros acc H; cbn [fold_left]; auto.
    apply IH. destruct (_ && _); auto.
    destruct H as (H1 & H2 & H3). unfold other_agree.
    cbn [costByYear_ constrainedCostByYear_ otherAnnualByYear
         otherConstrAnnualByYear otherCapitalY0 otherConstrCapitalY0].
    rewrite H2. auto.
  - destruct (String.eqb (c_type c) "capital"); auto.
    destruct H as (H1 & H2 & H3).
    destruct (_ =? _)%Z; [|destruct (_ && _)]; unfold other_agree;
      cbn [costByYear_ constrainedCostByYear_ otherAnnualByYear
           otherConstrAnnualByYear otherCapitalY0 otherConstrCapitalY0];
      rewrite ?H1, ?H3; auto.
Qed.

Lemma other_costs_agree (N : nat) (baseYear : Z) (cs : list OtherCost) :
  Forall (fun c => c_constrained c = true) cs ->
  forall acc, other_agree acc ->
              other_agree (fold_left (other_cost_item N baseYear) cs acc).
Proof.
  induction 1 as [|c cs Hc _ IH]; intros acc H; cbn [fold_left]; auto.
  apply IH. apply other_cost_item_agree; auto.
Qed.

Lemma all_constrained_series (m : Model) (adoptMul risk_ : num) :
  Forall (fun t => constrained t = true) (treatments m) ->
  Forall (fun c => c_constrained c = true) (otherCosts m) ->
  constrainedCostByYear (buildCashflows m adoptMul risk_)
  = costByYear (buildCashflows m adoptMul risk_).
Proof.
  intros Ht Hc. unfold buildCashflows.
  cbn [costByYear constrainedCostByYear].
  destruct (treatments_all_constrained m adoptMul risk_ (treatments m) Ht
              {| annualBenefit := zero; treatAnnualCost := zero;
                 treatConstrAnnualCost := zero; treatCapitalY0 := zero;
                 treatConstrCapitalY0 := zero |} eq_refl eq_refl)
    as [E1 E2].
  rewrite E1, E2.
  match goal with
  | |- context [fold_left (other_cost_item ?N ?by_) ?cs ?acc] =>
      pose proof (other_costs_agree N by_ cs Hc acc) as Ho;
      set (oc := fold_left (other_cost_item N by_) cs acc) in *
  end.
  destruct Ho as (H1 & H2 & H3).
  { unfold other_agree;
      cbn [costByYear_ constrainedCostByYear_ otherAnnualByYear
           otherConstrAnnualByYear otherCapitalY0 otherConstrCapitalY0].
    auto. }
  rewrite H1, H2, H3. reflexivity.
Qed.

(** X8: when every treatment and every other cost is flagged as
    constrained, the constrained costs are all the costs, and the
    evaluation is the same whether the BCR mode is "constrained" or
    not. *)
Theorem all_constrained_modes_agree (pow_frac : num -> num -> num)
    (m : Model) (rate adoptMul risk_ : num) (mode : string) :
  Forall (fun t => constrained t = true) (treatments m) ->
  Forall (fun c => c_constrained c = true) (otherCosts m) ->
  let r := computeAll pow_frac m rate adoptMul risk_ mode in
  pvCostsConstrained r = pvCosts r /\
  computeAll pow_frac m rate adoptMul risk_ "constrained" = r.
Proof.
  intros Ht Hc r. unfold r, computeAll.
  rewrite (all_constrained_series m adoptMul risk_ Ht Hc).
  cbn [pvCostsConstrained pvCosts]. split; [reflexivity|].
  destruct (String.eqb mode "constrained"); reflexivity.
Qed.

Lemma all_constrained_modes_agree_witness :
  Forall (fun t => constrained t = true) (treatments unit_model) /\
  Forall (fun c => c_constrained c = true) (otherCosts unit_model) /\
  computeAll (fun _ _ => NaN) unit_model zero one zero "constrained"
  = computeAll (fun _ _ => NaN) unit_model zero one zero "all".
Proof.
  assert (H1 : Forall (fun t => constrained t = true) (treatments unit_model))
    by (repeat constructor).
  assert (H2 : Forall (fun c => c_constrained c = true) (otherCosts unit_model))
    by constructor.
  split; [exact H1|]. split; [exact H2|].
  apply (all_constrained_modes_agree (fun _ _ => NaN) unit_model zero one zero
           "all" H1 H2).
Defined.

Lemma zero_plus_zero : zero + zero = zero.
Proof. num_decide. Qed.

Lemma zeros_all_zero (k : nat) : all_zero (zeros k).
Proof. apply Forall_forall. intros x Hx. apply repeat_spec in Hx. auto. Qed.

Lemma arr_add_zero (i : nat) (a : list num) :
  all_zero a -> arr_add i zero a = a.
Proof.
  revert i. induction a as [|x a IH]; intros i H; [destruct i; reflexivity|].
  inversion H; subst. destruct i; cbn [arr_add].
  - rewrite zero_plus_zero. reflexivity.
  - rewrite IH; auto.
Qed.

Lemma add_each_year_zero (N : nat) (a : list num) :
  all_zero a -> add_each_year N zero a = a.
Proof.
  intros H. unfold add_each_year. generalize (seq 1 N). intros l.
  induction l as [|t l IH]; cbn [fold_left]; auto.
  rewrite arr_add_zero; auto.
Qed.

Lemma arr_get_zeros (t k : nat) : (t < k)%nat -> arr_get t (zeros k) = zero.
Proof.
  intros H. unfold arr_get, zeros. apply nth_repeat_lt. exact H.
Qed.

Lemma add_arrays_zeros (lo len k : nat) (a : list num) :
  (lo + len <= k)%nat -> all_zero a -> add_arrays lo len (zeros k) a = a.
Proof.
  intros Hk H. unfold add_arrays.
  assert (Hs : Forall (fun t => (t < k)%nat) (seq lo len)).
  { apply Forall_forall. intros t Ht. apply in_seq in Ht. lia. }
  induction Hs as [|t l Ht _ IH]; cbn [fold_left]; auto.
  rewrite arr_get_zeros by exact Ht. rewrite arr_add_zero; auto.
Qed.

Lemma treatments_none_constrained (m : Model) (adoptMul risk_ : num)
    (ts : list Treatment) :
  Forall (fun t => constrained t = false) ts ->
  forall acc,
  let tt := fold_left (treatment_item m adoptMul risk_) ts acc in
  treatConstrAnnualCost tt = treatConstrAnnualCost acc /\
  treatConstrCapitalY0 tt = treatConstrCapitalY0 acc.
Proof.
  induction 1 as [|t ts Ht _ IH]; intros acc; cbn [fold_left]; auto.
  destruct (IH (treatment_item m adoptMul risk_ acc t)) as [E1 E2].
  cbn zeta. rewrite E1, E2. unfold treatment_item.
  cbn [treatConstrAnnualCost treatConstrCapitalY0]. rewrite Ht. auto.
Qed.

Lemma other_cost_item_none (N : nat) (baseYear : Z) (acc : OtherTotals)
    (c : OtherCost) :
  c_constrained c = false ->
  other_constr (other_cost_item N baseYear acc c) = other_constr acc.
Proof.
  intros Hc. unfold other_cost_item. rewrite Hc.
  destruct (String.eqb (c_type c) "annual").
  - generalize (year_range (year_or (c_startYear c) baseYear)
                  (year_or (c_endYear c) (year_or (c_startYear c) baseYear))).
    intros ys. revert acc.
    induction ys as [|y ys IH]; intros acc; cbn [fold_left]; auto.
    rewrite IH. destruct (_ && _); reflexivity.
  - destruct (String.eqb (c_type c) "capital"); auto.
    destruct (_ =? _)%Z; [|destruct (_ && _)]; reflexivity.
Qed.

Lemma other_costs_none (N : nat) (baseYear : Z) (cs : list OtherCost) :
  Forall (fun c => c_constrained c = false) cs ->
  forall acc,
  other_constr (fold_left (other_cost_item N baseYear) cs acc)
  = other_constr acc.
Proof.
  induction 1 as [|c cs Hc _ IH]; intros acc; cbn [fold_left]; auto.
  rewrite IH. apply other_cost_item_none; auto.
Qed.

Lemma none_constrained_series (m : Model) (adoptMul risk_ : num) :
  Forall (fun t => constrained t = false) (treatments m) ->
  Forall (fun c => c_constrained c = false) (otherCosts m) ->
  constrainedCostByYear (buildCashflows m adoptMul risk_)
  = zeros (years (time m) + 1).
Proof.
  intros Ht Hc. unfold buildCashflows.
  cbn [constrainedCostByYear].
  destruct (treatments_none_constrained m adoptMul risk_ (treatments m) Ht
              {| annualBenefit := zero; treatAnnualCost := zero;
                 treatConstrAnnualCost := zero; treatCapitalY0 := zero;
                 treatConstrCapitalY0 := zero |})
    as [E1 E2].
  cbn [treatConstrAnnualCost treatConstrCapitalY0] in E1, E2.
  rewrite E1, E2.
  match goal with
  | |- context [fold_left (other_cost_item ?N ?by_) ?cs ?acc] =>
      pose proof (other_costs_none N by_ cs Hc acc) as Ho;
      set (oc := fold_left (other_cost_item N by_) cs acc) in *
  end.
  unfold other_constr in Ho.
  unfold constrainedCostByYear_ at 2, otherConstrAnnualByYear at 2,
         otherConstrCapitalY0 at 2 in Ho.
  injection Ho as H1 H2 H3. rewrite H1, H2, H3.
  pose proof (zeros_all_zero (years (time m) + 1)) as Hz.
  fold (arr_add 0 zero (zeros (years (time m) + 1))).
  rewrite (arr_add_zero 0 (zeros _)) by exact Hz.
  rewrite add_each_year_zero by exact Hz.
  rewrite arr_add_zero by exact Hz.
  apply add_arrays_zeros; [lia|exact Hz].
Qed.

Lemma zero_div (x : num) : zero / x = zero \/ zero / x = NaN.
Proof.
  destruct x as [b| | |]; try (left; reflexivity); try (right; reflexivity).
  unfold zero, ofZ, ofQ, div. change (Q2Qc (inject_Z 0)) with (Q2Qc 0).
  destruct (qeqb b (Q2Qc 0)) eqn:E.
  - right. reflexivity.
  - left. f_equal. field.
    intros H. apply qeqb_eq in H. congruence.
Qed.

Lemma discounted_zeros (b : num) (l : list num) :
  all_zero l ->
  forall t acc, acc = zero \/ acc = NaN ->
  discounted_sum b t l acc = zero \/ discounted_sum b t l acc = NaN.
Proof.
  induction 1 as [|x l Hx _ IH]; intros t acc Ha; cbn [discounted_sum]; auto.
  apply IH. subst x.
  destruct (zero_div (npow b t)) as [-> | ->], Ha as [-> | ->];
    rewrite ?zero_plus_zero; auto.
Qed.

(** X9: when no treatment and no other cost is flagged as constrained,
    the BCR of the "constrained" mode is undefined (NaN) at every rate:
    the constrained costs are zero in every year. *)
Theorem unconstrained_costs_leave_no_ratio (pow_frac : num -> num -> num)
    (m : Model) (rate adoptMul risk_ : num) :
  Forall (fun t => constrained t = false) (treatments m) ->
  Forall (fun c => c_constrained c = false) (otherCosts m) ->
  constrainedCostByYear (buildCashflows m adoptMul risk_)
  = zeros (years (time m) + 1) /\
  bcr (computeAll pow_frac m rate adoptMul risk_ "constrained") = NaN.
Proof.
  intros Ht Hc. split; [apply none_constrained_series; assumption|].
  unfold computeAll. cbn [bcr String.eqb Ascii.eqb Bool.eqb].
  rewrite (none_constrained_series m adoptMul risk_ Ht Hc).
  unfold presentValue at 1.
  destruct (discounted_zeros (one + rate / ofZ 100)
              (zeros (years (time m) + 1)) (zeros_all_zero _) 0 zero)
    as [-> | ->]; auto.
Qed.

Lemma unconstrained_costs_leave_no_ratio_witness :
  Forall (fun t => constrained t = false) (treatments open_model) /\
  Forall (fun c => c_constrained c = false) (otherCosts open_model) /\
  bcr (computeAll (fun _ _ => NaN) open_model zero one zero "constrained")
  = NaN.
Proof.
  assert (H1 : Forall (fun t => constrained t = false) (treatments open_model))
    by (repeat constructor).
  assert (H2 : Forall (fun c => c_constrained c = false) (otherCosts open_model))
    by constructor.
  split; [exact H1|]. split; [exact H2|].
  apply (unconstrained_costs_leave_no_ratio (fun _ _ => NaN) open_model zero
           one zero H1 H2).
Defined.

(** *** Discounting finite series *)

Lemma add_zero_r (x : num) : x + zero = x.
Proof.
  destruct x; try reflexivity. unfold zero, ofZ, ofQ, add. f_equal.
  change (Q2Qc (inject_Z 0)) with 0%Qc. ring.
Qed.

Lemma add_zero_l (x : num) : zero + x = x.
Proof.
  destruct x; try reflexivity. unfold zero, ofZ, ofQ, add. f_equal.
  change (Q2Qc (inject_Z 0)) with 0%Qc. ring.
Qed.

Lemma npow_Fin (b : Qc) (n : nat) : npow (Fin b) n = Fin (b ^ n)%Qc.
Proof.
  induction n as [|n IH]; cbn [npow Qcpower].
  - reflexivity.
  - rewrite IH. reflexivity.
Qed.

Lemma Qcpower_nonzero (b : Qc) (n : nat) :
  b <> Q2Qc 0 -> (b ^ n)%Qc <> Q2Qc 0.
Proof.
  intros Hb. induction n as [|n IH]; cbn [Qcpower].
  - discriminate.
  - intros H. apply Qcmult_integral in H. destruct H; auto.
Qed.

Lemma div_Fin (a b : Qc) :
  b <> Q2Qc 0 -> Fin a / Fin b = Fin (a / b)%Qc.
Proof.
  intros Hb. unfold div.
  destruct (qeqb b (Q2Qc 0)) eqn:E; auto.
  apply qeqb_eq in E. congruence.
Qed.

Lemma one_div_Fin (p : Qc) : p <> Q2Qc 0 -> one / Fin p = Fin (1 / p)%Qc.
Proof. intros Hp. unfold one, ofZ, ofQ. apply div_Fin. exact Hp. Qed.

(** The discounting base [1 + rate / 100] of a finite rate other than
    -100 is a number other than zero. *)
Lemma base_nonzero (q : Qc) :
  Fin q <> ofZ (-100) ->
  exists b, one + Fin q / ofZ 100 = Fin b /\ b <> Q2Qc 0.
Proof.
  intros Hq. unfold one, ofZ, ofQ. rewrite div_Fin by discriminate.
  cbn [add]. eexists. split; [reflexivity|].
  intros H. apply Hq. unfold ofZ, ofQ. f_equal.
  change (Q2Qc (inject_Z 1)) with 1%Qc in H.
  change (Q2Qc 0) with 0%Qc in H.
  assert (Hh : Q2Qc (inject_Z 100) <> 0%Qc) by discriminate.
  assert (Hm : Q2Qc (inject_Z (-100)) = (0 * Q2Qc (inject_Z 100)
                                         - Q2Qc (inject_Z 100))%Qc)
    by (apply Qc_is_canon; reflexivity).
  rewrite Hm, <- H. revert Hh. generalize (Q2Qc (inject_Z 100)). intros h Hh.
  field. exact Hh.
Qed.

Lemma map_seq_combine (B C : list num) :
  forall s n, List.length B = n -> List.length C = n ->
  map (fun i => arr_get (i - s) B - arr_get (i - s) C) (seq s n)
  = map (fun p => fst p - snd p) (combine B C).
Proof.
  revert C. induction B as [|x B IH]; intros C s n HB HC.
  - cbn in HB. subst n. reflexivity.
  - destruct C as [|y C]; [cbn in *; congruence|].
    cbn [List.length] in HB, HC. subst n. injection HC as HC.
    cbn [seq map combine fst snd]. rewrite Nat.sub_diag. f_equal.
    rewrite <- (IH C (S s) (List.length B) eq_refl HC).
    apply map_ext_in. intros i Hi. apply in_seq in Hi.
    replace (i - s)%nat with (S (i - S s)) by lia. reflexivity.
Qed.

Lemma discounted_difference (b : Qc) (B C : list num) :
  b <> Q2Qc 0 ->
  forallb isFinite B = true -> forallb isFinite C = true ->
  List.length B = List.length C ->
  forall t x y,
  discounted_sum (Fin b) t (map (fun p => fst p - snd p) (combine B C))
                 (Fin x - Fin y)
  = discounted_sum (Fin b) t B (Fin x) - discounted_sum (Fin b) t C (Fin y).
Proof.
  intros Hb. revert C.
  induction B as [|u B IH]; intros [|v C] HB HC HL t x y;
    try discriminate; cbn [combine map discounted_sum fst snd].
  - reflexivity.
  - cbn [forallb] in HB, HC. apply andb_true_iff in HB, HC.
    destruct HB as [Hu HB], HC as [Hv HC].
    destruct u as [u| | |], v as [v| | |]; try discriminate.
    rewrite !npow_Fin.
    pose proof (Qcpower_nonzero b t Hb) as Hp.
    cbn [sub neg add]. rewrite !div_Fin by exact Hp. cbn [add].
    specialize (IH C HB HC (eq_add_S _ _ HL) (S t)
                   (x + u / b ^ t)%Qc (y + v / b ^ t)%Qc).
    cbn [sub neg add] in IH. rewrite <- IH. f_equal. f_equal.
    field. exact Hp.
Qed.

(** X10: at a finite discount rate other than -100, when the benefits
    and the costs of every year are finite, the NPV that [computeAll]
    reports (present value of benefits less present value of costs) is
    the present value of the net cash flow it reports, which is the
    function whose root [irr] seeks. *)
Theorem npv_is_discounted_net_flow (pow_frac : num -> num -> num)
    (m : Model) (rate adoptMul risk_ : num) (mode : string) :
  let e := computeAll pow_frac m rate adoptMul risk_ mode in
  isFinite rate = true ->
  rate <> ofZ (-100) ->
  forallb isFinite (r_benefitByYear e) = true ->
  forallb isFinite (r_costByYear e) = true ->
  npv e = presentValue (r_cf e) rate /\
  npv e = npvAt (r_cf e) (rate / ofZ 100).
Proof.
  intros e Hr Hq HB HC.
  assert (E : npv e = presentValue (r_cf e) rate); [|split; [exact E|exact E]].
  destruct rate as [q| | |]; try discriminate.
  destruct (base_nonzero q Hq) as [b [Eb Hb]].
  unfold e, computeAll in *. cbn [npv r_cf r_benefitByYear r_costByYear] in *.
  destruct (cashflow_lengths m adoptMul risk_) as [L1 L2].
  unfold presentValue. rewrite Eb.
  unfold buildCashflows at 3. cbn [cf].
  match goal with
  | |- context [map (fun i => arr_get i ?B - arr_get i ?C) (seq 0 ?n)] =>
      change (map (fun i => arr_get i B - arr_get i C) (seq 0 n))
        with (map (fun i =>
                     arr_get i (benefitByYear (buildCashflows m adoptMul risk_))
                     - arr_get i (costByYear (buildCashflows m adoptMul risk_)))
                  (seq 0 n))
  end.
  set (B := benefitByYear (buildCashflows m adoptMul risk_)) in *.
  set (C := costByYear (buildCashflows m adoptMul risk_)) in *.
  assert (Hm : map (fun i => arr_get i B - arr_get i C)
                   (seq 0 (years (time m) + 1))
               = map (fun p => fst p - snd p) (combine B C)).
  { rewrite <- (map_seq_combine B C 0 _ L1 L2).
    apply map_ext. intros i. rewrite Nat.sub_0_r. reflexivity. }
  rewrite Hm.
  assert (Hz : zero = Fin (Q2Qc 0) - Fin (Q2Qc 0)) by num_decide.
  rewrite Hz at 3.
  rewrite discounted_difference; auto; try congruence.
Qed.

Lemma npv_is_discounted_net_flow_witness :
  let e := computeAll (fun _ _ => NaN) unit_model (ofZ 7) one zero "all" in
  isFinite (ofZ 7) = true /\
  ofZ 7 <> ofZ (-100) /\
  forallb isFinite (r_benefitByYear e) = true /\
  forallb isFinite (r_costByYear e) = true /\
  npv e = presentValue (r_cf e) (ofZ 7).
Proof.
  assert (H2 : ofZ 7 <> ofZ (-100)) by discriminate.
  split; [reflexivity|]. split; [exact H2|].
  split; [reflexivity|]. split; [reflexivity|].
  apply (npv_is_discounted_net_flow (fun _ _ => NaN) unit_model (ofZ 7) one
           zero "all" eq_refl H2 eq_refl eq_refl).
Defined.

(** *** Payback *)

Lemma discounted_sum_app (b : num) (l1 l2 : list num) :
  forall t acc,
  discounted_sum b t (l1 ++ l2) acc
  = discounted_sum b (t + List.length l1) l2 (discounted_sum b t l1 acc).
Proof.
  induction l1 as [|x l1 IH]; intros t acc; cbn [app discounted_sum List.length].
  - rewrite Nat.add_0_r. reflexivity.
  - rewrite IH. f_equal. lia.
Qed.

Lemma firstn_snoc {A : Type} (pre : list A) (v : A) (rest : list A) :
  firstn (S (List.length pre)) (pre ++ v :: rest) = (pre ++ [v])%list.
Proof.
  induction pre as [|x pre IH]; cbn [List.length app].
  - reflexivity.
  - rewrite firstn_cons. f_equal. exact IH.
Qed.

Lemma presentValue_snoc (pre : list num) (v ratePct : num) :
  presentValue (pre ++ [v]) ratePct
  = presentValue pre ratePct
    + v / npow (one + ratePct / ofZ 100) (List.length pre).
Proof.
  unfold presentValue. rewrite discounted_sum_app. reflexivity.
Qed.

Lemma payback_from_first (ratePct : num) (rest : list num) :
  forall pre,
  payback_from (List.length pre) ratePct rest
               (presentValue pre ratePct)
  = first_index
      (fun t => discounted_so_far (pre ++ rest) ratePct t >=? zero)
      (List.length pre) (List.length rest).
Proof.
  induction rest as [|v rest IH]; intros pre;
    cbn [payback_from List.length first_index]; [reflexivity|].
  unfold discounted_so_far at 1. rewrite firstn_snoc.
  rewrite presentValue_snoc.
  destruct (_ >=? zero); [reflexivity|].
  specialize (IH (pre ++ [v])%list).
  rewrite length_app, Nat.add_1_r in IH. rewrite <- app_assoc in IH.
  cbn [app] in IH. rewrite <- IH. f_equal.
  symmetry. apply presentValue_snoc.
Qed.

Lemma first_index_found (p : nat -> bool) :
  forall count from,
  match first_index p from count with
  | Some t => (from <= t < from + count)%nat /\ p t = true /\
              forall j, (from <= j < t)%nat -> p j = false
  | None => forall j, (from <= j < from + count)%nat -> p j = false
  end.
Proof.
  induction count as [|c IH]; intros from; cbn [first_index].
  - intros j Hj. lia.
  - destruct (p from) eqn:E.
    + repeat split; auto; try lia.
    + specialize (IH (S from)). destruct (first_index p (S from) c) as [t|].
      * destruct IH as (H1 & H2 & H3). repeat split; auto; try lia.
        intros j Hj. destruct (Nat.eq_dec j from) as [->|Hne]; auto.
        apply H3. lia.
      * intros j Hj. destruct (Nat.eq_dec j from) as [->|Hne]; auto.
        apply IH. lia.
Qed.

(** X11: [payback] returns the first year at which the present value of
    the flows up to that year is not negative, and [null] exactly when
    there is no such year in the series. *)
Theorem payback_first_nonnegative (cf : list num) (ratePct : num) :
  match payback cf ratePct with
  | Some t =>
      (t < List.length cf)%nat /\
      (discounted_so_far cf ratePct t >=? zero) = true /\
      forall j, (j < t)%nat ->
                (discounted_so_far cf ratePct j >=? zero) = false
  | None =>
      forall j, (j < List.length cf)%nat ->
                (discounted_so_far cf ratePct j >=? zero) = false
  end.
Proof.
  unfold payback.
  pose proof (payback_from_first ratePct cf []) as E.
  cbn [List.length app] in E. unfold presentValue at 1 in E.
  cbn [discounted_sum] in E. rewrite E.
  pose proof (first_index_found
                (fun t => discounted_so_far cf ratePct t >=? zero)
                (List.length cf) 0) as H.
  destruct (first_index _ 0 (List.length cf)) as [t|].
  - destruct H as (H1 & H2 & H3). repeat split; auto; try lia.
    intros j Hj. apply H3. lia.
  - intros j Hj. apply H. lia.
Qed.

(** *** Rates of return *)

Lemma mirr_loop_no_outflow (fr rr : num) (n : nat) (cf : list num) :
  existsb (fun v => v <? zero) cf = false ->
  forall t pvNeg fvPos,
  fst (mirr_loop t n fr rr cf pvNeg fvPos) = pvNeg.
Proof.
  induction cf as [|v cf IH]; cbn [existsb mirr_loop]; intros H t pvNeg fvPos.
  - reflexivity.
  - apply orb_false_iff in H. destruct H as [Hv H].
    rewrite IH by exact H. rewrite Hv. reflexivity.
Qed.

(** X12: a series without a negative flow has neither an IRR nor a
    MIRR: both are NaN, whatever the rates and the other flows. *)
Theorem no_outflow_no_rate_of_return (pow_frac : num -> num -> num)
    (cf : list num) (financeRatePct reinvestRatePct : num) :
  existsb (fun v => v <? zero) cf = false ->
  irr cf = NaN /\ mirr pow_frac cf financeRatePct reinvestRatePct = NaN.
Proof.
  intros H. split.
  - unfold irr. rewrite H. rewrite orb_true_r. reflexivity.
  - unfold mirr.
    pose proof (mirr_loop_no_outflow (financeRatePct / ofZ 100)
                  (reinvestRatePct / ofZ 100)
                  (Z.to_nat (Z.of_nat (List.length cf) - 1)) cf H 0 zero zero)
      as E.
    destruct (mirr_loop _ _ _ _ cf zero zero) as [pvNeg fvPos].
    cbn [fst] in E. subst pvNeg. reflexivity.
Qed.

Lemma no_outflow_no_rate_of_return_witness :
  existsb (fun v => v <? zero) [ofZ 10; ofZ 20] = false /\
  irr [ofZ 10; ofZ 20] = NaN /\
  mirr (fun _ _ => NaN) [ofZ 10; ofZ 20] (ofZ 6) (ofZ 4) = NaN.
Proof.
  split; [reflexivity|].
  apply (no_outflow_no_rate_of_return (fun _ _ => NaN) [ofZ 10; ofZ 20]
           (ofZ 6) (ofZ 4)).
  reflexivity.
Defined.

(** *** The annuity factor *)

Lemma gsum_snoc (b : Qc) (n : nat) :
  forall t0, gsum b t0 (S n) = (gsum b t0 n + 1 / b ^ (t0 + n))%Qc.
Proof.
  induction n as [|n IH]; intros t0.
  - cbn [gsum]. rewrite Nat.add_0_r. ring.
  - change (gsum b t0 (S (S n))) with (1 / b ^ t0 + gsum b (S t0) (S n))%Qc.
    rewrite IH. cbn [gsum]. replace (S t0 + n)%nat with (t0 + S n)%nat by lia.
    ring.
Qed.

Lemma discounted_constant (b a : Qc) (n : nat) :
  b <> Q2Qc 0 ->
  forall t0 c,
  discounted_sum (Fin b) t0 (repeat (Fin a) n) (Fin c)
  = Fin (c + a * gsum b t0 n).
Proof.
  intros Hb. induction n as [|n IH]; intros t0 c;
    cbn [repeat discounted_sum gsum].
  - f_equal. ring.
  - rewrite npow_Fin, div_Fin by (apply Qcpower_nonzero; exact Hb).
    cbn [add]. rewrite IH. f_equal. field.
    apply Qcpower_nonzero. exact Hb.
Qed.

Lemma gsum_closed (r : Qc) (n : nat) :
  r <> 0%Qc -> (1 + r)%Qc <> 0%Qc ->
  gsum (1 + r) 1 n = ((1 - 1 / (1 + r) ^ n) / r)%Qc.
Proof.
  intros Hr Hb. induction n as [|n IH].
  - cbn [gsum Qcpower]. field. repeat split; try assumption; discriminate.
  - rewrite gsum_snoc, IH. cbn [Nat.add Qcpower].
    pose proof (Qcpower_nonzero (1 + r) n Hb) as Hp.
    change (Q2Qc 0) with 0%Qc in Hp.
    field. repeat split; try assumption; discriminate.
Qed.

Lemma Qcpower_one (n : nat) : (1 ^ n = 1)%Qc.
Proof.
  induction n as [|n IH]; cbn [Qcpower]; [reflexivity|]. rewrite IH. ring.
Qed.

Lemma ofNat_S (n : nat) :
  Q2Qc (inject_Z (Z.of_nat (S n))) = (1 + Q2Qc (inject_Z (Z.of_nat n)))%Qc.
Proof.
  apply Qc_is_canon. unfold Qcplus. cbn [this Q2Qc].
  rewrite !Qred_correct. rewrite Nat2Z.inj_succ. unfold Z.succ.
  rewrite inject_Z_plus. change (inject_Z 1) with 1%Q. ring.
Qed.

Lemma gsum_one (n : nat) :
  forall t0, gsum 1 t0 n = Q2Qc (inject_Z (Z.of_nat n)).
Proof.
  induction n as [|n IH]; intros t0; cbn [gsum].
  - reflexivity.
  - rewrite IH, ofNat_S, Qcpower_one. field. discriminate.
Qed.

(** The annuity factor is the sum of the discount factors of years 1
    to N. *)
Lemma annuity_gsum (N : nat) (q : Qc) :
  Fin q <> ofZ (-100) ->
  exists b, one + Fin q / ofZ 100 = Fin b /\ b <> Q2Qc 0 /\
            annuityFactor N (Fin q) = Fin (gsum b 1 N).
Proof.
  intros Hq. destruct (base_nonzero q Hq) as [b [Eb Hb]].
  exists b. split; [exact Eb|]. split; [exact Hb|].
  unfold annuityFactor, pow_neg. cbn zeta.
  assert (Er : Fin q / ofZ 100 = Fin (q / Q2Qc (inject_Z 100))%Qc)
    by (unfold ofZ, ofQ; apply div_Fin; discriminate).
  rewrite Er in Eb |- *.
  set (r := (q / Q2Qc (inject_Z 100))%Qc) in *.
  unfold one, ofZ, ofQ in Eb. cbn [add] in Eb. injection Eb as Eb.
  change (Q2Qc (inject_Z 1)) with 1%Qc in Eb.
  change (Q2Qc 0) with 0%Qc in Hb.
  unfold eqb, zero, ofZ, ofQ.
  destruct (qeqb r (Q2Qc (inject_Z 0))) eqn:E.
  - apply qeqb_eq in E. change (Q2Qc (inject_Z 0)) with 0%Qc in E.
    assert (Hb1 : b = 1%Qc) by (rewrite <- Eb, E; ring).
    rewrite Hb1, gsum_one. reflexivity.
  - assert (Hr : r <> 0%Qc).
    { intros H. apply not_true_iff_false in E. apply E. apply qeqb_eq.
      exact H. }
    unfold one, ofZ, ofQ. cbn [add]. change (Q2Qc (inject_Z 1)) with 1%Qc.
    rewrite Eb. rewrite npow_Fin.
    rewrite div_Fin by (apply Qcpower_nonzero; exact Hb).
    cbn [sub neg add]. rewrite div_Fin by exact Hr.
    f_equal. subst b. rewrite gsum_closed by assumption.
    pose proof (Qcpower_nonzero _ N Hb) as Hp.
    field. repeat split; try assumption; discriminate.
Qed.

Lemma discounted_head (b : Qc) (k a : Qc) (n : nat) :
  b <> Q2Qc 0 ->
  discounted_sum (Fin b) 0 (Fin k :: repeat (Fin a) n) zero
  = Fin (k + a * gsum b 1 n).
Proof.
  intros Hb. cbn [discounted_sum npow]. unfold zero, one, ofZ, ofQ.
  rewrite div_Fin by discriminate. cbn [add].
  rewrite discounted_constant by exact Hb. f_equal.
  change (Q2Qc (inject_Z 0)) with 0%Qc.
  change (Q2Qc (inject_Z 1)) with 1%Qc. field. discriminate.
Qed.

Lemma discounted_head0 (b a : Qc) (n : nat) :
  b <> Q2Qc 0 ->
  discounted_sum (Fin b) 0 (zero :: repeat (Fin a) n) zero
  = Fin (a * gsum b 1 n).
Proof.
  intros Hb. unfold zero at 1, ofZ, ofQ. rewrite discounted_head by exact Hb.
  f_equal. change (Q2Qc (inject_Z 0)) with 0%Qc. ring.
Qed.

(** X13: at a finite rate other than -100, [annuityFactor(N, rate)] is
    the present value of one unit received in each of the years 1 to N,
    as [presentValue] discounts it; this covers the rate 0, where the
    factor is N. *)
Theorem annuity_factor_discounts_unit_stream (N : nat) (rate : num) :
  isFinite rate = true ->
  rate <> ofZ (-100) ->
  annuityFactor N rate = presentValue (zero :: repeat one N) rate.
Proof.
  intros Hf Hr. destruct rate as [q| | |]; try discriminate.
  destruct (annuity_gsum N q Hr) as [b [Eb [Hb ->]]].
  unfold presentValue. rewrite Eb.
  unfold zero at 1, one, ofZ, ofQ. rewrite discounted_head by exact Hb.
  f_equal. change (Q2Qc (inject_Z 0)) with 0%Qc.
  change (Q2Qc (inject_Z 1)) with 1%Qc. ring.
Qed.

Lemma annuity_factor_discounts_unit_stream_witness :
  isFinite (ofZ 5) = true /\ ofZ 5 <> ofZ (-100) /\
  annuityFactor 3 (ofZ 5) = presentValue (zero :: repeat one 3) (ofZ 5).
Proof.
  assert (H2 : ofZ 5 <> ofZ (-100)) by discriminate.
  split; [reflexivity|]. split; [exact H2|].
  apply (annuity_factor_discounts_unit_stream 3 (ofZ 5) eq_refl H2).
Defined.

Lemma discount_loop (b : Qc) (n : nat) :
  b <> Q2Qc 0 ->
  forall t0 c,
  fold_left (fun sum t => sum + one / npow (Fin b) t) (seq t0 n) (Fin c)
  = Fin (c + gsum b t0 n).
Proof.
  intros Hb. induction n as [|n IH]; intros t0 c; cbn [seq fold_left gsum].
  - f_equal. ring.
  - rewrite npow_Fin.
    rewrite one_div_Fin by (apply Qcpower_nonzero; exact Hb).
    cbn [add]. rewrite IH. f_equal. ring.
Qed.

(** X17: at a finite rate other than -100 and for every whole number of
    years, the loop of [discountFactorSum] (trial comparison) and the
    closed form of [annuityFactor] (decision aid) give the same
    factor. *)
Theorem discount_loop_is_annuity_factor (rate : num) (N : nat) :
  isFinite rate = true ->
  rate <> ofZ (-100) ->
  Plot.discountFactorSum rate (Z.of_nat N) = annuityFactor N rate.
Proof.
  intros Hf Hr. destruct rate as [q| | |]; try discriminate.
  destruct (annuity_gsum N q Hr) as [b [Eb [Hb EA]]].
  rewrite EA. unfold Plot.discountFactorSum.
  destruct N as [|N].
  - reflexivity.
  - destruct (Z.of_nat (S N) <=? 0)%Z eqn:E; [apply Z.leb_le in E; lia|].
    rewrite Nat2Z.id. rewrite Eb.
    destruct (Fin q / ofZ 100 =? zero) eqn:Ez.
    + assert (Hb1 : b = 1%Qc).
      { destruct (Fin q / ofZ 100) as [r| | |] eqn:Er; try discriminate.
        unfold eqb, zero, ofZ, ofQ in Ez. apply qeqb_eq in Ez. subst r.
        unfold one, ofZ, ofQ in Eb. cbn [add] in Eb. injection Eb as Eb.
        rewrite <- Eb. apply Qc_is_canon. reflexivity. }
      rewrite Hb1, gsum_one. reflexivity.
    + unfold zero at 1, ofZ, ofQ. rewrite discount_loop by exact Hb.
      f_equal. change (Q2Qc (inject_Z 0)) with 0%Qc. ring.
Qed.

Lemma discount_loop_is_annuity_factor_witness :
  isFinite (ofZ 5) = true /\ ofZ 5 <> ofZ (-100) /\
  Plot.discountFactorSum (ofZ 5) (Z.of_nat 10) = annuityFactor 10 (ofZ 5).
Proof.
  assert (H2 : ofZ 5 <> ofZ (-100)) by discriminate.
  split; [reflexivity|]. split; [exact H2|].
  apply (discount_loop_is_annuity_factor (ofZ 5) 10 eq_refl H2).
Defined.

(** *** Per-treatment metrics *)

(** X14: when the rate is finite and not -100 and the annual benefit,
    the annual cost and the capital cost of a treatment are finite, the
    NPV that [computeSingleTreatmentMetrics] obtains from the annuity
    factor is the present value of the cash flow it hands to [irr] and
    [payback]. *)
Theorem per_treatment_npv_is_discounted_flow (pow_frac : num -> num -> num)
    (m : Model) (t : Treatment) (rate : num) (N : nat) (adoptMul risk_ : num) :
  isFinite rate = true ->
  rate <> ofZ (-100) ->
  isFinite (treatment_annualBen m t adoptMul risk_) = true ->
  isFinite (treatment_annualCost t) = true ->
  isFinite (or0 (capitalCost t)) = true ->
  t_npv (computeSingleTreatmentMetrics pow_frac m t rate N adoptMul risk_)
  = presentValue (treatment_cf m t N adoptMul risk_) rate.
Proof.
  intros Hf Hr HB HC HK. destruct rate as [q| | |]; try discriminate.
  destruct (annuity_gsum N q Hr) as [b [Eb [Hb EA]]].
  unfold computeSingleTreatmentMetrics, treatment_cf. cbn [t_npv].
  rewrite EA. unfold presentValue. rewrite Eb.
  destruct (treatment_annualBen m t adoptMul risk_) as [a| | |];
    try discriminate.
  destruct (treatment_annualCost t) as [c| | |]; try discriminate.
  destruct (or0 (capitalCost t)) as [k| | |]; try discriminate.
  cbn [neg sub add mul]. rewrite discounted_head by exact Hb.
  f_equal. ring.
Qed.

Lemma per_treatment_npv_is_discounted_flow_witness :
  isFinite (ofZ 7) = true /\ ofZ 7 <> ofZ (-100) /\
  isFinite (treatment_annualBen unit_model unit_treatment one zero) = true /\
  isFinite (treatment_annualCost unit_treatment) = true /\
  isFinite (or0 (capitalCost unit_treatment)) = true /\
  t_npv (computeSingleTreatmentMetrics (fun _ _ => NaN) unit_model
           unit_treatment (ofZ 7) 1 one zero)
  = presentValue (treatment_cf unit_model unit_treatment 1 one zero) (ofZ 7).
Proof.
  assert (H2 : ofZ 7 <> ofZ (-100)) by discriminate.
  split; [reflexivity|]. split; [exact H2|].
  split; [reflexivity|]. split; [reflexivity|]. split; [reflexivity|].
  apply (per_treatment_npv_is_discounted_flow (fun _ _ => NaN) unit_model
           unit_treatment (ofZ 7) 1 one zero eq_refl H2 eq_refl eq_refl
           eq_refl).
Defined.

Lemma arr_add_nothing (i : nat) (a : list num) : arr_add i zero a = a.
Proof.
  revert i. induction a as [|x a IH]; intros i; [destruct i; reflexivity|].
  destruct i; cbn [arr_add].
  - rewrite add_zero_r. reflexivity.
  - rewrite IH. reflexivity.
Qed.

Lemma add_arrays_nothing (lo len k : nat) (a : list num) :
  (lo + len <= k)%nat -> add_arrays lo len (zeros k) a = a.
Proof.
  intros Hk. unfold add_arrays.
  assert (Hs : Forall (fun t => (t < k)%nat) (seq lo len)).
  { apply Forall_forall. intros t Ht. apply in_seq in Ht. lia. }
  induction Hs as [|t l Ht _ IH]; cbn [fold_left]; auto.
  unfold arr_get, zeros. rewrite nth_repeat_lt by exact Ht.
  fold zero. rewrite arr_add_nothing. exact IH.
Qed.

Lemma fold_arr_add_shift (v x : num) (ts : list nat) :
  forall l,
  fold_left (fun a t => arr_add t v a) (map S ts) (x :: l)
  = x :: fold_left (fun a t => arr_add t v a) ts l.
Proof.
  induction ts as [|t ts IH]; intros l; cbn [map fold_left arr_add]; auto.
Qed.

Lemma fold_arr_add_all (v : num) (l : list num) :
  fold_left (fun a t => arr_add t v a) (seq 0 (List.length l)) l
  = map (fun y => y + v) l.
Proof.
  induction l as [|x l IH]; cbn [List.length seq fold_left map arr_add]; auto.
  rewrite <- seq_shift, fold_arr_add_shift, IH. reflexivity.
Qed.

Lemma add_each_year_zeros (N : nat) (x v : num) :
  add_each_year N v (x :: zeros N) = x :: repeat v N.
Proof.
  unfold add_each_year. rewrite <- seq_shift, fold_arr_add_shift. f_equal.
  pose proof (fold_arr_add_all v (zeros N)) as H.
  unfold zeros in *. rewrite repeat_length in H. rewrite H.
  rewrite map_repeat. rewrite add_zero_l. reflexivity.
Qed.

Lemma zeros_S (N : nat) : zeros (N + 1) = zero :: zeros N.
Proof. rewrite Nat.add_1_r. reflexivity. Qed.

Lemma combine_repeat {A B : Type} (a : A) (b : B) (n : nat) :
  combine (repeat a n) (repeat b n) = repeat (a, b) n.
Proof.
  induction n as [|n IH]; cbn; [reflexivity|]. rewrite IH. reflexivity.
Qed.

(** The series of a project made of one treatment and nothing else. *)
Lemma lone_treatment_flows (m : Model) (t : Treatment) (adoptMul risk_ : num) :
  treatments m = [t] -> benefits m = [] -> otherCosts m = [] ->
  let N := years (time m) in
  let f := buildCashflows m adoptMul risk_ in
  benefitByYear f = zero :: repeat (treatment_annualBen m t adoptMul risk_) N /\
  costByYear f = or0 (capitalCost t) :: repeat (treatment_annualCost t) N /\
  cf f = treatment_cf m t N adoptMul risk_ /\
  annualGM f = treatment_annualBen m t adoptMul risk_ - treatment_annualCost t.
Proof.
  intros Ht Hb Hc N f.
  set (tt := treatment_item m adoptMul risk_
               {| annualBenefit := zero; treatAnnualCost := zero;
                  treatConstrAnnualCost := zero; treatCapitalY0 := zero;
                  treatConstrCapitalY0 := zero |} t).
  assert (T1 : annualBenefit tt = treatment_annualBen m t adoptMul risk_).
  { unfold tt, treatment_item. cbn [annualBenefit]. apply add_zero_l. }
  assert (T2 : treatAnnualCost tt = treatment_annualCost t).
  { unfold tt, treatment_item. cbn [treatAnnualCost]. apply add_zero_l. }
  assert (T3 : treatCapitalY0 tt = or0 (capitalCost t)).
  { unfold tt, treatment_item. cbn [treatCapitalY0]. apply add_zero_l. }
  assert (EB : benefitByYear f
               = zero :: repeat (treatment_annualBen m t adoptMul risk_) N).
  { unfold f, buildCashflows. cbn [benefitByYear]. fold N.
    rewrite Ht. cbn [fold_left]. fold tt. rewrite T1.
    unfold additionalBenefitsSeries. rewrite Hb. cbn [fold_left].
    unfold zeros at 1. rewrite repeat_length. fold (zeros (N + 1)).
    rewrite add_arrays_nothing by lia.
    rewrite zeros_S, add_each_year_zeros. reflexivity. }
  assert (EC : costByYear f
               = or0 (capitalCost t) :: repeat (treatment_annualCost t) N).
  { unfold f, buildCashflows. cbn [costByYear]. fold N.
    rewrite Ht, Hc. cbn [fold_left]. fold tt.
    unfold costByYear_ at 1, otherAnnualByYear at 1, otherCapitalY0 at 1.
    rewrite T2, T3.
    rewrite add_arrays_nothing by lia. rewrite arr_add_nothing.
    rewrite zeros_S.
    change (arr_add 0 (or0 (capitalCost t)) (zero :: zeros N))
      with ((zero + or0 (capitalCost t)) :: zeros N).
    rewrite add_each_year_zeros.
    rewrite !add_zero_l. reflexivity. }
  split; [exact EB|]. split; [exact EC|]. split.
  - assert (E : cf f = map (fun i => arr_get i (benefitByYear f)
                                     - arr_get i (costByYear f))
                           (seq 0 (N + 1))) by reflexivity.
    rewrite E.
    assert (Hm : map (fun i => arr_get i (benefitByYear f)
                               - arr_get i (costByYear f)) (seq 0 (N + 1))
                 = map (fun p => fst p - snd p)
                       (combine (benefitByYear f) (costByYear f))).
    { rewrite <- (map_seq_combine (benefitByYear f) (costByYear f) 0 (N + 1)).
      - apply map_ext. intros i. rewrite Nat.sub_0_r. reflexivity.
      - rewrite EB. cbn [List.length]. rewrite repeat_length. lia.
      - rewrite EC. cbn [List.length]. rewrite repeat_length. lia. }
    rewrite Hm, EB, EC. cbn [combine map fst snd].
    rewrite combine_repeat, map_repeat. cbn [fst snd].
    unfold treatment_cf. f_equal. unfold sub. apply add_zero_l.
  - unfold f, buildCashflows. cbn [annualGM]. rewrite Ht. cbn [fold_left].
    fold tt. rewrite T1, T2. reflexivity.
Qed.



(** *** Time projections *)

(** X16: the projection table has one row per horizon of the list
    (five) when the project lasts at least a year and none otherwise;
    the horizon of a row lies between 1 and the project's last year; and
    a row that reaches the last year shows the headline present values
    and NPV, and outside the "constrained" mode the headline BCR. *)
Theorem time_projection_meets_headline (pow_frac : num -> num -> num)
    (m : Model) (rate adoptMul risk_ : num) (mode : string) :
  let N := years (time m) in
  let e := computeAll pow_frac m rate adoptMul risk_ mode in
  let rows :=
    renderTimeProjections m (r_benefitByYear e) (r_costByYear e) rate in
  List.length rows = (if (N =? 0)%nat then 0 else 5)%nat /\
  Forall (fun p =>
            (1 <= p_h p <= N)%nat /\
            (p_h p = N ->
             p_pvB p = pvBenefits e /\ p_pvC p = pvCosts e /\
             p_npv p = npv e /\
             (mode <> "constrained" -> p_bcr p = bcr e))) rows.
Proof.
  intros N e rows. split.
  - unfold rows, renderTimeProjections. fold N.
    destruct N as [|n]; reflexivity.
  - unfold rows, renderTimeProjections. fold N.
    apply Forall_flat_map. apply Forall_forall. intros H _.
    destruct (Nat.min H N <=? 0)%nat eqn:E; [constructor|].
    apply Nat.leb_gt in E. constructor; [|constructor].
    cbn [p_h p_pvB p_pvC p_npv p_bcr]. split; [lia|]. intros EN.
    destruct (cashflow_lengths m adoptMul risk_) as [L1 L2].
    fold N in L1, L2.
    unfold e, computeAll.
    cbn [r_benefitByYear r_costByYear pvBenefits pvCosts npv bcr].
    rewrite EN. rewrite !firstn_all2 by lia.
    repeat split; try reflexivity.
    intros Hm. destruct (String.eqb mode "constrained") eqn:Em;
      [apply String.eqb_eq in Em; congruence|reflexivity].
Qed.

End CashflowFacts.

(* ================================================================= *)
(** ** Further properties of the simulation *)

Module RunFacts.

Import Engine.
Import SimulationFacts.
Import CashflowFacts.

(** *** The generator *)

Lemma ofZ_ratio_unit (u n : Z) :
  (0 <= u < n)%Z ->
  exists q, ofZ u / ofZ n = Fin q /\ (Q2Qc 0 <= q)%Qc /\ (q < Q2Qc 1)%Qc.
Proof.
  intros Hu. unfold ofZ, ofQ, div.
  destruct (qeqb (Q2Qc (inject_Z n)) (Q2Qc 0)) eqn:E.
  - apply qeqb_eq in E. apply (f_equal this) in E.
    rewrite this_ofZ in E. change (this (Q2Qc 0)) with (inject_Z 0) in E.
    injection E as E. lia.
  - eexists. split; [reflexivity|].
    unfold Qcle, Qclt, Qcdiv, Qcmult, Qcinv. cbn [this Q2Qc].
    rewrite !Qred_correct.
    assert (Hn : (0 < inject_Z n)%Q) by (unfold Qlt; cbn; lia).
    assert (Hu0 : (0 <= inject_Z u)%Q) by (unfold Qle; cbn; lia).
    assert (Hun : (inject_Z u < inject_Z n)%Q) by (unfold Qlt; cbn; lia).
    split.
    + apply Qle_shift_div_l; auto; lra.
    + apply Qlt_shift_div_r; auto; lra.
Qed.

Lemma ToUint32_range (z : Z) : (0 <= ToUint32 z < two32)%Z.
Proof. unfold ToUint32. apply Z.mod_pos_bound. reflexivity. Qed.

(** X18: whatever the seed, [rng] starts from an unsigned 32-bit
    integer, and from every state the generator returns a number that
    is at least 0 and less than 1. *)
Theorem generator_draws_in_unit_interval (seed : option num) (random : num)
    (t : Z) :
  (0 <= rng seed random < two32)%Z /\
  (zero <=? snd (rand t)) = true /\ (snd (rand t) <? one) = true.
Proof.
  split; [unfold rng; apply ToUint32_range|].
  unfold rand. cbn [snd].
  match goal with
  | |- context [ofZ (ToUint32 ?x) / ofZ two32] =>
      destruct (ofZ_ratio_unit _ _ (ToUint32_range x)) as [q [-> [H0 H1]]]
  end.
  unfold leb, ltb, zero, one, ofZ, ofQ. rewrite qleb_le, qltb_lt. auto.
Qed.

(** *** The records of a run *)

Lemma clamp_unit (v : num) : in_unit_or_NaN (clamp v zero one) = true.
Proof.
  unfold in_unit_or_NaN, in_unit, clamp.
  destruct v as [a| | |]; try reflexivity.
  change (Math_min one (Fin a)) with (if Fin a <? one then Fin a else one).
  destruct (Fin a <? one) eqn:E1; [|reflexivity].
  change (Math_max zero (Fin a)) with (if zero <? Fin a then Fin a else zero).
  destruct (zero <? Fin a) eqn:E2; [|reflexivity].
  cbn [isNaN orb]. apply andb_true_iff.
  unfold ltb, leb, zero, one, ofZ, ofQ in *.
  rewrite qltb_lt in E1, E2. rewrite !qleb_le.
  split; apply Qclt_le_weak; assumption.
Qed.

Section Records.

Variable Math_sqrt : num -> num.
Variable pow_frac : num -> num -> num.

Lemma sim_iteration_log (bo : list num) (bt : list TreatCosts)
    (bc : list OtherAmounts) (v : num) (s : SimState) :
  log_ok s -> log_ok (sim_iteration Math_sqrt pow_frac bo bt bc v s).
Proof.
  intros (H1 & H2 & H3). unfold sim_iteration.
  repeat match goal with
         | |- context [let '(_, _) := ?e in _] => destruct e
         end.
  unfold log_ok. cbn [st_details st_npvs st_bcrs].
  rewrite !map_app, H1, H2. cbn [map rec_npv rec_bcr].
  repeat split. apply Forall_app. split; [exact H3|].
  constructor; [|constructor].
  split; cbn [adoptionMultiplier riskMultiplier]; apply clamp_unit.
Qed.

Lemma iterations_log (bo : list num) (bt : list TreatCosts)
    (bc : list OtherAmounts) (v : num) (s : SimState) (k : nat) :
  log_ok s ->
  log_ok (Nat.iter k (sim_iteration Math_sqrt pow_frac bo bt bc v) s).
Proof.
  intros H. induction k as [|k IH]; [exact H|].
  rewrite Nat.iter_succ. apply sim_iteration_log. exact IH.
Qed.



End Records.



(** *** Summaries *)

Lemma insert_sorted_In (x : num) (l : list num) (y : num) :
  In y (insert_sorted x l) <-> y = x \/ In y l.
Proof.
  induction l as [|z l IH]; cbn [insert_sorted].
  - cbn. intuition.
  - destruct (x <? z); cbn [In]; [intuition|]. rewrite IH. intuition.
Qed.

Lemma sort_numeric_In (l : list num) (y : num) :
  In y (sort_numeric l) <-> In y l.
Proof.
  induction l as [|x l IH]; cbn [sort_numeric fold_right In]; [tauto|].
  fold (sort_numeric l). rewrite insert_sorted_In, IH. intuition.
Qed.

Lemma insert_sorted_length (x : num) (l : list num) :
  List.length (insert_sorted x l) = S (List.length l).
Proof.
  induction l as [|z l IH]; cbn [insert_sorted]; auto.
  destruct (x <? z); cbn [List.length]; auto.
Qed.

Lemma sort_numeric_length (l : list num) :
  List.length (sort_numeric l) = List.length l.
Proof.
  induction l as [|x l IH]; cbn [sort_numeric fold_right List.length]; auto.
  fold (sort_numeric l). rewrite insert_sorted_length, IH. reflexivity.
Qed.

Lemma num_le_refl (a : num) : isFinite a = true -> num_le a a.
Proof.
  destruct a; try discriminate. intros _. unfold num_le, leb.
  apply qleb_le. apply Qcle_refl.
Qed.

Lemma num_le_trans (a b c : num) : num_le a b -> num_le b c -> num_le a c.
Proof.
  unfold num_le. destruct a, b, c; cbn; try congruence.
  rewrite !qleb_le. apply Qcle_trans.
Qed.

Lemma num_le_antisym (a b : num) : num_le a b -> num_le b a -> a = b.
Proof.
  unfold num_le. destruct a, b; cbn; try congruence.
  rewrite !qleb_le. intros H1 H2. f_equal. apply Qcle_antisym; assumption.
Qed.

Lemma num_lt_le (a b : num) : (a <? b) = true -> num_le a b.
Proof.
  unfold num_le. destruct a, b; cbn; try congruence.
  rewrite qltb_lt, qleb_le. apply Qclt_le_weak.
Qed.

Lemma num_not_lt_le (a b : num) :
  isFinite a = true -> isFinite b = true -> (a <? b) = false -> num_le b a.
Proof.
  unfold num_le. destruct a, b; cbn; try congruence. intros _ _ H.
  apply not_true_iff_false in H. rewrite qltb_lt in H. rewrite qleb_le.
  apply Qcnot_lt_le. exact H.
Qed.

Lemma insert_sorted_sorted (x : num) (l : list num) :
  isFinite x = true -> forallb isFinite l = true ->
  StronglySorted num_le l -> StronglySorted num_le (insert_sorted x l).
Proof.
  intros Hx. induction l as [|y l IH]; cbn [insert_sorted forallb];
    intros Hl Hs.
  - constructor; constructor.
  - apply andb_true_iff in Hl. destruct Hl as [Hy Hl].
    inversion Hs as [|? ? Hs' Hall]; subst.
    destruct (x <? y) eqn:E.
    + constructor; auto. constructor.
      * apply num_lt_le. exact E.
      * eapply Forall_impl; [|exact Hall]. intros z Hz.
        eapply num_le_trans; [|exact Hz]. apply num_lt_le. exact E.
    + constructor; auto. apply Forall_forall. intros z Hz.
      apply (proj1 (insert_sorted_In _ _ _)) in Hz. destruct Hz as [->|Hz].
      * apply num_not_lt_le; auto.
      * rewrite Forall_forall in Hall. auto.
Qed.

Lemma sort_numeric_finite (l : list num) :
  forallb isFinite l = true -> forallb isFinite (sort_numeric l) = true.
Proof.
  intros H. apply forallb_forall. intros x Hx.
  apply (proj1 (sort_numeric_In _ _)) in Hx.
  rewrite forallb_forall in H. apply H. exact Hx.
Qed.

Lemma sort_numeric_sorted (l : list num) :
  forallb isFinite l = true -> StronglySorted num_le (sort_numeric l).
Proof.
  induction l as [|x l IH]; cbn [sort_numeric fold_right forallb]; intros H.
  - constructor.
  - apply andb_true_iff in H. destruct H as [Hx Hl]. fold (sort_numeric l).
    apply insert_sorted_sorted; auto. apply sort_numeric_finite; auto.
Qed.

Lemma sorted_bounds (l : list num) :
  forallb isFinite l = true -> StronglySorted num_le l ->
  forall x, In x l ->
  num_le (arr_get 0 l) x /\ num_le x (arr_get (List.length l - 1) l).
Proof.
  induction l as [|y l IH]; intros Hf Hs x Hx; [destruct Hx|].
  cbn [forallb] in Hf. apply andb_true_iff in Hf. destruct Hf as [Hy Hf].
  inversion Hs as [|? ? Hs' Hall]; subst.
  rewrite Forall_forall in Hall.
  cbn [List.length]. rewrite Nat.sub_succ, Nat.sub_0_r.
  unfold arr_get in *. cbn [nth]. split.
  - destruct Hx as [->|Hx]; [apply num_le_refl; auto|auto].
  - destruct l as [|z l]; [destruct Hx as [->|[]]; apply num_le_refl; auto|].
    cbn [List.length] in IH. rewrite Nat.sub_succ, Nat.sub_0_r in IH.
    destruct Hx as [->|Hx].
    + apply Hall. cbn [List.length]. apply nth_In. cbn [List.length]. lia.
    + cbn [List.length]. apply (IH Hf Hs' x Hx).
Qed.

(** X21: when some result is finite, the minimum and the maximum that
    [summaryStats] reports are finite results of the run, and every
    finite result lies between them. *)
Theorem summary_extremes (arr : list num) :
  existsb isFinite arr = true ->
  let s := summaryStats arr in
  (In (s_min s) arr /\ isFinite (s_min s) = true) /\
  (In (s_max s) arr /\ isFinite (s_max s) = true) /\
  forall x, In x arr -> isFinite x = true ->
            (s_min s <=? x) = true /\ (x <=? s_max s) = true.
Proof.
  intros Hex s. unfold s, summaryStats.
  set (clean := filter isFinite arr).
  assert (Hf : forallb isFinite clean = true).
  { apply forallb_forall. intros x Hx. apply filter_In in Hx. tauto. }
  assert (Hne : clean <> []).
  { apply existsb_exists in Hex. destruct Hex as [x [Hx Hfx]].
    intros E. assert (Hin : In x clean) by (apply filter_In; auto).
    rewrite E in Hin. destruct Hin. }
  destruct clean as [|c0 cl] eqn:Ec; [congruence|]. rewrite <- Ec in *.
  cbn [s_min s_max].
  set (sorted := sort_numeric clean).
  assert (Hlen : List.length sorted <> 0%nat).
  { unfold sorted. rewrite sort_numeric_length, Ec. discriminate. }
  assert (Hin : forall i, (i < List.length sorted)%nat ->
                          In (arr_get i sorted) arr /\
                          isFinite (arr_get i sorted) = true).
  { intros i Hi. assert (H : In (arr_get i sorted) clean).
    { apply (proj1 (sort_numeric_In clean _)). apply nth_In. exact Hi. }
    apply filter_In in H. exact H. }
  split; [apply Hin; lia|]. split; [apply Hin; lia|].
  intros x Hx Hfx.
  apply (sorted_bounds sorted).
  - apply sort_numeric_finite. exact Hf.
  - apply sort_numeric_sorted. exact Hf.
  - apply (proj2 (sort_numeric_In clean _)). apply filter_In. auto.
Qed.

Lemma summary_extremes_witness :
  existsb isFinite [ofZ 3; NaN; ofZ 1] = true /\
  In (s_min (summaryStats [ofZ 3; NaN; ofZ 1])) [ofZ 3; NaN; ofZ 1].
Proof.
  split; [reflexivity|].
  apply (summary_extremes [ofZ 3; NaN; ofZ 1]). reflexivity.
Defined.

Lemma share_in_unit (k n : nat) :
  (k <= n)%nat -> (0 < n)%nat -> in_unit (ofNat k / ofNat n) = true.
Proof.
  intros Hk Hn. unfold ofNat, ofZ, ofQ, div.
  destruct (qeqb (Q2Qc (inject_Z (Z.of_nat n))) (Q2Qc 0)) eqn:E.
  - apply qeqb_eq in E. apply (f_equal this) in E.
    rewrite this_ofZ in E. change (this (Q2Qc 0)) with (inject_Z 0) in E.
    injection E as E. lia.
  - unfold in_unit, leb, zero, one, ofZ, ofQ. apply andb_true_iff.
    rewrite !qleb_le.
    unfold Qcle, Qcdiv, Qcmult, Qcinv. cbn [this Q2Qc].
    rewrite !Qred_correct.
    change (inject_Z 0) with 0%Q. change (inject_Z 1) with 1%Q.
    assert (Hn' : (0 < inject_Z (Z.of_nat n))%Q) by (unfold Qlt; cbn; lia).
    assert (Hk0 : (0 <= inject_Z (Z.of_nat k))%Q) by (unfold Qle; cbn; lia).
    assert (Hkn : (inject_Z (Z.of_nat k) <= inject_Z (Z.of_nat n))%Q)
      by (unfold Qle; cbn; lia).
    split.
    + apply Qle_shift_div_l; auto; lra.
    + apply Qle_shift_div_r; auto; lra.
Qed.

Lemma filter_length_le {A : Type} (p : A -> bool) (l : list A) :
  (List.length (filter p l) <= List.length l)%nat.
Proof.
  induction l as [|x l IH]; cbn [filter List.length]; auto.
  destruct (p x); cbn [List.length]; lia.
Qed.

(** X22: the probability that the BCR exceeds a threshold is a number
    between 0 and 1 for every list of results (0 for the empty list);
    the probability of a positive value in a summary is between 0 and 1
    when some result is finite and NaN otherwise. *)
Theorem probabilities_in_unit_interval (x : num) (bcrs arr : list num) :
  in_unit (probBcrGt x bcrs) = true /\
  if existsb isFinite arr
  then in_unit (s_probPos (summaryStats arr)) = true
  else s_probPos (summaryStats arr) = NaN.
Proof.
  split.
  - unfold probBcrGt.
    destruct bcrs as [|b bcrs]; [reflexivity|].
    pose proof (share_in_unit
                  (List.length (filter (fun v => isFinite v && (v >? x))
                                       (b :: bcrs)))
                  (List.length (b :: bcrs))
                  (filter_length_le _ _)) as H.
    specialize (H ltac:(cbn [List.length]; lia)).
    unfold por. destruct (truthy _); [exact H|reflexivity].
  - destruct (existsb isFinite arr) eqn:E; unfold summaryStats.
    + destruct (filter isFinite arr) as [|c0 cl] eqn:Ec.
      * exfalso. apply existsb_exists in E. destruct E as [v [Hv Hfv]].
        assert (Hin : In v (filter isFinite arr)) by (apply filter_In; auto).
        rewrite Ec in Hin. destruct Hin.
      * cbn [s_probPos]. apply share_in_unit.
        -- apply filter_length_le.
        -- rewrite sort_numeric_length. cbn [List.length]. lia.
    + assert (Hc : filter isFinite arr = []).
      { clear - E. induction arr as [|v l IH]; cbn [filter existsb] in *; auto.
        apply orb_false_iff in E. destruct E as [-> E]. auto. }
      rewrite Hc. reflexivity.
Qed.

(** *** Histogram bins *)

Lemma incr_nth_sum (i : nat) (counts : list nat) :
  (i < List.length counts)%nat ->
  List.length (incr_nth i counts) = List.length counts /\
  list_sum (incr_nth i counts) = S (list_sum counts).
Proof.
  unfold list_sum.
  revert i. induction counts as [|c r IH]; intros i Hi; [cbn in Hi; lia|].
  destruct i; cbn [incr_nth List.length fold_right].
  - split; reflexivity.
  - cbn [List.length] in Hi. destruct (IH i ltac:(lia)) as [H1 H2].
    rewrite H1, H2. split; lia.
Qed.

Lemma incr_at_ofZ (z : Z) (counts : list nat) :
  (0 <= z < Z.of_nat (List.length counts))%Z ->
  List.length (incr_at (ofZ z) counts) = List.length counts /\
  list_sum (incr_at (ofZ z) counts) = S (list_sum counts).
Proof.
  intros Hz. unfold incr_at, ofZ, ofQ.
  change (Qden (Q2Qc (inject_Z z))) with (Qden (this (Q2Qc (inject_Z z)))).
  change (Qnum (Q2Qc (inject_Z z))) with (Qnum (this (Q2Qc (inject_Z z)))).
  rewrite this_ofZ. cbn [inject_Z Qden Qnum].
  rewrite Pos.eqb_refl. destruct (0 <=? z)%Z eqn:E; [|lia].
  cbn [andb]. apply incr_nth_sum. lia.
Qed.

Lemma ofZ_leb (a b : Z) : (ofZ a <=? ofZ b) = (a <=? b)%Z.
Proof.
  unfold ofZ, ofQ, leb. apply eq_iff_eq_true. rewrite qleb_le.
  unfold Qcle. rewrite !this_ofZ. rewrite <- Zle_Qle. symmetry.
  apply Z.leb_le.
Qed.

Lemma ofZ_minus_one (z : Z) : ofZ z - one = ofZ (z - 1).
Proof.
  unfold one, ofZ, ofQ, sub, neg, add. f_equal.
  apply Qc_is_canon. unfold Qcplus, Qcopp. cbn [this Q2Qc].
  rewrite !Qred_correct. unfold Z.sub. rewrite inject_Z_plus, inject_Z_opp.
  reflexivity.
Qed.

(** The bin of a value is a whole number from 0 to [bins - 1]. *)
Lemma bin_index_range (bins : nat) (min binWidth v : num) :
  (0 < bins)%nat ->
  isFinite ((v - min) / binWidth) = true ->
  exists z, bin_index bins min binWidth v = ofZ z /\
            (0 <= z < Z.of_nat bins)%Z.
Proof.
  intros Hb Hf. unfold bin_index.
  destruct ((v - min) / binWidth) as [q| | |]; try discriminate.
  cbn [Math_floor]. set (z := Qfloor q).
  change zero with (ofZ 0). rewrite ofZ_ltb.
  assert (E : (if (z <? 0)%Z then ofZ 0 else ofZ z) = ofZ (Z.max 0 z)).
  { destruct (z <? 0)%Z eqn:E; [apply Z.ltb_lt in E|apply Z.ltb_ge in E];
      f_equal; lia. }
  rewrite E. unfold geb, ofNat. rewrite ofZ_leb, ofZ_minus_one.
  destruct (Z.of_nat bins <=? Z.max 0 z)%Z eqn:E2;
    [apply Z.leb_le in E2|apply Z.leb_gt in E2]; eexists; split;
    try reflexivity; lia.
Qed.

Lemma fold_min_finite (l : list num) :
  forallb isFinite l = true ->
  forall acc, acc = PInf \/ isFinite acc = true ->
  (l <> [] \/ isFinite acc = true) ->
  isFinite (fold_left Math_min l acc) = true.
Proof.
  induction l as [|x l IH]; cbn [forallb fold_left]; intros Hl acc Ha Hne.
  - destruct Hne as [H|H]; [congruence|exact H].
  - apply andb_true_iff in Hl. destruct Hl as [Hx Hl].
    assert (Hm : isFinite (Math_min acc x) = true).
    { destruct x as [a| | |]; try discriminate.
      destruct Ha as [->|Ha]; [reflexivity|].
      destruct acc as [c| | |]; try discriminate.
      unfold Math_min. destruct (_ <? _); reflexivity. }
    apply IH; auto.
Qed.

Lemma fold_max_finite (l : list num) :
  forallb isFinite l = true ->
  forall acc, acc = NInf \/ isFinite acc = true ->
  (l <> [] \/ isFinite acc = true) ->
  isFinite (fold_left Math_max l acc) = true.
Proof.
  induction l as [|x l IH]; cbn [forallb fold_left]; intros Hl acc Ha Hne.
  - destruct Hne as [H|H]; [congruence|exact H].
  - apply andb_true_iff in Hl. destruct Hl as [Hx Hl].
    assert (Hm : isFinite (Math_max acc x) = true).
    { destruct x as [a| | |]; try discriminate.
      destruct Ha as [->|Ha]; [reflexivity|].
      destruct acc as [c| | |]; try discriminate.
      unfold Math_max. destruct (_ <? _); reflexivity. }
    apply IH; auto.
Qed.

Lemma counting_fold (bins : nat) (mn w : num) (clean : list num) :
  (0 < bins)%nat ->
  Forall (fun v => isFinite ((v - mn) / w) = true) clean ->
  forall counts, List.length counts = bins ->
  let r := fold_left (fun counts v => incr_at (bin_index bins mn w v) counts)
                     clean counts in
  List.length r = bins /\
  list_sum r = (list_sum counts + List.length clean)%nat.
Proof.
  intros Hb. induction 1 as [|v l Hv _ IH]; intros counts Hc;
    cbn [fold_left List.length].
  - split; [exact Hc|lia].
  - destruct (bin_index_range bins mn w v Hb Hv) as [z [Ez Hz]].
    rewrite Ez. destruct (incr_at_ofZ z counts) as [L S]; [lia|].
    destruct (IH (incr_at (ofZ z) counts)) as [L' S']; [congruence|].
    cbn zeta in L', S'. rewrite L', S', S. split; lia.
Qed.

Lemma list_sum_repeat0 (n : nat) : list_sum (repeat O n) = O.
Proof. induction n; cbn; auto. Qed.

Lemma sub_div_finite (v mn mx : num) (bins : nat) :
  (0 < bins)%nat ->
  isFinite v = true -> isFinite mn = true -> isFinite mx = true ->
  (mn =? mx) = false ->
  isFinite ((v - mn) / ((mx - mn) / ofNat bins)) = true.
Proof.
  intros Hb Hv Hmn Hmx Hne.
  destruct v as [a| | |], mn as [c| | |], mx as [d| | |]; try discriminate.
  unfold ofNat, ofZ, ofQ. cbn [sub neg add].
  assert (Hn : Q2Qc (inject_Z (Z.of_nat bins)) <> Q2Qc 0).
  { intros H. apply (f_equal this) in H. rewrite this_ofZ in H.
    change (this (Q2Qc 0)) with (inject_Z 0) in H. injection H as H. lia. }
  rewrite div_Fin by exact Hn.
  assert (Hd : (d + - c)%Qc <> Q2Qc 0).
  { intros H. unfold eqb in Hne. apply not_true_iff_false in Hne.
    apply Hne. apply qeqb_eq.
    assert (E : (d = (d + - c) + c)%Qc) by ring. rewrite E, H.
    change (Q2Qc 0) with 0%Qc. ring. }
  rewrite div_Fin; [reflexivity|].
  intros H. unfold Qcdiv in H. apply Qcmult_integral in H.
  destruct H as [H|H]; [auto|].
  pose proof (Qcmult_inv_r _ Hn) as E1. rewrite H in E1.
  change (Q2Qc 0) with 0%Qc in E1. rewrite Qcmult_0_r in E1. discriminate.
Qed.

Lemma Math_min_le (a x : num) :
  a <> NaN -> isFinite x = true ->
  num_le (Math_min a x) a /\ num_le (Math_min a x) x /\ Math_min a x <> NaN.
Proof.
  intros Ha Hx. destruct x as [q| | |]; try discriminate.
  destruct a as [c| | |]; try congruence; unfold Math_min.
  - destruct (Fin q <? Fin c) eqn:E.
    + repeat split; try discriminate.
      * apply num_lt_le. exact E.
      * apply num_le_refl. reflexivity.
    + repeat split; try discriminate.
      * apply num_le_refl. reflexivity.
      * apply num_not_lt_le; auto.
  - cbn. repeat split; try discriminate. apply num_le_refl. reflexivity.
  - cbn. repeat split; discriminate.
Qed.

Lemma Math_max_ge (a x : num) :
  a <> NaN -> isFinite x = true ->
  num_le a (Math_max a x) /\ num_le x (Math_max a x) /\ Math_max a x <> NaN.
Proof.
  intros Ha Hx. destruct x as [q| | |]; try discriminate.
  destruct a as [c| | |]; try congruence; unfold Math_max.
  - destruct (Fin c <? Fin q) eqn:E.
    + repeat split; try discriminate.
      * apply num_lt_le. exact E.
      * apply num_le_refl. reflexivity.
    + repeat split; try discriminate.
      * apply num_le_refl. reflexivity.
      * apply num_not_lt_le; auto.
  - cbn. repeat split; discriminate.
  - cbn. repeat split; try discriminate. apply num_le_refl. reflexivity.
Qed.

Lemma fold_min_bounds (l : list num) :
  forallb isFinite l = true ->
  forall acc, acc <> NaN ->
  num_le (fold_left Math_min l acc) acc /\
  forall x, In x l -> num_le (fold_left Math_min l acc) x.
Proof.
  induction l as [|v l IH]; cbn [forallb fold_left]; intros Hl acc Ha.
  - split; [|intros x []]. destruct acc; try congruence; cbn;
      try reflexivity. apply qleb_le, Qcle_refl.
  - apply andb_true_iff in Hl. destruct Hl as [Hv Hl].
    destruct (Math_min_le acc v Ha Hv) as (M1 & M2 & M3).
    destruct (IH Hl (Math_min acc v) M3) as [I1 I2]. split.
    + eapply num_le_trans; eauto.
    + intros x [<-|Hx]; [eapply num_le_trans; eauto|auto].
Qed.

Lemma fold_max_bounds (l : list num) :
  forallb isFinite l = true ->
  forall acc, acc <> NaN ->
  num_le acc (fold_left Math_max l acc) /\
  forall x, In x l -> num_le x (fold_left Math_max l acc).
Proof.
  induction l as [|v l IH]; cbn [forallb fold_left]; intros Hl acc Ha.
  - split; [|intros x []]. destruct acc; try congruence; cbn;
      try reflexivity. apply qleb_le, Qcle_refl.
  - apply andb_true_iff in Hl. destruct Hl as [Hv Hl].
    destruct (Math_max_ge acc v Ha Hv) as (M1 & M2 & M3).
    destruct (IH Hl (Math_max acc v) M3) as [I1 I2]. split.
    + eapply num_le_trans; eauto.
    + intros x [<-|Hx]; [eapply num_le_trans; eauto|auto].
Qed.



End RunFacts.

(* ================================================================= *)
(** ** Properties of the text helpers *)

Module TextFacts.

Import Engine.

(** *** Escaping *)

Lemma all_chars_app (p : ascii -> bool) (a b : string) :
  all_chars p (a ++ b) = all_chars p a && all_chars p b.
Proof.
  unfold all_chars.
  induction a as [|c a IH]; cbn [append list_ascii_of_string forallb].
  - reflexivity.
  - rewrite IH. apply andb_assoc.
Qed.

Lemma esc_char_inert (c : ascii) : inert (esc_char c) = true.
Proof.
  unfold esc_char.
  destruct (Ascii.eqb c "&") eqn:E1; [reflexivity|].
  destruct (Ascii.eqb c "<") eqn:E2; [reflexivity|].
  destruct (Ascii.eqb c ">") eqn:E3; [reflexivity|].
  destruct (Ascii.eqb c dquote) eqn:E4; [reflexivity|].
  destruct (Ascii.eqb c "'") eqn:E5; [reflexivity|].
  unfold inert, all_chars, is_markup. cbn [list_ascii_of_string forallb].
  rewrite E2, E3, E4, E5. reflexivity.
Qed.

Lemma esc_string_inert (s : string) : inert (esc_string s) = true.
Proof.
  induction s as [|c s IH]; cbn [esc_string]; [reflexivity|].
  unfold inert in *. rewrite all_chars_app.
  fold (inert (esc_char c)). rewrite esc_char_inert, IH. reflexivity.
Qed.

Lemma esc_char_cases (c : ascii) :
  (is_special c = false /\ esc_char c = String c "") \/
  (c = "&"%char /\ esc_char c = "&amp;") \/
  (c = "<"%char /\ esc_char c = "&lt;") \/
  (c = ">"%char /\ esc_char c = "&gt;") \/
  (c = dquote /\ esc_char c = "&quot;") \/
  (c = "'"%char /\ esc_char c = "&#39;").
Proof.
  unfold esc_char, is_special, is_markup.
  destruct (Ascii.eqb c "&") eqn:E1;
    [apply Ascii.eqb_eq in E1; subst; right; left; auto|].
  destruct (Ascii.eqb c "<") eqn:E2;
    [apply Ascii.eqb_eq in E2; subst; right; right; left; auto|].
  destruct (Ascii.eqb c ">") eqn:E3;
    [apply Ascii.eqb_eq in E3; subst; right; right; right; left; auto|].
  destruct (Ascii.eqb c dquote) eqn:E4;
    [apply Ascii.eqb_eq in E4; subst; right; right; right; right; left; auto|].
  destruct (Ascii.eqb c "'") eqn:E5;
    [apply Ascii.eqb_eq in E5; subst; right; right; right; right; right; auto|].
  left. auto.
Qed.

Lemma append_cancel_l (p a b : string) : p ++ a = p ++ b -> a = b.
Proof.
  induction p as [|c p IH]; cbn [append]; intros H; [exact H|].
  injection H as H. apply IH. exact H.
Qed.

Lemma esc_string_injective (s1 : string) :
  forall s2, esc_string s1 = esc_string s2 -> s1 = s2.
Proof.
  induction s1 as [|c1 s1 IH]; intros [|c2 s2] H; cbn [esc_string] in H.
  - reflexivity.
  - exfalso. destruct (esc_char_cases c2)
      as [[_ E]|[[_ E]|[[_ E]|[[_ E]|[[_ E]|[_ E]]]]]];
      rewrite E in H; discriminate.
  - exfalso. destruct (esc_char_cases c1)
      as [[_ E]|[[_ E]|[[_ E]|[[_ E]|[[_ E]|[_ E]]]]]];
      rewrite E in H; discriminate.
  - destruct (esc_char_cases c1)
      as [[N1 E1]|[[C1 E1]|[[C1 E1]|[[C1 E1]|[[C1 E1]|[C1 E1]]]]]];
    destruct (esc_char_cases c2)
      as [[N2 E2]|[[C2 E2]|[[C2 E2]|[[C2 E2]|[[C2 E2]|[C2 E2]]]]]];
    rewrite E1, E2 in H;
    first
      [ subst c1 c2; apply append_cancel_l in H; f_equal; apply IH; exact H
      | cbn [append] in H; injection H as -> H; f_equal; apply IH; exact H
      | exfalso; apply (f_equal (String.get 0)) in H; cbn in H;
        injection H as H; subst; first [discriminate N1 | discriminate N2]
      | exfalso; apply (f_equal (String.get 1)) in H; cbn in H;
        discriminate H ].
Qed.

(** X24: the text [esc] returns holds none of the characters that open
    or close markup or an attribute value (less-than, greater-than,
    double quote, apostrophe), and escaping loses nothing: two texts
    have the same escaped form only if they are the same text. *)
Theorem escaping_is_inert_and_lossless (s : option string)
    (t1 t2 : string) :
  inert (esc s) = true /\
  (esc (Some t1) = esc (Some t2) <-> t1 = t2).
Proof.
  split.
  - destruct s as [s|]; [apply esc_string_inert|reflexivity].
  - cbn [esc]. split.
    + apply esc_string_injective.
    + intros ->. reflexivity.
Qed.

(** *** Slugs *)

Lemma replace_runs_shape (s : string) :
  forall run,
  all_chars is_id_char (replace_runs run s) = true /\
  no_double (replace_runs run s) = true /\
  (run = true -> first_char (replace_runs run s) <> Some "_"%char).
Proof.
  induction s as [|c s IH]; intros run; cbn [replace_runs].
  - repeat split. intros _. discriminate.
  - destruct (is_slug_char c) eqn:Ec.
    + destruct (IH false) as (A & B & _). repeat split.
      * unfold all_chars in *. cbn [list_ascii_of_string forallb].
        unfold is_id_char at 1. rewrite Ec, A. reflexivity.
      * cbn [no_double]. rewrite B.
        assert (Hc : Ascii.eqb c "_" = false).
        { destruct (Ascii.eqb c "_") eqn:E; auto.
          apply Ascii.eqb_eq in E. subst. discriminate. }
        rewrite Hc. destruct (replace_runs false s); reflexivity.
      * intros _. cbn [first_char]. intros H. injection H as ->. discriminate.
    + destruct run.
      * apply IH.
      * destruct (IH true) as (A & B & C). repeat split.
        -- unfold all_chars in *. cbn [list_ascii_of_string forallb].
           rewrite A. reflexivity.
        -- cbn [no_double]. rewrite B.
           specialize (C eq_refl).
           destruct (replace_runs true s) as [|c2 r]; [reflexivity|].
           cbn [first_char] in C.
           destruct (Ascii.eqb c2 "_") eqn:E; [|reflexivity].
           apply Ascii.eqb_eq in E. subst. congruence.
        -- discriminate.
Qed.

Lemma strip_leading_chars (p : ascii -> bool) (s : string) :
  all_chars p s = true -> all_chars p (strip_leading s) = true.
Proof.
  unfold all_chars. induction s as [|c s IH]; cbn [strip_leading]; auto.
  destruct (Ascii.eqb c "_"); auto.
  cbn [list_ascii_of_string forallb]. intros H.
  apply andb_true_iff in H. apply IH. tauto.
Qed.

Lemma strip_trailing_chars (p : ascii -> bool) (s : string) :
  all_chars p s = true -> all_chars p (strip_trailing s) = true.
Proof.
  unfold all_chars. induction s as [|c s IH]; cbn [strip_trailing]; auto.
  cbn [list_ascii_of_string forallb]. intros H.
  apply andb_true_iff in H. destruct H as [Hc Hs]. specialize (IH Hs).
  destruct (strip_trailing s) as [|c' r'].
  - destruct (Ascii.eqb c "_"); [reflexivity|].
    cbn [list_ascii_of_string forallb]. rewrite Hc. reflexivity.
  - cbn [list_ascii_of_string forallb] in *. rewrite Hc, IH. reflexivity.
Qed.

Lemma strip_leading_first (s : string) :
  first_char (strip_leading s) <> Some "_"%char.
Proof.
  induction s as [|c s IH]; cbn [strip_leading]; [discriminate|].
  destruct (Ascii.eqb c "_") eqn:E; auto.
  cbn [first_char]. intros H. injection H as ->. discriminate.
Qed.

Lemma strip_trailing_last (s : string) :
  last_char (strip_trailing s) <> Some "_"%char.
Proof.
  induction s as [|c s IH]; cbn [strip_trailing]; [discriminate|].
  destruct (strip_trailing s) as [|c' r'] eqn:E.
  - destruct (Ascii.eqb c "_") eqn:Ec; [discriminate|].
    cbn [last_char]. intros H. injection H as ->. discriminate.
  - exact IH.
Qed.

Lemma strip_trailing_first (s : string) :
  first_char s <> Some "_"%char ->
  first_char (strip_trailing s) <> Some "_"%char.
Proof.
  destruct s as [|c s]; cbn [strip_trailing first_char]; auto.
  intros H. destruct (strip_trailing s).
  - destruct (Ascii.eqb c "_"); [discriminate|exact H].
  - exact H.
Qed.

Lemma no_double_tail (c : ascii) (s : string) :
  no_double (String c s) = true -> no_double s = true.
Proof. cbn [no_double]. intros H. apply andb_true_iff in H. tauto. Qed.

Lemma strip_leading_once (s : string) :
  no_double s = true -> strip_leading s = drop_first s.
Proof.
  destruct s as [|c s]; cbn [strip_leading drop_first]; auto.
  destruct (Ascii.eqb c "_") eqn:E; auto.
  intros H. destruct s as [|c2 r]; [reflexivity|].
  cbn [no_double] in H. rewrite E in H. cbn [andb] in H.
  cbn [strip_leading]. destruct (Ascii.eqb c2 "_"); [discriminate|reflexivity].
Qed.

Lemma strip_trailing_once (s : string) :
  no_double s = true -> strip_trailing s = drop_last s.
Proof.
  induction s as [|c s IH]; auto. intros H.
  pose proof (no_double_tail c s H) as Hs. specialize (IH Hs).
  cbn [strip_trailing]. rewrite IH.
  destruct s as [|c2 r]; [reflexivity|].
  change (drop_last (String c (String c2 r)))
    with (String c (drop_last (String c2 r))).
  destruct (drop_last (String c2 r)) eqn:Ed; [|reflexivity].
  destruct r as [|c3 r'].
  - cbn [drop_last] in Ed. destruct (Ascii.eqb c2 "_") eqn:E2; [|discriminate].
    cbn [no_double] in H. rewrite E2 in H.
    destruct (Ascii.eqb c "_"); [discriminate|reflexivity].
  - discriminate.
Qed.

Lemma drop_first_no_double (s : string) :
  no_double s = true -> no_double (drop_first s) = true.
Proof.
  destruct s as [|c s]; cbn [drop_first]; auto.
  intros H. destruct (Ascii.eqb c "_"); auto.
  apply (no_double_tail c s H).
Qed.

(** X25: a treatment slug is made of lower-case letters, digits and
    underscores only, and neither starts nor ends with an underscore;
    on a name that is not empty [slug] returns the same text as
    [slugifyTreatmentName], although it strips one underscore at each
    end where the other strips them all. *)
Theorem slugs_are_identifiers (name : string) :
  let out := slugifyTreatmentName name in
  all_chars is_id_char out = true /\
  first_char out <> Some "_"%char /\
  last_char out <> Some "_"%char /\
  (name <> "" -> slug name = out).
Proof.
  intros out. unfold out, slugifyTreatmentName.
  destruct (replace_runs_shape (toLowerCase name) false) as (A & B & _).
  repeat split.
  - apply strip_trailing_chars, strip_leading_chars, A.
  - apply strip_trailing_first, strip_leading_first.
  - apply strip_trailing_last.
  - intros Hn. unfold slug.
    destruct (String.eqb name "") eqn:E;
      [apply String.eqb_eq in E; congruence|].
    rewrite (strip_leading_once _ B).
    rewrite strip_trailing_once; [reflexivity|].
    apply drop_first_no_double, B.
Qed.

End TextFacts.
